(** * playlist-forge: the anchor / gap-fill resolution engine

    A shallow embedding of the engine's core (core/searchScraper.ts,
    core/geminiReranker.ts, engine/anchorHunter.ts, engine/gapFiller.ts,
    engine/oneShotSearch.ts, engine/preferences.ts,
    engine/playlistBuilder.ts, with the types of core/types.ts and
    types/yt-search.d.ts) and the properties stated about it.

    Conventions of the embedding:
    - a JavaScript string is the list of its UTF-16 code units, so that
      [.length], [.includes] and the [/[A-Z]/g] count are the source's;
    - the integers of the program (seconds, views, density scores) are [Z],
      indices and positions are [nat]; the coverage score, computed with
      a division, is a double ([jsnum]);
    - an asynchronous function is a computation [M] that reads the answers
      of the world, logs its external calls and returns or throws;
    - what is not the repository's text (toLowerCase, trim, Fuse.js,
      yt-search, the Gemini client) and the query rewriting of
      core/queryIntelligence.ts are fields of a [World]: every theorem
      holds for each world. *)

From Stdlib Require Import ZArith NArith QArith Qround Qpower Lqa Lia Bool String Ascii.
From Stdlib Require Import Sorted SpecFloat.
From stdpp Require Import base option list gmap.

Local Open Scope Z_scope.

(** ** JavaScript strings *)

Definition jsstring := list N.

(** UTF-8 bytes of a literal of this file to UTF-16 code units. *)
Fixpoint utf16_of_bytes (bs : list N) : jsstring :=
  match bs with
  | [] => []
  | b :: r =>
    if (b <? 128)%N then b :: utf16_of_bytes r
    else if (b <? 224)%N then
      match r with
      | c1 :: r1 => ((b - 192) * 64 + (c1 - 128))%N :: utf16_of_bytes r1
      | _ => []
      end
    else if (b <? 240)%N then
      match r with
      | c1 :: c2 :: r2 =>
        ((b - 224) * 4096 + (c1 - 128) * 64 + (c2 - 128))%N :: utf16_of_bytes r2
      | _ => []
      end
    else
      match r with
      | c1 :: c2 :: c3 :: r3 =>
        let cp := ((b - 240) * 262144 + (c1 - 128) * 4096
                   + (c2 - 128) * 64 + (c3 - 128))%N in
        let c := (cp - 65536)%N in
        (55296 + c / 1024)%N :: (56320 + c mod 1024)%N :: utf16_of_bytes r3
      | _ => []
      end
  end.

Definition js (s : string) : jsstring :=
  utf16_of_bytes (List.map N_of_ascii (list_ascii_of_string s)).

Definition str_eqb (a b : jsstring) : bool := bool_decide (a = b).

(** [s.startsWith(p)] and [s.includes(p)] on code units. *)
Fixpoint startsWith (s p : jsstring) : bool :=
  match p, s with
  | [], _ => true
  | _ :: _, [] => false
  | x :: p', y :: s' => (x =? y)%N && startsWith s' p'
  end.

Fixpoint includes (s p : jsstring) : bool :=
  startsWith s p ||
  match s with
  | [] => false
  | _ :: s' => includes s' p
  end.

(** [s.length]. *)
Definition jslength (s : jsstring) : Z := Z.of_nat (length s).

(** [(s.match(/[A-Z]/g) || []).length]. *)
Definition isUpperAZ (c : N) : bool := (65 <=? c)%N && (c <=? 90)%N.
Definition countUpperAZ (s : jsstring) : Z :=
  Z.of_nat (length (List.filter isUpperAZ s)).

(** [a || b] on strings: the empty string is falsy. *)
Definition strOr (a : option jsstring) (b : jsstring) : jsstring :=
  match a with
  | Some (c :: s) => c :: s
  | _ => b
  end.

(** [parts.join(sep)]. *)
Fixpoint join (sep : jsstring) (parts : list jsstring) : jsstring :=
  match parts with
  | [] => []
  | [p] => p
  | p :: rest => p ++ sep ++ join sep rest
  end.

(** The lower-casing of ASCII letters, the instance of [toLowerCase] used
    to run the definitions on ASCII inputs. *)
Definition asciiLower (s : jsstring) : jsstring :=
  List.map (fun c => if isUpperAZ c then (c + 32)%N else c) s.

(** [trim] for ASCII blanks, the instance of [String.prototype.trim] used
    to run the definitions on ASCII inputs. *)
Definition isBlank (c : N) : bool :=
  (c =? 32)%N || ((9 <=? c)%N && (c <=? 13)%N).
Fixpoint trimStart (s : jsstring) : jsstring :=
  match s with
  | c :: s' => if isBlank c then trimStart s' else s
  | [] => []
  end.
Definition asciiTrim (s : jsstring) : jsstring :=
  rev (trimStart (rev (trimStart s))).

(** ** core/types.ts *)

Inductive VideoSource :=
  | anchor_playlist
  | gap_fill
  | one_shot
  | first_principle.

Record PlaylistEntry := {
  position : nat;
  videoId : jsstring;
  title : jsstring;
  channelName : jsstring;
  durationSeconds : Z;
  durationDisplay : jsstring;
  topicMatched : jsstring;
  source : VideoSource;
}.

Record AnchorVideo := {
  av_videoId : jsstring;
  av_title : jsstring;
  av_durationSeconds : Z;
  av_durationDisplay : jsstring;
  av_position : nat;
}.

Record DurationConfig := {
  minSeconds : Z;
  maxSeconds : Z;
  targetPerTopic : jsstring;
}.

(** engine/preferences.ts *)
Record SearchModifiers := {
  languageSuffix : jsstring;
  experienceLevel : jsstring;
  duration : DurationConfig;
  modeLabel : jsstring;
  modeKeywords : jsstring;
}.

(** ** core/searchScraper.ts *)

Record Duration := { seconds : Z; timestamp : jsstring }.
Record Author := { name : jsstring; url : option jsstring }.

Record VideoCandidate := {
  vc_videoId : jsstring;
  vc_title : jsstring;
  description : jsstring;
  vc_duration : Duration;
  views : Z;
  author : Author;
  densityScore : option Z;
  densityFlags : option (list jsstring);
  tags : option (list jsstring);
  category : option jsstring;
  officialTopics : option (list jsstring);
  channelId : option jsstring;
  likeCount : option Z;
  commentCount : option Z;
  transcriptSnippet : option jsstring;
}.

Module WEIGHTS.
Definition GITHUB_BOOST : Z := 50.
Definition LONG_VIDEO_BOOST : Z := 30.
Definition MEDIUM_VIDEO_BOOST : Z := 15.
Definition DOCUMENTATION_BOOST : Z := 25.
Definition ACADEMIC_BOOST : Z := 20.
Definition EMPTY_DESC_PENALTY : Z := -40.
Definition HIGH_VIEW_PENALTY_THRESHOLD : Z := 500000.
Definition CLICKBAIT_PENALTY : Z := -100.
End WEIGHTS.

Module QUALITY_SIGNALS.
Definition github : list jsstring :=
  List.map js ["github.com"; "github.io"; "gitlab.com"; "bitbucket.org"]%string.
Definition colab : list jsstring :=
  List.map js ["colab.research.google.com"; "kaggle.com/code"; "jupyter"]%string.
Definition documentation : list jsstring :=
  List.map js ["documentation"; "docs"; "api reference"; "readme";
               "implementation"]%string.
Definition academic : list jsstring :=
  List.map js ["paper"; "research"; "arxiv"; "whitepaper"; "thesis";
               "algorithm"]%string.
Definition technical : list jsstring :=
  List.map js ["source code"; "repository"; "npm"; "pip install";
               "docker"]%string.
End QUALITY_SIGNALS.

Definition CLICKBAIT_SIGNALS : list jsstring :=
  List.map js ["mind-blowing"; "you won't believe"; "insane"; "crazy"; "!! ";
               "🔥🔥🔥"; "secrets revealed"; "changed my life";
               "in just 5 minutes"; "watch this before";
               "nobody tells you"]%string.

(** The flags pushed by [calculateDensityScore]. *)
Module Flag.
Definition github := js "🔗 GitHub Link".
Definition notebook := js "📓 Notebook Link".
Definition documentation := js "📚 Documentation".
Definition academic := js "🎓 Academic".
Definition technical := js "⚙️ Technical".
Definition deep_dive := js "⏱️ Deep Dive (15+ min)".
Definition detailed := js "⏱️ Detailed (10-15 min)".
Definition clickbait := js "⚠️ Clickbait Signal".
Definition high_views := js "⚠️ High Views, Low Info".
Definition aggressive := js "⚠️ Aggressive Title".
End Flag.

(** The running pair [score], [flags] of [calculateDensityScore]. *)
Record Density := { score : Z; flags : list jsstring }.

(** [score += w; flags.push(f)] when [hit]. *)
Definition bump (hit : bool) (w : Z) (f : jsstring) (d : Density) : Density :=
  if hit then {| score := score d + w; flags := flags d ++ [f] |} else d.

Section Scorer.
(** [String.prototype.toLowerCase]. *)
Variable toLowerCase : jsstring -> jsstring.

(** The positive signals, in the order of the source.  Each
    [for ... if ... break] loop adds its weight once when some signal of
    its list is found. *)
Definition positiveSignals (video : VideoCandidate) : Density :=
  let descLower := toLowerCase (description video) in
  let titleLower := toLowerCase (vc_title video) in
  let d := {| score := 0; flags := [] |} in
  let d := bump (existsb (fun signal => includes descLower signal)
                   QUALITY_SIGNALS.github)
             WEIGHTS.GITHUB_BOOST Flag.github d in
  let d := bump (existsb (fun signal => includes descLower signal)
                   QUALITY_SIGNALS.colab)
             WEIGHTS.GITHUB_BOOST Flag.notebook d in
  let d := bump (existsb (fun keyword => includes descLower keyword
                                         || includes titleLower keyword)
                   QUALITY_SIGNALS.documentation)
             WEIGHTS.DOCUMENTATION_BOOST Flag.documentation d in
  let d := bump (existsb (fun keyword => includes descLower keyword
                                         || includes titleLower keyword)
                   QUALITY_SIGNALS.academic)
             WEIGHTS.ACADEMIC_BOOST Flag.academic d in
  let d := bump (existsb (fun keyword => includes descLower keyword)
                   QUALITY_SIGNALS.technical)
             15 Flag.technical d in
  if seconds (vc_duration video) >? 900 then
    bump true WEIGHTS.LONG_VIDEO_BOOST Flag.deep_dive d
  else if seconds (vc_duration video) >? 600 then
    bump true WEIGHTS.MEDIUM_VIDEO_BOOST Flag.detailed d
  else d.

(** The condition of the clickbait loop: some signal occurs in the
    lower-cased description or title. *)
Definition hasClickbait (video : VideoCandidate) : bool :=
  existsb (fun signal => includes (toLowerCase (description video)) signal
                         || includes (toLowerCase (vc_title video)) signal)
    CLICKBAIT_SIGNALS.

Definition highViewsLowInfo (video : VideoCandidate) : bool :=
  (views video >? WEIGHTS.HIGH_VIEW_PENALTY_THRESHOLD)
  && (jslength (description video) <? 100).

(** [capsRatio > 0.5 && video.title.length > 10]: the quotient of the two
    counts exceeds one half exactly when twice the capitals exceed the
    length (an empty title gives NaN, which is not above 0.5). *)
Definition aggressiveTitle (video : VideoCandidate) : bool :=
  (2 * countUpperAZ (vc_title video) >? jslength (vc_title video))
  && (jslength (vc_title video) >? 10).

(** The negative signals, applied to the running pair. *)
Definition negativeSignals (video : VideoCandidate) (d : Density) : Density :=
  let d := bump (hasClickbait video) WEIGHTS.CLICKBAIT_PENALTY Flag.clickbait d in
  let d := bump (highViewsLowInfo video) WEIGHTS.EMPTY_DESC_PENALTY
             Flag.high_views d in
  bump (aggressiveTitle video) (-20) Flag.aggressive d.

Definition calculateDensityScore (video : VideoCandidate) : Density :=
  negativeSignals video (positiveSignals video).

(** [{ ...v, densityScore: score, densityFlags: flags }] *)
Definition withDensity (v : VideoCandidate) (d : Density) : VideoCandidate :=
  {| vc_videoId := vc_videoId v; vc_title := vc_title v;
     description := description v; vc_duration := vc_duration v;
     views := views v; author := author v;
     densityScore := Some (score d); densityFlags := Some (flags d);
     tags := tags v; category := category v;
     officialTopics := officialTopics v; channelId := channelId v;
     likeCount := likeCount v; commentCount := commentCount v;
     transcriptSnippet := transcriptSnippet v |}.

(** [x || 0] on an optional number. *)
Definition numOr0 (x : option Z) : Z :=
  match x with Some z => z | None => 0 end.

(** [Array.prototype.sort] is stable: with the comparator [cmp], an
    element stays before the elements it does not compare greater than.
    [sortBy] inserts from the right, each element before the first one it
    must precede or tie with. *)
Fixpoint insertBy {A} (cmp : A -> A -> Z) (x : A) (l : list A) : list A :=
  match l with
  | [] => [x]
  | y :: l' => if cmp x y <=? 0 then x :: l else y :: insertBy cmp x l'
  end.

(** [x] may stand before [y] in a list sorted with [cmp]. *)
Definition precedes {A} (cmp : A -> A -> Z) (x y : A) : Prop := cmp x y <= 0.

Definition sortBy {A} (cmp : A -> A -> Z) (l : list A) : list A :=
  foldr (insertBy cmp) [] l.

Definition byDensityDesc (a b : VideoCandidate) : Z :=
  numOr0 (densityScore b) - numOr0 (densityScore a).

Definition rankByDensity (videos : list VideoCandidate) : list VideoCandidate :=
  sortBy byDensityDesc
    (List.map (fun v => withDensity v (calculateDensityScore v)) videos).

(** One video as [rankByDensity] rewrites it. *)
Definition scored (v : VideoCandidate) : VideoCandidate :=
  withDensity v (calculateDensityScore v).

(** The penalties that can follow the clickbait check. *)
Definition laterPenalties (video : VideoCandidate) : Density :=
  bump (aggressiveTitle video) (-20) Flag.aggressive
    (bump (highViewsLowInfo video) WEIGHTS.EMPTY_DESC_PENALTY
       Flag.high_views {| score := 0; flags := [] |}).

(** [filterByDuration(videos, minSeconds)] *)
Definition filterByDuration (videos : list VideoCandidate) (minSeconds : Z)
  : list VideoCandidate :=
  List.filter (fun v => seconds (vc_duration v) >=? minSeconds) videos.

End Scorer.


(** ** JavaScript numbers

    The doubles that the engine computes with are never negative: counts,
    their quotient, its product with 100 and the rounding of that.  [jsnum]
    is the non-negative part of IEEE-754 binary64 with NaN and +Infinity; a
    finite value is held as the rational it denotes. *)

Inductive jsnum :=
  | JNaN
  | JInf
  | JFin (q : Q).

(** [floor (log2 q)] for a positive rational. *)
Definition ilog2 (q : Q) : Z :=
  let k := Z.log2 (Qnum q) - Z.log2 (Zpos (Qden q)) in
  if Qle_bool (2 ^ k) q then k else k - 1.

(** The exponent of the last place of the double next to [q]: 53 bits of
    significand, and no exponent under -1074 (subnormal numbers). *)
Definition cexp (q : Q) : Z := Z.max (ilog2 q - 52) (-1074).

(** Rounding to the nearest integer, ties to even. *)
Definition roundHalfEven (q : Q) : Z :=
  let f := Qfloor q in
  match (q - inject_Z f ?= 1 # 2)%Q with
  | Lt => f
  | Gt => f + 1
  | Eq => if Z.even f then f else f + 1
  end.

(** The multiple of [2 ^ cexp q] nearest to [q], ties to even. *)
Definition round53 (q : Q) : Q :=
  (inject_Z (roundHalfEven (q / 2 ^ cexp q)) * 2 ^ cexp q)%Q.

(** The double that an exact non-negative result [q] is rounded to. *)
Definition fl (q : Q) : jsnum :=
  if Qle_bool q 0 then JFin 0
  else
    let r := round53 q in
    if Qle_bool (2 ^ 1024) r then JInf else JFin (Qred r).

(** An array length as a number (lengths are below 2^32, hence exact). *)
Definition js_of_nat (n : nat) : jsnum := JFin (inject_Z (Z.of_nat n)).

Definition isZero (q : Q) : bool := Qeq_bool q 0.

(** [a / b] *)
Definition js_div (a b : jsnum) : jsnum :=
  match a, b with
  | JNaN, _ | _, JNaN => JNaN
  | JInf, JInf => JNaN
  | JInf, JFin _ => JInf
  | JFin _, JInf => JFin 0
  | JFin x, JFin y =>
    if isZero y then (if isZero x then JNaN else JInf) else fl (x / y)
  end.

(** [a * b] *)
Definition js_mul (a b : jsnum) : jsnum :=
  match a, b with
  | JNaN, _ | _, JNaN => JNaN
  | JInf, JInf => JInf
  | JInf, JFin y => if isZero y then JNaN else JInf
  | JFin x, JInf => if isZero x then JNaN else JInf
  | JFin x, JFin y => fl (x * y)
  end.

(** [Math.round(a)]: the nearest integer, ties upwards. *)
Definition Math_round (a : jsnum) : jsnum :=
  match a with
  | JFin q => JFin (inject_Z (Qfloor (q + (1 # 2))))
  | _ => a
  end.

(** [a > b], [a >= b] and [a < b]; each is false when an operand is NaN. *)
Definition js_gt (a b : jsnum) : bool :=
  match a, b with
  | JNaN, _ | _, JNaN => false
  | JInf, JInf => false
  | JInf, JFin _ => true
  | JFin _, JInf => false
  | JFin x, JFin y => negb (Qle_bool x y)
  end.

Definition js_ge (a b : jsnum) : bool :=
  match a, b with
  | JNaN, _ | _, JNaN => false
  | JInf, _ => true
  | JFin _, JInf => false
  | JFin x, JFin y => Qle_bool y x
  end.

Definition js_lt (a b : jsnum) : bool := js_gt b a.

(** [Math.round((matched / total) * 100)] on two lengths. *)
Definition coveragePercent (matched total : nat) : jsnum :=
  Math_round (js_mul (js_div (js_of_nat matched) (js_of_nat total)) (JFin 100)).

(** *** The same numbers in the Standard Library's model of binary64

    [SFdiv] and [SFmul] of Stdlib.Floats.SpecFloat are IEEE-754 division
    and multiplication (53 bits of precision, exponents below 1024); a
    finite [spec_float] denotes [m * 2 ^ e]. *)

Definition jsnum_of_SF (f : spec_float) : jsnum :=
  match f with
  | S754_zero _ => JFin 0
  | S754_infinity _ => JInf
  | S754_nan => JNaN
  | S754_finite _ m e => JFin (Qred (inject_Z (Zpos m) * 2 ^ e))
  end.

Definition SF_of_nat (n : nat) : spec_float :=
  binary_normalize 53 1024 (Z.of_nat n) 0 false.

Definition jsnum_eqb (a b : jsnum) : bool :=
  match a, b with
  | JNaN, JNaN => true
  | JInf, JInf => true
  | JFin x, JFin y => Qeq_bool x y
  | _, _ => false
  end.

(** For all [total <= bound] and [matched <= total], the quotient and its
    product with 100 computed by [fl] are those of [SFdiv] and [SFmul]. *)
Definition agreesWithBinary64 (bound : nat) : bool :=
  forallb (fun total =>
    forallb (fun matched =>
      let q := js_div (js_of_nat matched) (js_of_nat total) in
      let q' := SFdiv 53 1024 (SF_of_nat matched) (SF_of_nat total) in
      jsnum_eqb q (jsnum_of_SF q')
      && jsnum_eqb (js_mul q (JFin 100))
           (jsnum_of_SF (SFmul 53 1024 q' (SF_of_nat 100))))
      (seq 0 (S total)))
    (seq 0 (S bound)).

(** ** The external boundary (types/yt-search.d.ts) *)

Record RawAuthor := { ra_name : option jsstring; ra_url : option jsstring }.

Record VideoResult := {
  vr_videoId : jsstring;
  vr_title : jsstring;
  vr_description : option jsstring;
  vr_url : jsstring;
  vr_duration : option Duration;
  vr_views : option Z;
  vr_author : option RawAuthor;
}.

Record PlaylistResult := {
  listId : jsstring;
  pl_title : jsstring;
  pl_url : jsstring;
  pl_author : option RawAuthor;
  pl_videoCount : option Z;
}.

(** The result of a text search; the source guards both fields with
    [|| []]. *)
Record SearchResult := {
  sr_videos : option (list VideoResult);
  sr_playlists : option (list PlaylistResult);
}.

(** What an awaited call does: it throws (the promise rejects) or it
    returns. *)
Inductive Reply (A : Type) :=
  | Throws
  | Returns (a : A).
Arguments Throws {A}.
Arguments Returns {A} a.

(** ** core/geminiReranker.ts *)

(** The candidates of a [RerankerInput] are the text that
    [prepareForLLMRerank] prints for the first five ranked videos; the
    record keeps these videos, of which the text is a function. *)
Record RerankerInput := {
  ri_candidates : list VideoCandidate;
  ri_userRole : jsstring;
  ri_topic : jsstring;
  ri_experienceLevel : jsstring;
}.

Record RerankerResult := {
  winnerId : option jsstring;
  reasoning : option jsstring;
  fallbackUsed : bool;
}.

(** The object parsed from the model's answer. *)
Record WinnerData := {
  wd_winnerId : option jsstring;
  wd_reasoning : option jsstring;
}.

(** ** engine/anchorHunter.ts and engine/gapFiller.ts: types *)

Record AnchorPlaylist := {
  playlistId : jsstring;
  playlistTitle : jsstring;
  ap_channelName : jsstring;
  videoCount : nat;
  videos : list AnchorVideo;
  coverageScore : jsnum;
  matchedTopics : list jsstring;
  unmatchedTopics : list jsstring;
}.

Record AnchorHuntResult := {
  found : bool;
  anchor : option AnchorPlaylist;
  fallbackChannels : option (list jsstring);
  searchesPerformed : nat;
}.

Record PlaylistVideoItem := {
  pv_videoId : jsstring;
  pv_title : jsstring;
  pv_duration : option Duration;
}.

Record CoverageScore := {
  cs_coverageScore : jsnum;
  cs_matchedTopics : list jsstring;
  cs_unmatchedTopics : list jsstring;
}.

Record GapFillResult := {
  entries : list PlaylistEntry;
  gapsFound : nat;
  gapsFilled : nat;
  gapsFailed : list jsstring;
}.

Record TopicMapping := {
  tm_topic : jsstring;
  tm_position : nat;
  anchorVideo : option AnchorVideo;
  isGap : bool;
  matchScore : option Q;
}.

(** One result of [fuse.search]: the matched item and, with
    [includeScore], its score (lower is better). *)
Record FuseResult (A : Type) := { item : A; fuseScore : option Q }.
Arguments item {A} _.
Arguments fuseScore {A} _.

(** The external calls of a build, in the order they are made. *)
Inductive Call :=
  | CSearch (query : jsstring)
  | CPlaylist (listId : jsstring)
  | CGemini (input : RerankerInput).

(** The text searches among some calls. *)
Definition searchQueries (calls : list Call) : list jsstring :=
  omap (fun c => match c with CSearch q => Some q | _ => None end) calls.

(** ** Effects

    An asynchronous function is a computation over the log of the external
    calls made so far; it ends by returning or by throwing. *)

Definition M (A : Type) : Type := list Call -> Reply A * list Call.

Definition ret {A} (a : A) : M A := fun log => (Returns a, log).

Definition throw {A} : M A := fun log => (Throws, log).

Definition bind {A B} (m : M A) (k : A -> M B) : M B :=
  fun log =>
    match m log with
    | (Throws, log') => (Throws, log')
    | (Returns a, log') => k a log'
    end.

(** [try { m } catch { h }] *)
Definition tryCatch {A} (m : M A) (h : M A) : M A :=
  fun log =>
    match m log with
    | (Throws, log') => h log'
    | r => r
    end.

Notation "'let*' x ':=' m 'in' k" := (bind m (fun x => k))
  (at level 10, x name, m at level 100, k at level 200).

Definition MATCH_THRESHOLD : Q := 4 # 10.
Definition USE_RERANKER : bool := true.
Definition MIN_COVERAGE_THRESHOLD : Q := 5 # 10.

(** [a < b] on scores. *)
Definition Qltb (a b : Q) : bool := negb (Qle_bool b a).

(** ** The parameters of the engine

    The language's and the libraries' functions, and the world as it
    answers the [n]-th external call of a build. *)
Record World := {
  (** [String.prototype.toLowerCase] and [String.prototype.trim] *)
  js_toLowerCase : jsstring -> jsstring;
  js_trim : jsstring -> jsstring;
  (** [analyzeQuery(q).smartQuery.primary] of core/queryIntelligence.ts, a
      text transform whose value enters the first search query only *)
  analyzeQuery_primary : jsstring -> jsstring;
  (** [new Fuse(items, { threshold: 0.4, distance: 100, includeScore: true,
      keys: [key] }).search(query)], the one configuration both modules use *)
  fuse_search :
    forall A : Type, (A -> jsstring) -> list A -> jsstring -> list (FuseResult A);
  (** [ytSearch(query)] *)
  yt_search : nat -> jsstring -> Reply SearchResult;
  (** [ytSearch({ listId })]; no result object, or one without videos, is
      [None] *)
  yt_playlist : nat -> jsstring -> Reply (option (list VideoResult));
  (** whether [process.env.GEMINI_API_KEY] is set *)
  gemini_api_key : nat -> bool;
  (** [generateContentWithFailover] followed by [safeParseJsonObject];
      [None] is a text that does not parse *)
  gemini_generate : nat -> RerankerInput -> Reply (option WinnerData);
}.

Section Engine.
Variable world : World.
Local Abbreviation toLowerCase := (js_toLowerCase world).
Local Abbreviation trim := (js_trim world).
Local Abbreviation smartQueryPrimary := (analyzeQuery_primary world).
Local Abbreviation fuseSearch := (fuse_search world).
Local Abbreviation ytSearch := (yt_search world).
Local Abbreviation ytSearchList := (yt_playlist world).
Local Abbreviation geminiApiKey := (gemini_api_key world).
Local Abbreviation gemini := (gemini_generate world).

Definition callSearch (query : jsstring) : M SearchResult :=
  fun log => (ytSearch (length log) query, log ++ [CSearch query]).

Definition callPlaylist (id : jsstring) : M (option (list VideoResult)) :=
  fun log => (ytSearchList (length log) id, log ++ [CPlaylist id]).

Definition readApiKey : M bool :=
  fun log => (Returns (geminiApiKey (length log)), log).

Definition callGemini (input : RerankerInput) : M (option WinnerData) :=
  fun log => (gemini (length log) input, log ++ [CGemini input]).

(** *** core/geminiReranker.ts *)

Definition heuristicFallback : RerankerResult :=
  {| winnerId := None; reasoning := None; fallbackUsed := true |}.

Definition vibeCheckRerank (input : RerankerInput) : M RerankerResult :=
  let* key := readApiKey in
  if negb key then ret heuristicFallback
  else
    tryCatch
      (let* data := callGemini input in
       match data with
       | Some {| wd_winnerId := Some (c :: s); wd_reasoning := r |} =>
         if (length (c :: s) =? 11)%nat then
           ret {| winnerId := Some (c :: s);
                  reasoning := Some (strOr r (js "Selected by Gemini Reranker"));
                  fallbackUsed := false |}
         else ret heuristicFallback
       | _ => ret heuristicFallback
       end)
      (ret heuristicFallback).

(** *** engine/gapFiller.ts: the Candidate Resolver *)

(** The conversion of a yt-search result in [pickBestVideo]. *)
Definition toCandidate (v : VideoResult) : VideoCandidate :=
  {| vc_videoId := vr_videoId v;
     vc_title := vr_title v;
     description := strOr (vr_description v) [];
     vc_duration :=
       {| seconds := match vr_duration v with Some d => seconds d | None => 0 end;
          timestamp := strOr (timestamp <$> vr_duration v) (js "0:00") |};
     views := numOr0 (vr_views v);
     author :=
       {| name := strOr (vr_author v ≫= ra_name) (js "Unknown");
          url := vr_author v ≫= ra_url |};
     densityScore := None; densityFlags := None; tags := None;
     category := None; officialTopics := None; channelId := None;
     likeCount := None; commentCount := None; transcriptSnippet := None |}.

(** The candidates within the caller's duration window. *)
Definition durationWindow (candidates : list VideoCandidate)
  (modifiers : SearchModifiers) : list VideoCandidate :=
  List.filter (fun v => seconds (vc_duration v) <=? maxSeconds (duration modifiers))
    (filterByDuration candidates (minSeconds (duration modifiers))).

(** The pool that is ranked: the window, or when it is empty the candidates
    of at least one minute. *)
Definition durationPool (candidates : list VideoCandidate)
  (modifiers : SearchModifiers) : list VideoCandidate :=
  let filtered := durationWindow candidates modifiers in
  if (0 <? length filtered)%nat then filtered
  else filterByDuration candidates 60.

Definition entryOfWinner (winner : VideoCandidate) (topic : jsstring)
  (position : nat) : PlaylistEntry :=
  {| position := position;
     videoId := vc_videoId winner;
     title := vc_title winner;
     channelName := name (author winner);
     durationSeconds := seconds (vc_duration winner);
     durationDisplay := timestamp (vc_duration winner);
     topicMatched := topic;
     source := gap_fill |}.

(** [ranked.find(v => v.videoId === winnerId) || ranked[0]] *)
Definition findWinner (ranked : list VideoCandidate) (winnerId : jsstring)
  (top : VideoCandidate) : VideoCandidate :=
  match List.find (fun v => str_eqb (vc_videoId v) winnerId) ranked with
  | Some v => v
  | None => top
  end.

(** The input that [pickBestVideo] gives the reranker. *)
Definition rerankerInput (ranked : list VideoCandidate) (topic : jsstring)
  (modifiers : SearchModifiers) : RerankerInput :=
  {| ri_candidates := take 5 ranked;
     ri_userRole := js "Student";
     ri_topic := topic;
     ri_experienceLevel := experienceLevel modifiers |}.

Definition pickBestVideo (rawVideos : list VideoResult) (topic : jsstring)
  (modifiers : SearchModifiers) (position : nat) : M (option PlaylistEntry) :=
  let candidates := List.map toCandidate (take 15 rawVideos) in
  let pool := durationPool candidates modifiers in
  if (length pool =? 0)%nat then ret None
  else
    let ranked := rankByDensity toLowerCase pool in
    match ranked with
    | [] => throw
    | top :: _ =>
      let* winnerId :=
        (if USE_RERANKER && (3 <=? length ranked)%nat then
           let* reranked :=
             vibeCheckRerank (rerankerInput ranked topic modifiers) in
           ret (strOr (winnerId reranked) (vc_videoId top))
         else ret (vc_videoId top)) in
      let winner := findWinner ranked winnerId top in
      ret (Some (entryOfWinner winner topic position))
    end.

(** The outcome of the [try] block of [searchForTopic]: it returns null, or
    it returns the promise of [pickBestVideo] on some videos.  That promise
    is returned, not awaited, so it settles outside the [try]. *)
Inductive Searched :=
  | SearchedNull
  | SearchedPick (videos : list VideoResult).

Definition nonEmpty (s : jsstring) : bool :=
  match s with [] => false | _ => true end.

(** The two queries of [searchForTopic]. *)
Definition firstQuery (topic subject : jsstring) (modifiers : SearchModifiers)
  : jsstring :=
  let contextualTopic := subject ++ js " " ++ topic in
  join (js " ")
    (List.filter nonEmpty
       [smartQueryPrimary contextualTopic; languageSuffix modifiers]).

Definition fallbackQuery (topic : jsstring) (modifiers : SearchModifiers)
  : jsstring :=
  trim (topic ++ js " " ++ languageSuffix modifiers).

Definition searchForTopic (topic subject : jsstring)
  (modifiers : SearchModifiers) (position : nat) : M (option PlaylistEntry) :=
  let* r :=
    tryCatch
      (let searchQuery := firstQuery topic subject modifiers in
       let* result := callSearch searchQuery in
       let videos := default [] (sr_videos result) in
       if (length videos =? 0)%nat then
         let* fallbackResult :=
           callSearch (fallbackQuery topic modifiers) in
         match sr_videos fallbackResult with
         | None | Some [] => ret SearchedNull
         | Some fallbackVideos => ret (SearchedPick fallbackVideos)
         end
       else ret (SearchedPick videos))
      (ret SearchedNull) in
  match r with
  | SearchedNull => ret None
  | SearchedPick videos => pickBestVideo videos topic modifiers position
  end.

(** *** engine/gapFiller.ts: the Gap Filler and the Scratch Builder *)

(** The best result of a search is a match when it has a score below the
    threshold. *)
Definition bestMatch {A} (results : list (FuseResult A)) : option (A * Q) :=
  match results with
  | r :: _ =>
    match fuseScore r with
    | Some s => if Qltb s MATCH_THRESHOLD then Some (item r, s) else None
    | None => None
    end
  | [] => None
  end.

(** The mapping of one topic: the callback of [tableOfContents.map]. *)
Definition mapTopic (fuseItems : list (jsstring * AnchorVideo))
  (position : nat) (topic : jsstring) : TopicMapping :=
  match bestMatch (fuseSearch _ fst fuseItems topic) with
  | Some (it, s) =>
    {| tm_topic := topic; tm_position := position;
       anchorVideo := Some (snd it); isGap := false; matchScore := Some s |}
  | None =>
    {| tm_topic := topic; tm_position := position;
       anchorVideo := None; isGap := true; matchScore := None |}
  end.

Definition mapTopicsToAnchor (tableOfContents : list jsstring)
  (anchorVideos : list AnchorVideo) : list TopicMapping :=
  let fuseItems := List.map (fun v => (av_title v, v)) anchorVideos in
  imap (mapTopic fuseItems) tableOfContents.

(** The loop of [fillGaps] over the gaps, on the list of failed topics and
    the map of the entries found. *)
Fixpoint fillLoop (gaps : list TopicMapping) (subject : jsstring)
  (modifiers : SearchModifiers) (gapsFailed : list jsstring)
  (gapEntries : gmap nat PlaylistEntry)
  : M (list jsstring * gmap nat PlaylistEntry) :=
  match gaps with
  | [] => ret (gapsFailed, gapEntries)
  | gap :: rest =>
    let* entry :=
      searchForTopic (tm_topic gap) subject modifiers (tm_position gap) in
    match entry with
    | Some e =>
      fillLoop rest subject modifiers gapsFailed
        (<[tm_position gap := e]> gapEntries)
    | None =>
      fillLoop rest subject modifiers (gapsFailed ++ [tm_topic gap]) gapEntries
    end
  end.

Definition anchorEntry (mapping : TopicMapping) (v : AnchorVideo)
  (anchor : AnchorPlaylist) : PlaylistEntry :=
  {| position := tm_position mapping;
     videoId := av_videoId v;
     title := av_title v;
     channelName := ap_channelName anchor;
     durationSeconds := av_durationSeconds v;
     durationDisplay := av_durationDisplay v;
     topicMatched := tm_topic mapping;
     source := anchor_playlist |}.

(** What the loop of [resequence] pushes for one mapping, if anything. *)
Definition pushed (anchor : AnchorPlaylist)
  (gapEntries : gmap nat PlaylistEntry) (mapping : TopicMapping)
  : option PlaylistEntry :=
  match isGap mapping, anchorVideo mapping with
  | false, Some v => Some (anchorEntry mapping v anchor)
  | _, _ => gapEntries !! tm_position mapping
  end.

(** [e.position = i] *)
Definition setPosition (i : nat) (e : PlaylistEntry) : PlaylistEntry :=
  {| position := i; videoId := videoId e; title := title e;
     channelName := channelName e; durationSeconds := durationSeconds e;
     durationDisplay := durationDisplay e; topicMatched := topicMatched e;
     source := source e |}.

Definition byPosition (a b : PlaylistEntry) : Z :=
  Z.of_nat (position a) - Z.of_nat (position b).

Definition resequence (mappings : list TopicMapping) (anchor : AnchorPlaylist)
  (gapEntries : gmap nat PlaylistEntry) : list PlaylistEntry :=
  let entries := omap (pushed anchor gapEntries) mappings in
  let entries := sortBy byPosition entries in
  imap setPosition entries.

Definition fillGaps (anchor : AnchorPlaylist) (tableOfContents : list jsstring)
  (subject : jsstring) (modifiers : SearchModifiers) : M GapFillResult :=
  let mappings := mapTopicsToAnchor tableOfContents (videos anchor) in
  let gaps := List.filter isGap mappings in
  let* filled := fillLoop gaps subject modifiers [] ∅ in
  let gapsFailed := fst filled in
  let gapEntries := snd filled in
  let entries := resequence mappings anchor gapEntries in
  ret {| entries := entries;
         gapsFound := length gaps;
         gapsFilled := size gapEntries;
         gapsFailed := gapsFailed |}.

(** The loop of [buildFromScratch], from index [i] on. *)
Fixpoint scratchLoop (topics : list jsstring) (i : nat) (subject : jsstring)
  (modifiers : SearchModifiers) (entries : list PlaylistEntry)
  (gapsFailed : list jsstring) : M (list PlaylistEntry * list jsstring) :=
  match topics with
  | [] => ret (entries, gapsFailed)
  | topic :: rest =>
    let* entry := searchForTopic topic subject modifiers i in
    match entry with
    | Some e =>
      scratchLoop rest (S i) subject modifiers (entries ++ [e]) gapsFailed
    | None =>
      scratchLoop rest (S i) subject modifiers entries (gapsFailed ++ [topic])
    end
  end.

Definition buildFromScratch (tableOfContents : list jsstring)
  (subject : jsstring) (modifiers : SearchModifiers) : M GapFillResult :=
  let* built := scratchLoop tableOfContents 0 subject modifiers [] [] in
  let entries := fst built in
  let gapsFailed := snd built in
  ret {| entries := entries;
         gapsFound := length tableOfContents;
         gapsFilled := length entries;
         gapsFailed := gapsFailed |}.

(** *** engine/anchorHunter.ts *)

(** A topic is matched by a list of titles when its best result has a
    score below 0.4. *)
Definition topicMatched_by (titles : list jsstring) (topic : jsstring) : bool :=
  match fuseSearch jsstring id titles topic with
  | r :: _ =>
    match fuseScore r with
    | Some s => Qltb s (4 # 10)
    | None => false
    end
  | [] => false
  end.

Definition scorePlaylistCoverage (playlistVideos : list PlaylistVideoItem)
  (tableOfContents : list jsstring) : CoverageScore :=
  let fuseItems := List.map pv_title playlistVideos in
  let matched := List.filter (topicMatched_by fuseItems) tableOfContents in
  let unmatched :=
    List.filter (fun t => negb (topicMatched_by fuseItems t)) tableOfContents in
  {| cs_coverageScore :=
       coveragePercent (length matched) (length tableOfContents);
     cs_matchedTopics := matched;
     cs_unmatchedTopics := unmatched |}.

Definition getPlaylistVideos (id : jsstring) : M (list PlaylistVideoItem) :=
  tryCatch
    (let* result := callPlaylist id in
     match result with
     | None => ret []
     | Some vs =>
       ret (List.map (fun v => {| pv_videoId := vr_videoId v;
                                  pv_title := vr_title v;
                                  pv_duration := vr_duration v |}) vs)
     end)
    (ret []).

(** [channels.add(name)] on a [Set], which keeps insertion order. *)
Definition setAdd (channels : list jsstring) (x : jsstring) : list jsstring :=
  if bool_decide (x ∈ channels) then channels else channels ++ [x].

(** The truthy [author?.name] of a result. *)
Definition authorName (a : option RawAuthor) : option jsstring :=
  match a ≫= ra_name with
  | Some (c :: s) => Some (c :: s)
  | _ => None
  end.

Definition findPromisingChannels (subject languageSuffix : jsstring)
  : M (list jsstring) :=
  tryCatch
    (let query := trim (subject ++ js " tutorial " ++ languageSuffix) in
     let* result := callSearch query in
     let channels :=
       foldl (fun channels video =>
                match authorName (vr_author video) with
                | Some n => setAdd channels n
                | None => channels
                end)
         [] (take 10 (default [] (sr_videos result))) in
     ret (take 5 channels))
    (ret []).

(** The anchor built from a playlist that was scored. *)
Definition anchorOf (playlist : PlaylistResult)
  (playlistVideos : list PlaylistVideoItem) (scored : CoverageScore)
  : AnchorPlaylist :=
  {| playlistId := listId playlist;
     playlistTitle := pl_title playlist;
     ap_channelName := strOr (pl_author playlist ≫= ra_name) (js "Unknown");
     videoCount := length playlistVideos;
     videos :=
       imap (fun i v =>
               {| av_videoId := pv_videoId v;
                  av_title := pv_title v;
                  av_durationSeconds :=
                    match pv_duration v with Some d => seconds d | None => 0 end;
                  av_durationDisplay :=
                    strOr (timestamp <$> pv_duration v) (js "0:00");
                  av_position := i |})
         playlistVideos;
     coverageScore := cs_coverageScore scored;
     matchedTopics := cs_matchedTopics scored;
     unmatchedTopics := cs_unmatchedTopics scored |}.

(** The state of the scoring loop of [huntForAnchor]. *)
Record Hunt := {
  bestAnchor : option AnchorPlaylist;
  bestScore : jsnum;
  searches : nat;
}.

Fixpoint huntLoop (playlists : list PlaylistResult)
  (tableOfContents : list jsstring) (h : Hunt) : M Hunt :=
  match playlists with
  | [] => ret h
  | playlist :: rest =>
    let* playlistVideos := getPlaylistVideos (listId playlist) in
    let h := {| bestAnchor := bestAnchor h; bestScore := bestScore h;
                searches := S (searches h) |} in
    if (length playlistVideos <? 3)%nat then huntLoop rest tableOfContents h
    else
      let scored := scorePlaylistCoverage playlistVideos tableOfContents in
      let h :=
        if js_gt (cs_coverageScore scored) (bestScore h) then
          {| bestAnchor := Some (anchorOf playlist playlistVideos scored);
             bestScore := cs_coverageScore scored;
             searches := searches h |}
        else h in
      if js_ge (bestScore h) (JFin 80) then ret h
      else huntLoop rest tableOfContents h
  end.

(** [MIN_COVERAGE_THRESHOLD * 100] *)
Definition minCoverage : jsnum :=
  js_mul (JFin MIN_COVERAGE_THRESHOLD) (JFin 100).

(** The body of the [try] block.  Of its statements only the first search
    can throw: [getPlaylistVideos] and [findPromisingChannels] catch their
    own errors; so the handler runs with [searchesPerformed] at 0. *)
Definition huntForAnchor (subject : jsstring) (tableOfContents : list jsstring)
  (languageSuffix : jsstring) : M AnchorHuntResult :=
  tryCatch
    (let playlistQuery :=
       trim (subject ++ js " full course playlist " ++ languageSuffix) in
     let* searchResult := callSearch playlistQuery in
     let playlists := default [] (sr_playlists searchResult) in
     if (length playlists =? 0)%nat then
       let* fallbackChannels := findPromisingChannels subject languageSuffix in
       ret {| found := false; anchor := None;
              fallbackChannels := Some fallbackChannels;
              searchesPerformed := 2 |}
     else
       let* h :=
         huntLoop (take 5 playlists) tableOfContents
           {| bestAnchor := None; bestScore := JFin 0; searches := 1 |} in
       match bestAnchor h with
       | Some a =>
         if js_ge (bestScore h) minCoverage then
           ret {| found := true; anchor := Some a; fallbackChannels := None;
                  searchesPerformed := searches h |}
         else
           ret {| found := false; anchor := None;
                  fallbackChannels :=
                    Some (omap (fun p => authorName (pl_author p))
                            (take 3 playlists));
                  searchesPerformed := searches h |}
       | None =>
         ret {| found := false; anchor := None;
                fallbackChannels :=
                  Some (omap (fun p => authorName (pl_author p))
                          (take 3 playlists));
                searchesPerformed := searches h |}
       end)
    (ret {| found := false; anchor := None; fallbackChannels := None;
            searchesPerformed := 0 |}).

(** [huntLoop] as a record of what it looked at: the anchors of the
    playlists that were scored, in order, up to and including the first one
    that reaches 80. *)
Fixpoint evaluated (playlists : list PlaylistResult)
  (tableOfContents : list jsstring) : M (list AnchorPlaylist) :=
  match playlists with
  | [] => ret []
  | playlist :: rest =>
    let* playlistVideos := getPlaylistVideos (listId playlist) in
    if (length playlistVideos <? 3)%nat then evaluated rest tableOfContents
    else
      let scored := scorePlaylistCoverage playlistVideos tableOfContents in
      let a := anchorOf playlist playlistVideos scored in
      if js_ge (cs_coverageScore scored) (JFin 80) then ret [a]
      else
        let* others := evaluated rest tableOfContents in
        ret (a :: others)
  end.

End Engine.

(** ** Worlds and inputs on which the engine is run *)

Definition videoResult (id ttl : string) (secs : Z) : VideoResult :=
  {| vr_videoId := js id;
     vr_title := js ttl;
     vr_description := None;
     vr_url := js "https://youtube.com/watch";
     vr_duration := Some {| seconds := secs; timestamp := js "11:40" |};
     vr_views := Some 1000;
     vr_author := Some {| ra_name := Some (js "Channel"); ra_url := None |} |}.

(** [resolvePreferences] of the default preferences. *)
Definition fromScratchModifiers : SearchModifiers :=
  {| languageSuffix := [];
     experienceLevel := js "intermediate";
     duration := {| minSeconds := 600; maxSeconds := 2700;
                    targetPerTopic := js "15-45 min" |};
     modeLabel := js "🧱 From Scratch (First Principles)";
     modeKeywords := js "explained fundamentals concepts from basics" |}.

(** A matcher that knows exact titles only: the items whose key is the
    query, each with score 0. *)
Definition exactTitleSearch (A : Type) (key : A -> jsstring) (items : list A)
  (query : jsstring) : list (FuseResult A) :=
  List.map (fun it => {| item := it; fuseScore := Some 0%Q |})
    (List.filter (fun it => str_eqb (key it) query) items).

(** A catalog with one video, on arrays, and no playlist; no Gemini key. *)
Definition sparseCatalog : World :=
  {| js_toLowerCase := asciiLower;
     js_trim := asciiTrim;
     analyzeQuery_primary := asciiTrim;
     fuse_search := exactTitleSearch;
     yt_search := fun _ query =>
       Returns {| sr_videos :=
                    if includes query (js "Arrays")
                    then Some [videoResult "arrays00001" "Arrays explained" 700]
                    else Some [];
                  sr_playlists := None |};
     yt_playlist := fun _ _ => Returns None;
     gemini_api_key := fun _ => false;
     gemini_generate := fun _ _ => Throws |}.

Definition sparseTopics : list jsstring := [js "Ghost Topic"; js "Arrays"].

(** An anchor none of whose titles is a topic of [sparseTopics]. *)
Definition unrelatedAnchor : AnchorPlaylist :=
  {| playlistId := js "PL0000000001";
     playlistTitle := js "Cooking basics";
     ap_channelName := js "Kitchen";
     videoCount := 1;
     videos := [{| av_videoId := js "cook0000001"; av_title := js "Boiling water";
                   av_durationSeconds := 700; av_durationDisplay := js "11:40";
                   av_position := 0 |}];
     coverageScore := JFin 0;
     matchedTopics := [];
     unmatchedTopics := sparseTopics |}.

(** Six videos of equal density: none has a keyword, all last 700 seconds. *)
Definition firstVideo : VideoResult :=
  videoResult "vid00000001" "Arrays part 1" 700.

Definition otherVideos : list VideoResult :=
  [videoResult "vid00000002" "Arrays part 2" 700;
   videoResult "vid00000003" "Arrays part 3" 700;
   videoResult "vid00000004" "Arrays part 4" 700;
   videoResult "vid00000005" "Arrays part 5" 700;
   videoResult "vid00000006" "Arrays part 6" 700].

Definition sixVideos : list VideoResult := firstVideo :: otherVideos.

(** A catalog of these six videos with a reranker that answers [winner]. *)
Definition rerankCatalog (winner : string) : World :=
  {| js_toLowerCase := asciiLower;
     js_trim := asciiTrim;
     analyzeQuery_primary := asciiTrim;
     fuse_search := exactTitleSearch;
     yt_search := fun _ _ =>
       Returns {| sr_videos := Some sixVideos; sr_playlists := None |};
     yt_playlist := fun _ _ => Returns None;
     gemini_api_key := fun _ => true;
     gemini_generate := fun _ _ =>
       Returns (Some {| wd_winnerId := Some (js winner);
                        wd_reasoning := None |}) |}.

Definition sixTop : VideoCandidate := scored asciiLower (toCandidate firstVideo).

Definition sixRest : list VideoCandidate :=
  List.map (fun v => scored asciiLower (toCandidate v)) otherVideos.

Definition candidate (id ttl desc : string) (secs viewCount : Z)
  : VideoCandidate :=
  {| vc_videoId := js id; vc_title := js ttl; description := js desc;
     vc_duration := {| seconds := secs; timestamp := js "0:00" |};
     views := viewCount;
     author := {| name := js "Channel"; url := None |};
     densityScore := None; densityFlags := None; tags := None;
     category := None; officialTopics := None; channelId := None;
     likeCount := None; commentCount := None; transcriptSnippet := None |}.

(** A clickbait title on a long video with a repository, documentation and
    a paper: 50 + 25 + 20 + 30 - 100. *)
Definition clickbaitKept : VideoCandidate :=
  candidate "click000001" "Insane algorithm paper"
    "code at github.com/x, see the docs" 1000 10.

(** A clickbait title with nothing else: -100. *)
Definition clickbaitOnly : VideoCandidate :=
  candidate "click000002" "You won't believe this" "wow" 100 10.

(** What the scoring loop of [huntForAnchor] maintains, over the anchors
    [seen] that it has scored: the best score is a number that none of them
    exceeds, and the best anchor, when there is one, is one of them and has
    that score; with no best anchor the best score is still 0. *)
Definition huntInv (h : Hunt) (seen : list AnchorPlaylist) : Prop :=
  bestScore h <> JNaN
  /\ (forall b, In b seen -> js_gt (coverageScore b) (bestScore h) = false)
  /\ match bestAnchor h with
     | Some a => In a seen /\ coverageScore a = bestScore h
     | None => bestScore h = JFin 0
     end.

(** A catalog with two playlists: a course of three videos and a playlist
    of one video, too short to be scored. *)
Definition coursePlaylist : PlaylistResult :=
  {| listId := js "PLcourse0001";
     pl_title := js "Data Structures full course";
     pl_url := js "https://youtube.com/playlist";
     pl_author := Some {| ra_name := Some (js "Prof. Ada"); ra_url := None |};
     pl_videoCount := Some 3 |}.

Definition shortPlaylist : PlaylistResult :=
  {| listId := js "PLshort00001";
     pl_title := js "One video";
     pl_url := js "https://youtube.com/playlist";
     pl_author := None;
     pl_videoCount := Some 1 |}.

Definition courseVideos : list VideoResult :=
  [videoResult "course00001" "Arrays" 900;
   videoResult "course00002" "Linked Lists" 900;
   videoResult "course00003" "Trees" 900].

Definition playlistCatalog : World :=
  {| js_toLowerCase := asciiLower;
     js_trim := asciiTrim;
     analyzeQuery_primary := asciiTrim;
     fuse_search := exactTitleSearch;
     yt_search := fun _ _ =>
       Returns {| sr_videos := Some [];
                  sr_playlists := Some [coursePlaylist; shortPlaylist] |};
     yt_playlist := fun _ id =>
       if str_eqb id (js "PLcourse0001") then Returns (Some courseVideos)
       else Returns (Some [videoResult "short000001" "Hello" 60]);
     gemini_api_key := fun _ => false;
     gemini_generate := fun _ _ => Throws |}.

(** Two of these four topics are titles of the course: coverage 50. *)
Definition halfCovered : list jsstring :=
  [js "Arrays"; js "Linked Lists"; js "Stacks"; js "Queues"].

(** Two of these five topics are titles of the course: coverage 40. *)
Definition lessCovered : list jsstring :=
  [js "Arrays"; js "Linked Lists"; js "Stacks"; js "Queues"; js "Heaps"].

Definition courseItems : list PlaylistVideoItem :=
  List.map (fun v => {| pv_videoId := vr_videoId v; pv_title := vr_title v;
                        pv_duration := vr_duration v |}) courseVideos.

(** ** The coverage percentage in exact arithmetic

    [round(matched / total * 100)] read over the rationals, a tie rounded
    upwards as [Math.round] does; the score of the code is compared with
    it. *)
Definition exactPercent (matched total : nat) : Z :=
  Qfloor (inject_Z (Z.of_nat matched) / inject_Z (Z.of_nat total) * 100
          + (1 # 2)).

(** [n] topics of one letter each, and a playlist whose titles are the
    first [n] of them. *)
Definition letterTopics (n : nat) : list jsstring :=
  List.map (fun i => [N.of_nat (65 + i)]) (seq 0 n).

Definition letterItems (n : nat) : list PlaylistVideoItem :=
  List.map (fun t => {| pv_videoId := js "letter00000" ++ t; pv_title := t;
                        pv_duration := None |})
    (letterTopics n).

(** ** Reading a log and a result *)

(** The elements of [l] at the places where [mask] is true. *)
Fixpoint select {A} (mask : list bool) (l : list A) : list A :=
  match mask, l with
  | b :: mask', x :: l' => if b then x :: select mask' l' else select mask' l'
  | _, _ => []
  end.

(** The reranker requests and the playlist fetches among some calls. *)
Definition geminiCalls (calls : list Call) : list RerankerInput :=
  omap (fun c => match c with CGemini i => Some i | _ => None end) calls.

Definition playlistFetches (calls : list Call) : list jsstring :=
  omap (fun c => match c with CPlaylist i => Some i | _ => None end) calls.

(** What one run of [searchForTopic] costs and returns. *)
Definition topicRun (world : World) (topic : jsstring) (modifiers : SearchModifiers)
  (pos : nat) (r : option PlaylistEntry) (calls : list Call) : Prop :=
  (1 <= length (searchQueries calls) <= 2)%nat
  /\ (length (geminiCalls calls) <= 1)%nat
  /\ playlistFetches calls = []
  /\ ((forall n, gemini_api_key world n = false) -> geminiCalls calls = [])
  /\ (forall e, r = Some e ->
      position e = pos /\ topicMatched e = topic /\ source e = gap_fill
      /\ (minSeconds (duration modifiers) <= durationSeconds e
            <= maxSeconds (duration modifiers)
          \/ 60 <= durationSeconds e)).


(** What [n] runs of [searchForTopic] cost together. *)
Definition loopCost (world : World) (n : nat) (calls : list Call) : Prop :=
  (n <= length (searchQueries calls) <= 2 * n)%nat
  /\ (length (geminiCalls calls) <= n)%nat
  /\ playlistFetches calls = []
  /\ ((forall k, gemini_api_key world k = false) -> geminiCalls calls = []).

(** An entry found by search: it lasts within the duration window, or at
    least 60 seconds. *)
Definition searched (modifiers : SearchModifiers) (e : PlaylistEntry) : Prop :=
  source e = gap_fill
  /\ (minSeconds (duration modifiers) <= durationSeconds e
        <= maxSeconds (duration modifiers)
      \/ 60 <= durationSeconds e).

(** An entry taken from the anchor: its topic has a best match below the
    threshold among the anchor's titles, and the entry is that video. *)
Definition fromAnchor (world : World) (anchor : AnchorPlaylist)
  (e : PlaylistEntry) : Prop :=
  source e = anchor_playlist
  /\ channelName e = ap_channelName anchor
  /\ exists it s,
       bestMatch (fuse_search world _ fst
                    (List.map (fun v => (av_title v, v)) (videos anchor))
                    (topicMatched e)) = Some (it, s)
       /\ videoId e = av_videoId (snd it)
       /\ title e = av_title (snd it)
       /\ durationSeconds e = av_durationSeconds (snd it)
       /\ durationDisplay e = av_durationDisplay (snd it).

(** An entry that filled a gap: its topic has no match in the anchor. *)
Definition fromSearch (world : World) (anchor : AnchorPlaylist)
  (modifiers : SearchModifiers) (e : PlaylistEntry) : Prop :=
  searched modifiers e
  /\ bestMatch (fuse_search world _ fst
                  (List.map (fun v => (av_title v, v)) (videos anchor))
                  (topicMatched e)) = None.

(** An anchor that [huntForAnchor] can build for a table of contents: the
    playlist has at least three videos, numbered from 0, and the topics are
    split by the Matcher into those it matches and the others. *)
Definition anchorFor (world : World) (toc : list jsstring)
  (a : AnchorPlaylist) : Prop :=
  let titles := List.map av_title (videos a) in
  videoCount a = length (videos a)
  /\ (3 <= videoCount a)%nat
  /\ List.map av_position (videos a) = seq 0 (videoCount a)
  /\ matchedTopics a = List.filter (topicMatched_by world titles) toc
  /\ unmatchedTopics a
     = List.filter (fun t => negb (topicMatched_by world titles t)) toc
  /\ coverageScore a = coveragePercent (length (matchedTopics a)) (length toc).

(** An anchor whose two videos are titled as the topics of [sparseTopics]. *)
Definition coveringAnchor : AnchorPlaylist :=
  {| playlistId := js "PL0000000002";
     playlistTitle := js "Data Structures course";
     ap_channelName := js "Lectures";
     videoCount := 2;
     videos := [{| av_videoId := js "ghost000001"; av_title := js "Ghost Topic";
                   av_durationSeconds := 900; av_durationDisplay := js "15:00";
                   av_position := 0 |};
                {| av_videoId := js "arrays00002"; av_title := js "Arrays";
                   av_durationSeconds := 800; av_durationDisplay := js "13:20";
                   av_position := 1 |}];
     coverageScore := JFin 100;
     matchedTopics := sparseTopics;
     unmatchedTopics := [] |}.

(** ** core/types.ts: preferences and the final result *)

Inductive StudentType := high_school | undergrad | post_grad.
Inductive Language := english | hindi.

Module Mode.
Inductive LearningMode := from_scratch | revision | one_shot.
End Mode.
Abbreviation LearningMode := Mode.LearningMode.

Record UserPreferences := {
  studentType : StudentType;
  language : Language;
  learningMode : LearningMode;
}.

(** The strings that the values of the three types are. *)
Definition studentTypeName (s : StudentType) : jsstring :=
  match s with
  | high_school => js "high_school"
  | undergrad => js "undergrad"
  | post_grad => js "post_grad"
  end.

Definition languageName (l : Language) : jsstring :=
  match l with
  | english => js "english"
  | hindi => js "hindi"
  end.

Definition learningModeName (m : LearningMode) : jsstring :=
  match m with
  | Mode.from_scratch => js "from_scratch"
  | Mode.revision => js "revision"
  | Mode.one_shot => js "one_shot"
  end.

(** [Partial<UserPreferences>] as it arrives: a field is missing or holds
    some string, valid or not. *)
Record PartialPreferences := {
  pp_studentType : option jsstring;
  pp_language : option jsstring;
  pp_learningMode : option jsstring;
}.

(** Preferences passed where a [Partial<UserPreferences>] is expected. *)
Definition asPartial (prefs : UserPreferences) : PartialPreferences :=
  {| pp_studentType := Some (studentTypeName (studentType prefs));
     pp_language := Some (languageName (language prefs));
     pp_learningMode := Some (learningModeName (learningMode prefs)) |}.

Record SyllabusModule := { moduleTitle : jsstring; topics : list jsstring }.

Record SyllabusData := {
  sd_title : jsstring;
  sd_description : jsstring;
  fundamentalConcept : option jsstring;
  tableOfContents : list jsstring;
  modules : list SyllabusModule;
}.

Definition DURATION_CONFIGS (mode : LearningMode) : DurationConfig :=
  match mode with
  | Mode.from_scratch =>
    {| minSeconds := 600; maxSeconds := 2700;
       targetPerTopic := js "15-45 min" |}
  | Mode.revision =>
    {| minSeconds := 180; maxSeconds := 900;
       targetPerTopic := js "5-15 min" |}
  | Mode.one_shot =>
    {| minSeconds := 2700; maxSeconds := 10800;
       targetPerTopic := js "45-90 min total" |}
  end.

Definition LANGUAGE_SUFFIXES (l : Language) : jsstring :=
  match l with
  | english => []
  | hindi => js "in Hindi"
  end.

Definition STUDENT_EXPERIENCE_MAP (s : StudentType) : jsstring :=
  match s with
  | high_school => js "beginner"
  | undergrad => js "intermediate"
  | post_grad => js "advanced"
  end.

(** The final output, [PlaylistResult] of core/types.ts. *)
Module Forge.
Record AnchorInfo := {
  channelName : jsstring;
  playlistTitle : jsstring;
  coverageScore : jsnum;
}.
Record PlaylistResult := {
  syllabusTitle : jsstring;
  totalVideos : nat;
  totalDurationMinutes : Z;
  entries : list PlaylistEntry;
  watchUrl : jsstring;
  anchor : option AnchorInfo;
  preferences : UserPreferences;
  generatedAt : jsstring;
}.
End Forge.

(** ** engine/preferences.ts *)

Definition resolvePreferences (prefs : UserPreferences) : SearchModifiers :=
  {| languageSuffix := LANGUAGE_SUFFIXES (language prefs);
     experienceLevel := STUDENT_EXPERIENCE_MAP (studentType prefs);
     duration := DURATION_CONFIGS (learningMode prefs);
     modeLabel :=
       match learningMode prefs with
       | Mode.from_scratch => js "🧱 From Scratch (First Principles)"
       | Mode.revision => js "📝 Revision (Quick Recap)"
       | Mode.one_shot => js "🎯 One-Shot (Exam Mode)"
       end;
     modeKeywords :=
       match learningMode prefs with
       | Mode.from_scratch => js "explained fundamentals concepts from basics"
       | Mode.revision => js "quick revision recap summary"
       | Mode.one_shot =>
         js "one shot full course complete revision in one video"
       end |}.

Definition getDefaultPreferences : UserPreferences :=
  {| studentType := undergrad;
     language := english;
     learningMode := Mode.from_scratch |}.

(** [valid.includes(x) ? x : d]: the value of [valid] that the string [x]
    is, or the default. *)
Definition oneOf {A} (name : A -> jsstring) (valid : list A)
  (x : option jsstring) (d : A) : A :=
  match x with
  | Some s => default d (List.find (fun v => str_eqb (name v) s) valid)
  | None => d
  end.

Definition validatePreferences (prefs : PartialPreferences) : UserPreferences :=
  let validStudentTypes := [high_school; undergrad; post_grad] in
  let validLanguages := [english; hindi] in
  let validModes := [Mode.from_scratch; Mode.revision; Mode.one_shot] in
  {| studentType :=
       oneOf studentTypeName validStudentTypes (pp_studentType prefs) undergrad;
     language :=
       oneOf languageName validLanguages (pp_language prefs) english;
     learningMode :=
       oneOf learningModeName validModes (pp_learningMode prefs)
         Mode.from_scratch |}.

(** ** engine/exportPlaylist.ts and the chunking of core/youtubeClient.ts *)

(** [array.slice(i, j)] for [0 <= i <= j]. *)
Definition slice {A} (i j : nat) (l : list A) : list A :=
  take (j - i) (drop i l).

Definition toWatchURL (videoIds : list jsstring) : jsstring :=
  if (length videoIds =? 0)%nat then []
  else
    let ids := slice 0 50 videoIds in
    js "https://www.youtube.com/watch_videos?video_ids=" ++ join (js ",") ids.

(** The loop [for (let i = 0; i < videoIds.length; i += chunkSize)] of
    [toWatchURLs], from [i] on.  The loop need not end (a [chunkSize] of 0
    never advances): it is run with [fuel], and [None] is a run that needs
    more. *)
Fixpoint watchLoop (fuel : nat) (videoIds : list jsstring)
  (chunkSize i : nat) (urls : list jsstring) : option (list jsstring) :=
  match fuel with
  | O => None
  | S fuel' =>
    if (i <? length videoIds)%nat then
      let chunk := slice i (i + chunkSize) videoIds in
      watchLoop fuel' videoIds chunkSize (i + chunkSize)
        (urls ++ [toWatchURL chunk])
    else Some urls
  end.

Definition toWatchURLs (fuel : nat) (videoIds : list jsstring)
  (chunkSize : nat) : option (list jsstring) :=
  watchLoop fuel videoIds chunkSize 0 [].

(** [chunkArray] of core/youtubeClient.ts, with the same loop. *)
Fixpoint chunkLoop {A} (fuel : nat) (array : list A) (size i : nat)
  (chunked : list (list A)) : option (list (list A)) :=
  match fuel with
  | O => None
  | S fuel' =>
    if (i <? length array)%nat then
      chunkLoop fuel' array size (i + size)
        (chunked ++ [slice i (i + size) array])
    else Some chunked
  end.

Definition chunkArray {A} (fuel : nat) (array : list A) (size : nat)
  : option (list (list A)) :=
  chunkLoop fuel array size 0 [].

(** ** engine/oneShotSearch.ts *)

Definition ONE_SHOT_MIN_DURATION : Z := 2700.
Definition MAX_ONE_SHOT_RESULTS : nat := 5.

Definition formatResults (ranked : list VideoCandidate) (subject : jsstring)
  (maxResults : nat) : list PlaylistEntry :=
  imap (fun i v =>
          {| position := i;
             videoId := vc_videoId v;
             title := vc_title v;
             channelName := name (author v);
             durationSeconds := seconds (vc_duration v);
             durationDisplay := timestamp (vc_duration v);
             topicMatched := subject;
             source := one_shot |})
    (slice 0 maxResults ranked).

(** The body of the inner loop: a video whose id was seen is skipped, any
    other is recorded and pushed. *)
Definition collect (st : list VideoCandidate * gset jsstring)
  (v : VideoResult) : list VideoCandidate * gset jsstring :=
  if bool_decide (vr_videoId v ∈ st.2) then st
  else (st.1 ++ [toCandidate v], {[vr_videoId v]} ∪ st.2).

Section OneShot.
Variable world : World.

Definition buildOneShotQueries (subject : jsstring)
  (modifiers : SearchModifiers) : list jsstring :=
  let lang := languageSuffix modifiers in
  [js_trim world (subject ++ js " one shot full course " ++ lang);
   js_trim world (subject ++ js " complete revision in one video " ++ lang);
   js_trim world (subject ++ js " full course marathon " ++ lang)].

(** The loop over the queries; each query is in a [try] of its own, and a
    search that throws adds nothing. *)
Fixpoint collectLoop (queries : list jsstring)
  (st : list VideoCandidate * gset jsstring)
  : M (list VideoCandidate * gset jsstring) :=
  match queries with
  | [] => ret st
  | query :: rest =>
    let* st' :=
      tryCatch
        (let* result := callSearch world query in
         ret (foldl collect st (slice 0 10 (default [] (sr_videos result)))))
        (ret st) in
    collectLoop rest st'
  end.

Definition searchOneShot (syllabus : SyllabusData)
  (modifiers : SearchModifiers) : M (list PlaylistEntry) :=
  let subject := sd_title syllabus in
  let queries := buildOneShotQueries subject modifiers in
  let* st := collectLoop queries ([], ∅) in
  let allCandidates := fst st in
  let longVideos := filterByDuration allCandidates ONE_SHOT_MIN_DURATION in
  if (length longVideos =? 0)%nat then
    let relaxed := filterByDuration allCandidates 1200 in
    if (length relaxed =? 0)%nat then ret []
    else
      ret (formatResults (rankByDensity (js_toLowerCase world) relaxed)
             subject MAX_ONE_SHOT_RESULTS)
  else
    let ranked := rankByDensity (js_toLowerCase world) longVideos in
    ret (formatResults ranked subject MAX_ONE_SHOT_RESULTS).

End OneShot.

(** ** engine/playlistBuilder.ts *)

Record BuildFromTOCOptions := {
  bo_syllabus : SyllabusData;
  bo_preferences : option PartialPreferences;
  skipAnchorSearch : bool;
  skipReranker : bool;
}.

(** [Math.round(sum / 60)] on a sum of whole seconds below 2^53 in size,
    which a double holds exactly.  The quotient is a
    double; it is a half-integer exactly when the sum is 30 more than a
    multiple of 60, and then it is exact, and otherwise it is at least 1/60
    away from every half-integer, which is more than the rounding error of
    the division; so the rounding upwards of ties gives the integer below
    [(sum + 30) / 60]. *)
Definition roundMinutes (sum : Z) : Z := (sum + 30) / 60.

Section Orchestrator.
Variable world : World.
(** [new Date().toISOString()] when the log has the given length. *)
Variable now : nat -> jsstring.

(** Step 4 of [buildPlaylistFromSyllabus] and the end of
    [handleOneShotMode]. *)
Definition finalResult (syllabus : SyllabusData) (prefs : UserPreferences)
  (entries : list PlaylistEntry) (anchorInfo : option Forge.AnchorInfo)
  : M Forge.PlaylistResult :=
  fun log =>
    let videoIds := List.map videoId entries in
    let totalDurationMinutes :=
      roundMinutes (foldl (fun sum e => sum + durationSeconds e) 0 entries) in
    (Returns {| Forge.syllabusTitle := sd_title syllabus;
                Forge.totalVideos := length entries;
                Forge.totalDurationMinutes := totalDurationMinutes;
                Forge.entries := entries;
                Forge.watchUrl := toWatchURL videoIds;
                Forge.anchor := anchorInfo;
                Forge.preferences := prefs;
                Forge.generatedAt := now (length log) |}, log).

Definition handleOneShotMode (syllabus : SyllabusData)
  (prefs : UserPreferences) (modifiers : SearchModifiers)
  : M Forge.PlaylistResult :=
  let* entries := searchOneShot world syllabus modifiers in
  finalResult syllabus prefs entries None.

Definition buildPlaylistFromSyllabus (options : BuildFromTOCOptions)
  : M Forge.PlaylistResult :=
  let prefs :=
    validatePreferences
      (default (asPartial getDefaultPreferences) (bo_preferences options)) in
  let modifiers := resolvePreferences prefs in
  let syllabus := bo_syllabus options in
  match learningMode prefs with
  | Mode.one_shot => handleOneShotMode syllabus prefs modifiers
  | _ =>
    let* built :=
      (if negb (skipAnchorSearch options) then
         let* anchorResult :=
           huntForAnchor world (sd_title syllabus) (tableOfContents syllabus)
             (languageSuffix modifiers) in
         match found anchorResult, anchor anchorResult with
         | true, Some a =>
           let* gapResult :=
             fillGaps world a (tableOfContents syllabus) (sd_title syllabus)
               modifiers in
           ret (entries gapResult,
                Some {| Forge.channelName := ap_channelName a;
                        Forge.playlistTitle := playlistTitle a;
                        Forge.coverageScore := coverageScore a |})
         | _, _ =>
           let* scratchResult :=
             buildFromScratch world (tableOfContents syllabus)
               (sd_title syllabus) modifiers in
           ret (entries scratchResult, None)
         end
       else
         let* scratchResult :=
           buildFromScratch world (tableOfContents syllabus)
             (sd_title syllabus) modifiers in
         ret (entries scratchResult, None)) in
    finalResult syllabus prefs (fst built) (snd built)
  end.

End Orchestrator.

(** What the running pair of [calculateDensityScore] satisfies: the score
    is in a range, the flags are counted, and no flag means no score. *)
Definition densityInv (lo hi : Z) (n : nat) (d : Density) : Prop :=
  lo <= score d <= hi
  /\ (length (flags d) <= n)%nat
  /\ (flags d = [] -> score d = 0).

(** What the collection of [searchOneShot] maintains: the candidates have
    distinct ids, and the ids seen are theirs. *)
Definition collected (st : list VideoCandidate * gset jsstring) : Prop :=
  List.NoDup (List.map vc_videoId st.1)
  /\ forall id, id ∈ st.2 <-> In id (List.map vc_videoId st.1).

(** A syllabus and options on which the orchestrator is run. *)
Definition sparseSyllabus : SyllabusData :=
  {| sd_title := js "Data Structures";
     sd_description := js "An introduction";
     fundamentalConcept := None;
     tableOfContents := sparseTopics;
     modules := [] |}.

Definition examOptions : BuildFromTOCOptions :=
  {| bo_syllabus := sparseSyllabus;
     bo_preferences :=
       Some {| pp_studentType := None; pp_language := None;
               pp_learningMode := Some (js "one_shot") |};
     skipAnchorSearch := false;
     skipReranker := false |}.

Definition scratchOptions : BuildFromTOCOptions :=
  {| bo_syllabus := sparseSyllabus;
     bo_preferences := None;
     skipAnchorSearch := true;
     skipReranker := false |}.

Definition fixedClock (n : nat) : jsstring := js "2026-01-01T00:00:00.000Z".
(** ** Properties of the Candidate Scorer *)

Section StableSort.
Context {A : Type} (cmp : A -> A -> Z).
(** The comparator is consistent: when [x] must go after [y], [y] need
    not go after [x]. *)
Hypothesis cmp_total : forall x y, 0 < cmp x y -> cmp y x <= 0.


Lemma insertBy_HdRel x y l :
  cmp y x <= 0 -> HdRel (precedes cmp) y l -> HdRel (precedes cmp) y (insertBy cmp x l).
Proof.
  intros Hyx Hl. destruct l as [|z l]; simpl.
  - constructor. exact Hyx.
  - destruct (cmp x z <=? 0); constructor; trivial.
    inversion Hl; assumption.
Qed.

Lemma insertBy_Sorted x l :
  Sorted (precedes cmp) l -> Sorted (precedes cmp) (insertBy cmp x l).
Proof.
  induction 1 as [|y l Hs IH Hd]; simpl.
  - repeat constructor.
  - destruct (Z.leb_spec (cmp x y) 0) as [Hle|Hgt].
    + constructor; [constructor; assumption|constructor; exact Hle].
    + constructor; [exact IH|].
      apply insertBy_HdRel; [apply cmp_total; exact Hgt|exact Hd].
Qed.

Lemma sortBy_Sorted l : Sorted (precedes cmp) (sortBy cmp l).
Proof.
  induction l as [|x l IH]; simpl; [constructor|].
  apply insertBy_Sorted, IH.
Qed.

Lemma insertBy_head x l : HdRel (precedes cmp) x l -> insertBy cmp x l = x :: l.
Proof.
  destruct 1 as [|y l Hxy]; simpl; [reflexivity|].
  unfold precedes in Hxy. apply Z.leb_le in Hxy. rewrite Hxy. reflexivity.
Qed.

Lemma sortBy_of_Sorted l : Sorted (precedes cmp) l -> sortBy cmp l = l.
Proof.
  induction 1 as [|x l Hs IH Hd]; simpl; [reflexivity|].
  fold (sortBy cmp l). rewrite IH. apply insertBy_head, Hd.
Qed.

Lemma sortBy_idempotent l : sortBy cmp (sortBy cmp l) = sortBy cmp l.
Proof. apply sortBy_of_Sorted, sortBy_Sorted. Qed.

Lemma insertBy_In x y l : In y (insertBy cmp x l) -> y = x \/ In y l.
Proof.
  induction l as [|z l IH]; simpl.
  - intros [->|[]]; auto.
  - destruct (cmp x z <=? 0); simpl.
    + intros [->|[->|H]]; auto.
    + intros [->|H]; auto. destruct (IH H); auto.
Qed.

Lemma sortBy_In y l : In y (sortBy cmp l) -> In y l.
Proof.
  induction l as [|x l IH]; simpl; [tauto|].
  intros H. apply insertBy_In in H as [->|H]; auto.
Qed.

(** Stability: the elements of one class [P] of ties keep their input
    order. *)
Lemma insertBy_filter (P : A -> bool) x l :
  (forall y, P x = true -> P y = true -> cmp x y <= 0) ->
  List.filter P (insertBy cmp x l)
  = if P x then x :: List.filter P l else List.filter P l.
Proof.
  intros Htie. induction l as [|y l IH]; simpl.
  - reflexivity.
  - destruct (Z.leb_spec (cmp x y) 0) as [Hle|Hgt]; simpl.
    + reflexivity.
    + rewrite IH. destruct (P x) eqn:Hx, (P y) eqn:Hy; try reflexivity.
      specialize (Htie y eq_refl Hy). lia.
Qed.

Lemma sortBy_filter (P : A -> bool) l :
  (forall x y, P x = true -> P y = true -> cmp x y <= 0) ->
  List.filter P (sortBy cmp l) = List.filter P l.
Proof.
  intros Htie. induction l as [|x l IH]; simpl; [reflexivity|].
  fold (sortBy cmp l). rewrite insertBy_filter by auto. rewrite IH.
  reflexivity.
Qed.
End StableSort.

Section ScorerFacts.
Variable toLowerCase : jsstring -> jsstring.

Local Abbreviation calc := (calculateDensityScore toLowerCase).
Local Abbreviation rank := (rankByDensity toLowerCase).
Local Abbreviation sc := (scored toLowerCase).

(** The score reads no field that [rankByDensity] writes. *)
Lemma calculateDensityScore_withDensity v d :
  calc (withDensity v d) = calc v.
Proof. reflexivity. Qed.

Lemma withDensity_withDensity v d d' :
  withDensity (withDensity v d) d' = withDensity v d'.
Proof. reflexivity. Qed.

Lemma byDensityDesc_total x y :
  0 < byDensityDesc x y -> byDensityDesc y x <= 0.
Proof. unfold byDensityDesc. lia. Qed.

Lemma scored_scored v : sc (sc v) = sc v.
Proof. reflexivity. Qed.

Lemma map_scored_fixed l :
  (forall x, In x l -> exists v, x = sc v) -> List.map sc l = l.
Proof.
  induction l as [|x l IH]; simpl; intros H; [reflexivity|].
  destruct (H x (or_introl eq_refl)) as [v ->].
  rewrite scored_scored, IH; [reflexivity|]. intros; apply H; auto.
Qed.

Lemma rankByDensity_scored videos x :
  In x (rank videos) -> exists v, x = sc v.
Proof.
  unfold rankByDensity. intros H. apply sortBy_In in H.
  apply in_map_iff in H as (v & <- & _). exists v. reflexivity.
Qed.

(** The output is in descending order of score. *)
Lemma rankByDensity_sorted videos :
  Sorted (fun a b => numOr0 (densityScore b) <= numOr0 (densityScore a))
    (rank videos).
Proof.
  pose proof (sortBy_Sorted byDensityDesc byDensityDesc_total
                (List.map sc videos)) as H.
  unfold rankByDensity. fold (scored toLowerCase).
  eapply Sorted_ind with (P := fun l => Sorted _ l); [| |exact H].
  - constructor.
  - intros a l _ IH Hd. constructor; [exact IH|].
    destruct Hd as [|b l Hab]; constructor.
    unfold precedes, byDensityDesc in Hab. lia.
Qed.

(** Ties keep their input order: the videos of one score appear as in the
    input. *)
Lemma rankByDensity_stable videos s :
  List.filter (fun v => numOr0 (densityScore v) =? s) (rank videos)
  = List.filter (fun v => numOr0 (densityScore v) =? s)
      (List.map sc videos).
Proof.
  unfold rankByDensity. fold (scored toLowerCase). apply sortBy_filter.
  intros x y Hx Hy. apply Z.eqb_eq in Hx, Hy. unfold byDensityDesc. lia.
Qed.

(** C9. [rankByDensity] is idempotent: ranking its own output gives the
    same list, the items in the same order (and carrying the same scores
    and flags). *)
Theorem rankByDensity_idempotent (videos : list VideoCandidate) :
  rank (rank videos) = rank videos.
Proof.
  unfold rankByDensity at 1. fold (scored toLowerCase).
  rewrite map_scored_fixed by apply rankByDensity_scored.
  unfold rankByDensity. apply sortBy_idempotent, byDensityDesc_total.
Qed.


Lemma positiveSignals_nonneg video :
  0 <= score (positiveSignals toLowerCase video).
Proof.
  unfold positiveSignals, bump.
  repeat match goal with
         | |- context [if ?b then _ else _] => destruct b
         end; simpl; unfold WEIGHTS.GITHUB_BOOST, WEIGHTS.DOCUMENTATION_BOOST,
    WEIGHTS.ACADEMIC_BOOST, WEIGHTS.LONG_VIDEO_BOOST,
    WEIGHTS.MEDIUM_VIDEO_BOOST; lia.
Qed.

Lemma laterPenalties_nonpos video : score (laterPenalties video) <= 0.
Proof.
  unfold laterPenalties, bump.
  destruct (aggressiveTitle video), (highViewsLowInfo video);
    simpl; unfold WEIGHTS.EMPTY_DESC_PENALTY; lia.
Qed.

(** C8. For a video whose lower-cased title or description contains a
    clickbait phrase: the score is the sum of the positive signals (all
    detected before the check, and never negative), the penalty of -100
    taken once, and the two later penalties; nothing positive is added
    after the penalty, and the flag of the penalty follows the flags of
    the positive signals.  The positive part is kept, not reset. *)
Theorem clickbait_penalty (video : VideoCandidate) :
  hasClickbait toLowerCase video = true ->
  let d := calc video in
  let pos := positiveSignals toLowerCase video in
  let later := laterPenalties video in
  score d = score pos + (-100) + score later
  /\ 0 <= score pos
  /\ score later <= 0
  /\ score d <= score pos - 100
  /\ flags d = flags pos ++ [Flag.clickbait] ++ flags later.
Proof.
  intros Hcb d pos later.
  pose proof (positiveSignals_nonneg video) as Hpos.
  pose proof (laterPenalties_nonpos video) as Hlater.
  assert (Hd : score d = score pos + (-100) + score later
               /\ flags d = flags pos ++ [Flag.clickbait] ++ flags later).
  { subst d pos later.
    unfold calculateDensityScore, negativeSignals, laterPenalties.
    rewrite Hcb. generalize (positiveSignals toLowerCase video) as p.
    intros p. unfold bump.
    destruct (aggressiveTitle video), (highViewsLowInfo video);
      cbn [score flags]; unfold WEIGHTS.CLICKBAIT_PENALTY,
      WEIGHTS.EMPTY_DESC_PENALTY; rewrite <- ?app_assoc;
      (split; [lia|reflexivity]). }
  destruct Hd as [Hs Hf]. subst d pos later.
  repeat split; try assumption. lia.
Qed.
End ScorerFacts.

(** ** Properties of the Candidate Resolver *)

Lemma insertBy_length {A} (cmp : A -> A -> Z) x l :
  length (insertBy cmp x l) = S (length l).
Proof.
  induction l as [|y l IH]; simpl; [reflexivity|].
  destruct (cmp x y <=? 0); simpl; [reflexivity|]. rewrite IH. reflexivity.
Qed.

Lemma sortBy_length {A} (cmp : A -> A -> Z) l :
  length (sortBy cmp l) = length l.
Proof.
  induction l as [|x l IH]; simpl; [reflexivity|].
  fold (sortBy cmp l). rewrite insertBy_length, IH. reflexivity.
Qed.

Lemma rankByDensity_length tl videos :
  length (rankByDensity tl videos) = length videos.
Proof. unfold rankByDensity. rewrite sortBy_length, length_map. reflexivity. Qed.

Lemma findWinner_In ranked w top :
  In top ranked -> In (findWinner ranked w top) ranked.
Proof.
  intros Htop. unfold findWinner.
  destruct (List.find _ ranked) as [v|] eqn:Hf; [|exact Htop].
  apply find_some in Hf. tauto.
Qed.

Lemma findWinner_absent ranked w top :
  ~ In w (List.map vc_videoId ranked) -> findWinner ranked w top = top.
Proof.
  intros Hw. unfold findWinner.
  destruct (List.find _ ranked) as [v|] eqn:Hf; [|reflexivity].
  apply find_some in Hf as [Hin Heq]. unfold str_eqb in Heq.
  apply bool_decide_eq_true in Heq. subst w.
  exfalso. apply Hw, in_map, Hin.
Qed.

Lemma findWinner_top top rest :
  findWinner (top :: rest) (vc_videoId top) top = top.
Proof.
  unfold findWinner. simpl. unfold str_eqb.
  rewrite bool_decide_eq_true_2 by reflexivity. reflexivity.
Qed.

Section ResolverFacts.
Variable world : World.

(** [vibeCheckRerank] never throws; it makes at most the one call, and its
    winner is null when there is no key, when the call throws and when the
    answer does not parse. *)
Lemma vibeCheckRerank_returns input log :
  exists rr calls,
    vibeCheckRerank world input log = (Returns rr, log ++ calls)
    /\ searchQueries calls = []
    /\ (gemini_api_key world (length log) = false -> winnerId rr = None)
    /\ (gemini_generate world (length log) input = Throws -> winnerId rr = None)
    /\ (gemini_generate world (length log) input = Returns None ->
        winnerId rr = None).
Proof.
  unfold vibeCheckRerank, bind, readApiKey, tryCatch, callGemini, ret.
  destruct (gemini_api_key world (length log)) eqn:Hkey; simpl.
  - destruct (gemini_generate world (length log) input) as [|data] eqn:Hg.
    + exists heuristicFallback, [CGemini input]. auto 10.
    + destruct data as [[[[|c s]|] r]|]; simpl.
      * exists heuristicFallback, [CGemini input].
        repeat split; auto; discriminate.
      * destruct (length s =? 10)%nat; eexists _, [CGemini input];
          (split; [reflexivity|]); repeat split; auto; discriminate.
      * exists heuristicFallback, [CGemini input].
        repeat split; auto; discriminate.
      * exists heuristicFallback, [CGemini input]. auto 10.
  - exists heuristicFallback, []. rewrite app_nil_r. auto 10.
Qed.

(** What [pickBestVideo] returns, by cases on the pool and on the winner
    reported by the reranker. *)
Lemma pickBestVideo_spec rawVideos topic modifiers position log :
  let pool := durationPool (List.map toCandidate (take 15 rawVideos)) modifiers in
  let ranked := rankByDensity (js_toLowerCase world) pool in
  match ranked with
  | [] =>
    pool = []
    /\ pickBestVideo world rawVideos topic modifiers position log
       = (Returns None, log)
  | top :: rest =>
    exists winner calls,
      pickBestVideo world rawVideos topic modifiers position log
      = (Returns (Some (entryOfWinner winner topic position)), log ++ calls)
      /\ In winner ranked
      /\ searchQueries calls = []
      /\ ((length ranked < 3)%nat -> winner = top)
      /\ ((3 <= length ranked)%nat ->
          exists rr,
            vibeCheckRerank world (rerankerInput ranked topic modifiers) log
            = (Returns rr, log ++ calls)
            /\ winner = findWinner ranked
                          (strOr (winnerId rr) (vc_videoId top)) top)
  end.
Proof.
  intros pool ranked.
  pose proof (rankByDensity_length (js_toLowerCase world) pool) as Hlen.
  fold ranked in Hlen. unfold pickBestVideo. fold pool. fold ranked.
  destruct ranked as [|top rest] eqn:Hr.
  - destruct pool; [|discriminate]. split; reflexivity.
  - destruct pool as [|p pool']; [discriminate|].
    replace (length (p :: pool') =? 0)%nat with false by reflexivity.
    unfold bind, USE_RERANKER. cbn [andb].
    destruct (3 <=? length (top :: rest))%nat eqn:H3.
    + apply Nat.leb_le in H3.
      destruct (vibeCheckRerank_returns
                  (rerankerInput (top :: rest) topic modifiers) log)
        as (rr & calls & Hrr & Hq & _).
      rewrite Hrr. unfold ret.
      exists (findWinner (top :: rest) (strOr (winnerId rr) (vc_videoId top)) top),
        calls.
      split; [reflexivity|]. split; [apply findWinner_In; left; reflexivity|].
      split; [exact Hq|]. split; [lia|]. intros _. exists rr. auto.
    + apply Nat.leb_gt in H3. unfold ret.
      exists top, []. rewrite app_nil_r, findWinner_top.
      split; [reflexivity|]. split; [left; reflexivity|].
      split; [reflexivity|]. split; [reflexivity|]. lia.
Qed.

(** [pickBestVideo] never throws, logs no text search, and tags its entry
    with the position it was given. *)
Lemma pickBestVideo_returns rawVideos topic modifiers pos log :
  exists r calls,
    pickBestVideo world rawVideos topic modifiers pos log
    = (Returns r, log ++ calls)
    /\ searchQueries calls = []
    /\ (forall e, r = Some e ->
        position e = pos /\ topicMatched e = topic
        /\ source e = gap_fill).
Proof.
  pose proof (pickBestVideo_spec rawVideos topic modifiers pos log) as H.
  cbv zeta in H.
  destruct (rankByDensity _ _) as [|top rest].
  - destruct H as [_ H]. exists None, []. rewrite app_nil_r.
    split; [exact H|]. split; [reflexivity|]. discriminate.
  - destruct H as (winner & calls & H & _ & Hq & _).
    exists (Some (entryOfWinner winner topic pos)), calls.
    split; [exact H|]. split; [exact Hq|].
    intros e [= <-]. auto.
Qed.
End ResolverFacts.

Lemma filter_length_le {A} (P : A -> bool) l :
  (length (List.filter P l) <= length l)%nat.
Proof.
  induction l as [|x l IH]; simpl; [lia|]. destruct (P x); simpl; lia.
Qed.

Lemma filter_none {A} (P : A -> bool) l :
  (forall x, In x l -> P x = false) -> List.filter P l = [].
Proof.
  induction l as [|x l IH]; simpl; intros H; [reflexivity|].
  rewrite (H x (or_introl eq_refl)). apply IH. intros; apply H; auto.
Qed.

Lemma filter_all {A} (P : A -> bool) l :
  (forall x, In x l -> P x = true) -> List.filter P l = l.
Proof.
  induction l as [|x l IH]; simpl; intros H; [reflexivity|].
  rewrite (H x (or_introl eq_refl)). f_equal. apply IH. intros; apply H; auto.
Qed.

Lemma filter_length_mono {A} (P P' : A -> bool) l :
  (forall x, In x l -> P x = true -> P' x = true) ->
  (length (List.filter P l) <= length (List.filter P' l))%nat.
Proof.
  induction l as [|x l IH]; simpl; intros H; [lia|].
  assert (IH' := IH (fun y Hy => H y (or_intror Hy))).
  pose proof (H x (or_introl eq_refl)) as Hx.
  destruct (P x); [rewrite (Hx eq_refl); simpl; lia|].
  destruct (P' x); simpl; lia.
Qed.

Section ResolverClaims.
Variable world : World.

Lemma length_snoc {A} (l : list A) x : length (l ++ [x]) = S (length l).
Proof. rewrite length_app. simpl. lia. Qed.

Lemma searchQueries_app l1 l2 :
  searchQueries (l1 ++ l2) = searchQueries l1 ++ searchQueries l2.
Proof. unfold searchQueries. apply omap_app. Qed.

(** C7. Resolving one topic never throws.  It sends the first query once;
    when that call throws the result is null; when it returns videos no
    other query is sent and the result is that of [pickBestVideo] on them;
    when it returns none, the simpler query is sent, once, and the result
    is null if that call throws or returns no video. *)
Theorem searchForTopic_contained (topic subject : jsstring)
  (modifiers : SearchModifiers) (position : nat) (log : list Call) :
  let q1 := firstQuery world topic subject modifiers in
  let q2 := fallbackQuery world topic modifiers in
  exists r calls,
    searchForTopic world topic subject modifiers position log
    = (Returns r, log ++ calls)
    /\ match yt_search world (length log) q1 with
       | Throws => searchQueries calls = [q1] /\ r = None
       | Returns result =>
         match default [] (sr_videos result) with
         | v :: vs =>
           searchQueries calls = [q1]
           /\ fst (pickBestVideo world (v :: vs) topic modifiers position
                     (log ++ [CSearch q1])) = Returns r
         | [] =>
           searchQueries calls = [q1; q2]
           /\ match yt_search world (S (length log)) q2 with
              | Throws => r = None
              | Returns fallbackResult =>
                match default [] (sr_videos fallbackResult) with
                | [] => r = None
                | v :: vs =>
                  fst (pickBestVideo world (v :: vs) topic modifiers position
                         (log ++ [CSearch q1; CSearch q2])) = Returns r
                end
              end
         end
       end.
Proof.
  intros q1 q2. unfold searchForTopic, bind, tryCatch, callSearch, ret.
  fold q1. fold q2.
  destruct (yt_search world (length log) q1) as [|result].
  { exists None, [CSearch q1]. auto. }
  destruct (default [] (sr_videos result)) as [|v vs] eqn:Hv.
  - cbn [length Nat.eqb]. rewrite length_snoc.
    destruct (yt_search world (S (length log)) q2) as [|fb].
    { exists None, [CSearch q1; CSearch q2].
      rewrite <- app_assoc. auto. }
    destruct (sr_videos fb) as [[|w ws]|]; cbn [default from_option id].
    + exists None, [CSearch q1; CSearch q2]. rewrite <- app_assoc. auto.
    + destruct (pickBestVideo_returns world (w :: ws) topic modifiers position
                  ((log ++ [CSearch q1]) ++ [CSearch q2]))
        as (r & calls & Hp & Hq & _).
      exists r, ([CSearch q1; CSearch q2] ++ calls).
      rewrite <- !app_assoc in *. cbn [app] in *. rewrite Hp.
      split; [reflexivity|].
      change (searchQueries (CSearch q1 :: CSearch q2 :: calls))
        with (q1 :: q2 :: searchQueries calls).
      rewrite Hq. split; reflexivity.
    + exists None, [CSearch q1; CSearch q2]. rewrite <- app_assoc. auto.
  - cbn [length Nat.eqb].
    destruct (pickBestVideo_returns world (v :: vs) topic modifiers position
                (log ++ [CSearch q1])) as (r & calls & Hp & Hq & _).
    exists r, ([CSearch q1] ++ calls). rewrite Hp.
    rewrite <- !app_assoc. split; [reflexivity|].
    rewrite searchQueries_app, Hq. split; reflexivity.
Qed.

(** Resolving a topic never throws, and an entry it returns carries the
    position, the topic and the tag of a gap fill. *)
Lemma searchForTopic_returns topic subject modifiers pos log :
  exists r calls,
    searchForTopic world topic subject modifiers pos log
    = (Returns r, log ++ calls)
    /\ (forall e, r = Some e ->
        position e = pos /\ topicMatched e = topic
        /\ source e = gap_fill).
Proof.
  unfold searchForTopic, bind, tryCatch, callSearch, ret.
  set (q1 := firstQuery world topic subject modifiers).
  set (q2 := fallbackQuery world topic modifiers).
  assert (Hpick : forall vs lg calls0, lg = log ++ calls0 ->
            exists r calls,
              pickBestVideo world vs topic modifiers pos lg
              = (Returns r, log ++ calls)
              /\ (forall e, r = Some e ->
                  position e = pos /\ topicMatched e = topic
                  /\ source e = gap_fill)).
  { intros vs lg calls0 ->.
    destruct (pickBestVideo_returns world vs topic modifiers pos
                (log ++ calls0)) as (r & calls & Hp & _ & He).
    exists r, (calls0 ++ calls). rewrite app_assoc. auto. }
  assert (Hnull : forall calls0,
            exists (r : option PlaylistEntry) calls,
              (Returns (@None PlaylistEntry), log ++ calls0)
              = (Returns r, log ++ calls)
              /\ (forall e, r = Some e ->
                  position e = pos /\ topicMatched e = topic
                  /\ source e = gap_fill)).
  { intros calls0. exists None, calls0. split; [reflexivity|discriminate]. }
  destruct (yt_search world (length log) q1) as [|result]; [apply Hnull|].
  destruct (default [] (sr_videos result)) as [|v vs].
  - cbn [length Nat.eqb].
    destruct (yt_search world _ q2) as [|fb].
    { rewrite <- app_assoc. apply Hnull. }
    destruct (sr_videos fb) as [[|w ws]|].
    + rewrite <- app_assoc. apply Hnull.
    + eapply Hpick. rewrite <- app_assoc. reflexivity.
    + rewrite <- app_assoc. apply Hnull.
  - cbn [length Nat.eqb]. eapply Hpick. reflexivity.
Qed.

(** Evaluates the comparisons of two numerals in the goal. *)
Ltac decide_tests :=
  repeat match goal with
         | |- context [Z.geb (Zpos ?a) (Zpos ?b)] =>
           let v := eval vm_compute in (Z.geb (Zpos a) (Zpos b)) in
           change (Z.geb (Zpos a) (Zpos b)) with v
         | |- context [Z.leb (Zpos ?a) (Zpos ?b)] =>
           let v := eval vm_compute in (Z.leb (Zpos a) (Zpos b)) in
           change (Z.leb (Zpos a) (Zpos b)) with v
         end; cbv iota.

(** C6. With the window 600..2700, of four candidates lasting 30, 700, 1800
    and 5000 seconds the filter keeps the second and the third, which are
    the pool; of two search results lasting 30 and 50 seconds the window
    keeps none, the floor of 60 seconds keeps none, and the resolver
    returns null. *)
Theorem duration_window_scenario (modifiers : SearchModifiers)
  (c1 c2 c3 c4 : VideoCandidate) (v1 v2 : VideoResult) :
  minSeconds (duration modifiers) = 600 ->
  maxSeconds (duration modifiers) = 2700 ->
  seconds (vc_duration c1) = 30 ->
  seconds (vc_duration c2) = 700 ->
  seconds (vc_duration c3) = 1800 ->
  seconds (vc_duration c4) = 5000 ->
  seconds (vc_duration (toCandidate v1)) = 30 ->
  seconds (vc_duration (toCandidate v2)) = 50 ->
  durationWindow [c1; c2; c3; c4] modifiers = [c2; c3]
  /\ durationPool [c1; c2; c3; c4] modifiers = [c2; c3]
  /\ durationWindow [toCandidate v1; toCandidate v2] modifiers = []
  /\ filterByDuration [toCandidate v1; toCandidate v2] 60 = []
  /\ (forall topic position log,
        pickBestVideo world [v1; v2] topic modifiers position log
        = (Returns None, log))
  /\ (forall topic subject position log result,
        yt_search world (length log) (firstQuery world topic subject modifiers)
        = Returns result ->
        sr_videos result = Some [v1; v2] ->
        fst (searchForTopic world topic subject modifiers position log)
        = Returns None).
Proof.
  intros Hmin Hmax H1 H2 H3 H4 H5 H6.
  assert (Hw : durationWindow [c1; c2; c3; c4] modifiers = [c2; c3]).
  { unfold durationWindow, filterByDuration. cbn [List.filter].
    rewrite Hmin, H1, H2, H3, H4. decide_tests. cbn [List.filter].
    rewrite Hmax, H2, H3, H4. decide_tests. reflexivity. }
  assert (Hw' : durationWindow [toCandidate v1; toCandidate v2] modifiers = []).
  { unfold durationWindow, filterByDuration. cbn [List.filter].
    rewrite Hmin, H5, H6. decide_tests. reflexivity. }
  assert (Hf : filterByDuration [toCandidate v1; toCandidate v2] 60 = []).
  { unfold filterByDuration. cbn [List.filter]. rewrite H5, H6.
    decide_tests. reflexivity. }
  assert (Hp : forall topic position log,
             pickBestVideo world [v1; v2] topic modifiers position log
             = (Returns None, log)).
  { intros. unfold pickBestVideo.
    change (take 15 [v1; v2]) with [v1; v2]. cbn [List.map].
    unfold durationPool. rewrite Hw', Hf. reflexivity. }
  split; [exact Hw|]. split; [unfold durationPool; rewrite Hw; reflexivity|].
  split; [exact Hw'|]. split; [exact Hf|]. split; [exact Hp|].
  intros topic subject position log result Hs Hv.
  unfold searchForTopic, bind, tryCatch, callSearch, ret.
  rewrite Hs, Hv. cbn [default from_option id length Nat.eqb]. rewrite Hp. reflexivity.
Qed.

(** Whatever the window, as long as its minimum is a minute or more, a
    pool of clips shorter than a minute resolves to null. *)
Lemma short_clips_resolve_to_null (rawVideos : list VideoResult)
  (topic : jsstring) (modifiers : SearchModifiers) (pos : nat)
  (log : list Call) :
  60 <= minSeconds (duration modifiers) ->
  (forall v, In v (take 15 rawVideos) ->
     seconds (vc_duration (toCandidate v)) < 60) ->
  pickBestVideo world rawVideos topic modifiers pos log = (Returns None, log).
Proof.
  intros Hmin Hshort. unfold pickBestVideo.
  assert (Hpool : durationPool (List.map toCandidate (take 15 rawVideos))
                    modifiers = []).
  { unfold durationPool, durationWindow, filterByDuration.
    assert (H60 : List.filter (fun v => seconds (vc_duration v) >=? 60)
                    (List.map toCandidate (take 15 rawVideos)) = []).
    { apply filter_none. intros c Hc.
      apply in_map_iff in Hc as (v & <- & Hv). specialize (Hshort v Hv).
      rewrite Z.geb_leb. apply Z.leb_gt. exact Hshort. }
    rewrite (filter_none (fun v => seconds (vc_duration v)
                                   >=? minSeconds (duration modifiers))).
    - simpl. exact H60.
    - intros c Hc. apply in_map_iff in Hc as (v & <- & Hv).
      specialize (Hshort v Hv). rewrite Z.geb_leb. apply Z.leb_gt. lia. }
  rewrite Hpool. reflexivity.
Qed.

(** C2, as amended. When the ranked pool has at least three candidates the
    reranker is consulted, and the resolver always returns the entry of a
    ranked candidate.  It returns the entry of the Scorer's top candidate
    whenever the reranker reports no winner or a winner that is the id of
    no candidate of the ranked pool; and the reranker reports no winner
    when the key is missing, when the call throws and when the answer does
    not parse. *)
Theorem rerank_fallback_keeps_top (rawVideos : list VideoResult)
  (topic : jsstring) (modifiers : SearchModifiers) (position : nat)
  (log : list Call) (top : VideoCandidate) (rest : list VideoCandidate) :
  rankByDensity (js_toLowerCase world)
    (durationPool (List.map toCandidate (take 15 rawVideos)) modifiers)
  = top :: rest ->
  (3 <= length (top :: rest))%nat ->
  let input := rerankerInput (top :: rest) topic modifiers in
  exists rr log1 winner,
    vibeCheckRerank world input log = (Returns rr, log1)
    /\ pickBestVideo world rawVideos topic modifiers position log
       = (Returns (Some (entryOfWinner winner topic position)), log1)
    /\ In winner (top :: rest)
    /\ ((forall w, winnerId rr = Some w ->
         ~ In w (List.map vc_videoId (top :: rest))) ->
        winner = top)
    /\ (gemini_api_key world (length log) = false -> winnerId rr = None)
    /\ (gemini_generate world (length log) input = Throws ->
        winnerId rr = None)
    /\ (gemini_generate world (length log) input = Returns None ->
        winnerId rr = None).
Proof.
  intros Hr H3 input.
  pose proof (pickBestVideo_spec world rawVideos topic modifiers position log)
    as Hspec.
  cbv zeta in Hspec. rewrite Hr in Hspec.
  destruct Hspec as (winner & calls & Hp & Hin & _ & _ & Hrr).
  destruct (Hrr H3) as (rr & Hv & Hw).
  destruct (vibeCheckRerank_returns world input log)
    as (rr' & calls' & Hv' & _ & Hk & Ht & Hn).
  fold input in Hv. rewrite Hv in Hv'. injection Hv' as <- _.
  exists rr, (log ++ calls), winner.
  split; [exact Hv|]. split; [exact Hp|]. split; [exact Hin|].
  split; [|auto].
  intros Hbad. rewrite Hw.
  destruct (winnerId rr) as [[|c s]|] eqn:Hid; cbn [strOr];
    try apply findWinner_top.
  apply findWinner_absent. apply Hbad. reflexivity.
Qed.
End ResolverClaims.

(** ** Properties of the Gap Filler and of the Scratch Builder *)

Section BuilderFacts.
Variable world : World.

Lemma mapTopic_position items i t : tm_position (mapTopic world items i t) = i.
Proof. unfold mapTopic. destruct (bestMatch _) as [[it s]|]; reflexivity. Qed.

Lemma mapTopic_topic items i t : tm_topic (mapTopic world items i t) = t.
Proof. unfold mapTopic. destruct (bestMatch _) as [[it s]|]; reflexivity. Qed.

Lemma mapTopic_anchored items i t :
  isGap (mapTopic world items i t) = false ->
  exists v, anchorVideo (mapTopic world items i t) = Some v.
Proof.
  unfold mapTopic. destruct (bestMatch _) as [[it s]|]; simpl; [eauto|].
  discriminate.
Qed.

(** The mappings of a table of contents, from position [k] on. *)
Lemma imap_mapTopic_positions items toc k :
  List.map tm_position (imap (fun i => mapTopic world items (k + i)) toc)
  = seq k (length toc).
Proof.
  revert k. induction toc as [|t toc IH]; intros k; [reflexivity|].
  cbn [imap List.map length seq]. rewrite mapTopic_position, Nat.add_0_r.
  f_equal. rewrite <- (IH (S k)). f_equal. apply imap_ext.
  intros i x _. simpl. f_equal. lia.
Qed.

Lemma mapTopicsToAnchor_positions toc vids :
  List.map tm_position (mapTopicsToAnchor world toc vids) = seq 0 (length toc).
Proof. apply (imap_mapTopic_positions _ toc 0). Qed.

Lemma mapTopicsToAnchor_length toc vids :
  length (mapTopicsToAnchor world toc vids) = length toc.
Proof. unfold mapTopicsToAnchor. apply length_imap. Qed.

Lemma mapTopicsToAnchor_anchored toc vids m :
  In m (mapTopicsToAnchor world toc vids) ->
  isGap m = false -> exists v, anchorVideo m = Some v.
Proof.
  unfold mapTopicsToAnchor. intros Hin.
  apply list_elem_of_In, elem_of_lookup_imap in Hin as (i & t & -> & _).
  apply mapTopic_anchored.
Qed.

Lemma NoDup_map_filter {A B} (f : A -> B) (P : A -> bool) l :
  List.NoDup (List.map f l) -> List.NoDup (List.map f (List.filter P l)).
Proof.
  induction l as [|x l IH]; simpl; intros Hnd; [constructor|].
  inversion Hnd as [|? ? Hx Hl]; subst.
  destruct (P x); simpl; [|auto].
  constructor; [|auto]. intros Hin. apply Hx.
  apply in_map_iff in Hin as (y & Hy & Hin). apply in_map_iff.
  exists y. split; [exact Hy|]. apply filter_In in Hin. tauto.
Qed.

Lemma filter_split_length {A} (P : A -> bool) l :
  (length (List.filter P l) + length (List.filter (fun x => negb (P x)) l)
   = length l)%nat.
Proof.
  induction l as [|x l IH]; simpl; [reflexivity|].
  destruct (P x); simpl; lia.
Qed.

Lemma omap_cons' {A B} (f : A -> option B) x l :
  omap f (x :: l)
  = match f x with Some y => y :: omap f l | None => omap f l end.
Proof. reflexivity. Qed.

(** The loop of [fillGaps] never throws; every gap adds one entry to the
    map or one topic to the failures. *)
Lemma fillLoop_spec subject modifiers gaps :
  forall failed (ge : gmap nat PlaylistEntry) log,
    List.NoDup (List.map tm_position gaps) ->
    (forall g, In g gaps -> ge !! tm_position g = None) ->
    exists failed' (ge' : gmap nat PlaylistEntry) calls,
      fillLoop world gaps subject modifiers failed ge log
      = (Returns (failed', ge'), log ++ calls)
      /\ (size ge' + length failed' = size ge + length failed + length gaps)%nat
      /\ (forall p, ~ In p (List.map tm_position gaps) -> ge' !! p = ge !! p)
      /\ (length (omap (fun g => ge' !! tm_position g) gaps) + length failed'
          = length gaps + length failed)%nat.
Proof.
  induction gaps as [|g gaps IH]; intros failed ge log Hnd Hfresh.
  - exists failed, ge, []. rewrite app_nil_r. simpl.
    repeat split; auto; lia.
  - inversion Hnd as [|? ? Hg Hnd']; subst.
    cbn [fillLoop]. unfold bind at 1.
    destruct (searchForTopic_returns world (tm_topic g) subject modifiers
                (tm_position g) log) as (r & calls & Hs & _).
    rewrite Hs. destruct r as [e|].
    + destruct (IH failed (<[tm_position g := e]> ge) (log ++ calls) Hnd')
        as (failed' & ge' & calls' & Hl & Hsize & Hkeep & Hcount).
      { intros g' Hin. rewrite lookup_insert_ne.
        - apply Hfresh. right. exact Hin.
        - intros Heq. apply Hg. rewrite Heq. apply in_map, Hin. }
      exists failed', ge', (calls ++ calls'). rewrite app_assoc.
      split; [exact Hl|].
      rewrite map_size_insert_None in Hsize
        by (apply Hfresh; left; reflexivity).
      split; [simpl; lia|]. split.
      * intros p Hp. rewrite Hkeep.
        -- apply lookup_insert_ne. intros Heq. apply Hp. left. exact Heq.
        -- intros Hin. apply Hp. right. exact Hin.
      * rewrite omap_cons', (Hkeep _ Hg), lookup_insert_eq. simpl in *. lia.
    + destruct (IH (failed ++ [tm_topic g]) ge (log ++ calls) Hnd')
        as (failed' & ge' & calls' & Hl & Hsize & Hkeep & Hcount).
      { intros g' Hin. apply Hfresh. right. exact Hin. }
      exists failed', ge', (calls ++ calls'). rewrite app_assoc.
      split; [exact Hl|]. rewrite length_snoc in Hsize, Hcount.
      split; [simpl; lia|]. split.
      * intros p Hp. apply Hkeep. intros Hin. apply Hp. right. exact Hin.
      * rewrite omap_cons', (Hkeep _ Hg), (Hfresh g (or_introl eq_refl)).
        simpl in *. lia.
Qed.

(** The loop of [resequence] pushes the anchored topics and the gaps that
    have an entry. *)
Lemma pushed_length anchor (ge : gmap nat PlaylistEntry) ms :
  (forall m, In m ms -> isGap m = false -> exists v, anchorVideo m = Some v) ->
  length (omap (pushed anchor ge) ms)
  = (length (List.filter (fun m => negb (isGap m)) ms)
     + length (omap (fun g => ge !! tm_position g) (List.filter isGap ms)))%nat.
Proof.
  induction ms as [|m ms IH]; intros Hanch; [reflexivity|].
  rewrite omap_cons'. cbn [List.filter].
  assert (IH' := IH (fun m' Hin => Hanch m' (or_intror Hin))). clear IH.
  unfold pushed at 1. destruct (isGap m) eqn:Hgap; cbn [negb].
  - rewrite omap_cons'.
    destruct (anchorVideo m); destruct (ge !! tm_position m); simpl; lia.
  - destruct (Hanch m (or_introl eq_refl) Hgap) as [v ->]. simpl. lia.
Qed.

Lemma resequence_length ms anchor (ge : gmap nat PlaylistEntry) :
  length (resequence ms anchor ge) = length (omap (pushed anchor ge) ms).
Proof. unfold resequence. rewrite length_imap, sortBy_length. reflexivity. Qed.

Lemma imap_setPosition_positions l k :
  List.map position (imap (fun i => setPosition (k + i)) l) = seq k (length l).
Proof.
  revert k. induction l as [|e l IH]; intros k; [reflexivity|].
  cbn [imap List.map length seq]. rewrite Nat.add_0_r.
  f_equal. rewrite <- (IH (S k)). f_equal. apply imap_ext.
  intros i x _. simpl. f_equal. lia.
Qed.

(** The positions that [resequence] returns are 0, 1, 2, ... *)
Lemma resequence_positions ms anchor (ge : gmap nat PlaylistEntry) :
  List.map position (resequence ms anchor ge)
  = seq 0 (length (resequence ms anchor ge)).
Proof.
  unfold resequence. rewrite length_imap.
  apply (imap_setPosition_positions _ 0).
Qed.

(** The loop of [buildFromScratch] never throws; every topic adds one entry
    or one failure, and an entry carries the index of its topic. *)
Lemma scratchLoop_spec subject modifiers topics :
  forall i entries failed log,
    exists es fs calls,
      scratchLoop world topics i subject modifiers entries failed log
      = (Returns (entries ++ es, failed ++ fs), log ++ calls)
      /\ (length es + length fs = length topics)%nat
      /\ Forall (fun e => (i <= position e < i + length topics)%nat) es.
Proof.
  induction topics as [|t topics IH]; intros i entries failed log.
  - exists [], [], []. rewrite !app_nil_r. simpl. auto.
  - cbn [scratchLoop]. unfold bind at 1.
    destruct (searchForTopic_returns world t subject modifiers i log)
      as (r & calls & Hs & He).
    rewrite Hs. destruct r as [e|].
    + destruct (IH (S i) (entries ++ [e]) failed (log ++ calls))
        as (es & fs & calls' & Hl & Hlen & Hpos).
      exists (e :: es), fs, (calls ++ calls').
      rewrite app_assoc, Hl, <- app_assoc. split; [reflexivity|].
      split; [simpl; lia|]. constructor.
      * destruct (He e eq_refl) as [-> _]. simpl. lia.
      * eapply Forall_impl; [exact Hpos|]. simpl. intros; lia.
    + destruct (IH (S i) entries (failed ++ [t]) (log ++ calls))
        as (es & fs & calls' & Hl & Hlen & Hpos).
      exists es, (t :: fs), (calls ++ calls').
      rewrite app_assoc, Hl, <- app_assoc. split; [reflexivity|].
      split; [simpl; lia|].
      eapply Forall_impl; [exact Hpos|]. simpl. intros; lia.
Qed.
End BuilderFacts.

Section BuilderClaims.
Variable world : World.

Lemma fillGaps_spec anchor toc subject modifiers log :
  exists r calls,
    fillGaps world anchor toc subject modifiers log = (Returns r, log ++ calls)
    /\ (gapsFilled r + length (gapsFailed r) = gapsFound r)%nat
    /\ (length (entries r) + length (gapsFailed r) = length toc)%nat
    /\ List.map position (entries r) = seq 0 (length (entries r)).
Proof.
  unfold fillGaps, bind.
  set (ms := mapTopicsToAnchor world toc (videos anchor)).
  destruct (fillLoop_spec world subject modifiers (List.filter isGap ms)
              [] ∅ log) as (failed' & ge' & calls & Hl & Hsize & _ & Hcount).
  { apply NoDup_map_filter. subst ms.
    rewrite mapTopicsToAnchor_positions. apply seq_NoDup. }
  { intros. apply lookup_empty. }
  rewrite Hl. unfold ret. cbn [fst snd].
  eexists _, calls. split; [reflexivity|]. cbn [gapsFilled gapsFailed gapsFound entries].
  rewrite map_size_empty in Hsize. simpl in Hsize, Hcount.
  split; [lia|]. split; [|apply resequence_positions].
  rewrite resequence_length, pushed_length
    by (subst ms; apply mapTopicsToAnchor_anchored).
  pose proof (filter_split_length isGap ms) as Hsplit.
  subst ms. rewrite mapTopicsToAnchor_length in Hsplit. lia.
Qed.

Lemma buildFromScratch_spec toc subject modifiers log :
  exists r calls,
    buildFromScratch world toc subject modifiers log = (Returns r, log ++ calls)
    /\ (gapsFilled r + length (gapsFailed r) = gapsFound r)%nat
    /\ (length (entries r) + length (gapsFailed r) = length toc)%nat.
Proof.
  unfold buildFromScratch, bind.
  destruct (scratchLoop_spec world subject modifiers toc 0 [] [] log)
    as (es & fs & calls & Hl & Hlen & _).
  rewrite Hl. unfold ret. cbn [fst snd app].
  eexists _, calls. split; [reflexivity|].
  cbn [gapsFilled gapsFailed gapsFound entries]. lia.
Qed.

(** C10. Every build returns (it never throws), and in its result
    gapsFilled + length gapsFailed = gapsFound and the number of entries is
    the number of topics minus the number of failed topics. *)
Theorem build_accounting (anchor : AnchorPlaylist) (toc : list jsstring)
  (subject : jsstring) (modifiers : SearchModifiers) (log : list Call) :
  (exists r calls,
     fillGaps world anchor toc subject modifiers log = (Returns r, log ++ calls)
     /\ (gapsFilled r + length (gapsFailed r) = gapsFound r)%nat
     /\ (length (gapsFailed r) <= length toc)%nat
     /\ length (entries r) = (length toc - length (gapsFailed r))%nat)
  /\ (exists r calls,
        buildFromScratch world toc subject modifiers log
        = (Returns r, log ++ calls)
        /\ (gapsFilled r + length (gapsFailed r) = gapsFound r)%nat
        /\ (length (gapsFailed r) <= length toc)%nat
        /\ length (entries r) = (length toc - length (gapsFailed r))%nat).
Proof.
  split.
  - destruct (fillGaps_spec anchor toc subject modifiers log)
      as (r & calls & H & Hacc & Hlen & _).
    exists r, calls. repeat split; try assumption; lia.
  - destruct (buildFromScratch_spec toc subject modifiers log)
      as (r & calls & H & Hacc & Hlen).
    exists r, calls. repeat split; try assumption; lia.
Qed.

(** With an anchor, the positions of the entries are 0, 1, 2, ... whatever
    the searches answer. *)
Lemma fillGaps_positions anchor toc subject modifiers log :
  exists r calls,
    fillGaps world anchor toc subject modifiers log = (Returns r, log ++ calls)
    /\ List.map position (entries r) = seq 0 (length (entries r)).
Proof.
  destruct (fillGaps_spec anchor toc subject modifiers log)
    as (r & calls & H & _ & _ & Hpos).
  exists r, calls. auto.
Qed.
End BuilderClaims.

(** C1, at a table of contents whose first topic has no video in the
    catalog: [buildFromScratch] returns one entry, at position 1, where the
    claim has position 0.  [fillGaps] renumbers; [buildFromScratch] keeps
    the index of the topic. *)
Theorem buildFromScratch_keeps_topic_index :
  exists r,
    fst (buildFromScratch sparseCatalog sparseTopics (js "Data Structures")
           fromScratchModifiers []) = Returns r
    /\ gapsFailed r = [js "Ghost Topic"]
    /\ List.map videoId (entries r) = [js "arrays00001"]
    /\ List.map position (entries r) = [1%nat]
    /\ List.map position (entries r) <> seq 0 (length (entries r)).
Proof.
  eexists. split; [vm_compute; reflexivity|].
  repeat split; try (vm_compute; reflexivity).
  vm_compute. discriminate.
Qed.

(** C3, at the same table of contents and an anchor that matches none of
    its topics: both builders fail the same topic and find the same video,
    but [fillGaps] returns it at position 0 and [buildFromScratch] at
    position 1. *)
Theorem fillGaps_differs_from_scratch_in_position :
  Forall (fun m => isGap m = true)
    (mapTopicsToAnchor sparseCatalog sparseTopics (videos unrelatedAnchor))
  /\ exists filled scratch,
       fst (fillGaps sparseCatalog unrelatedAnchor sparseTopics
              (js "Data Structures") fromScratchModifiers []) = Returns filled
       /\ fst (buildFromScratch sparseCatalog sparseTopics
                 (js "Data Structures") fromScratchModifiers [])
          = Returns scratch
       /\ gapsFailed filled = gapsFailed scratch
       /\ List.map videoId (entries filled) = List.map videoId (entries scratch)
       /\ List.map position (entries filled) = [0%nat]
       /\ List.map position (entries scratch) = [1%nat]
       /\ entries filled <> entries scratch.
Proof.
  split.
  - vm_compute. repeat constructor.
  - eexists _, _. split; [vm_compute; reflexivity|].
    split; [vm_compute; reflexivity|].
    repeat split; try (vm_compute; reflexivity).
    vm_compute. discriminate.
Qed.

(** ** The properties at concrete inputs *)

Lemma clickbait_penalty_witness :
  hasClickbait asciiLower clickbaitKept = true
  /\ (let d := calculateDensityScore asciiLower clickbaitKept in
      let pos := positiveSignals asciiLower clickbaitKept in
      let later := laterPenalties clickbaitKept in
      score d = score pos + (-100) + score later
      /\ 0 <= score pos
      /\ score later <= 0
      /\ score d <= score pos - 100
      /\ flags d = flags pos ++ [Flag.clickbait] ++ flags later).
Proof.
  split; [reflexivity|].
  apply (clickbait_penalty asciiLower clickbaitKept). reflexivity.
Defined.

(** After the penalty the score can still be positive, and it can be
    negative. *)
Example clickbait_score_positive :
  score (calculateDensityScore asciiLower clickbaitKept) = 25.
Proof. reflexivity. Qed.

Example clickbait_score_negative :
  score (calculateDensityScore asciiLower clickbaitOnly) = -100.
Proof. reflexivity. Qed.

Lemma duration_window_scenario_witness :
  let c1 := candidate "dur00000001" "a" "d" 30 1 in
  let c2 := candidate "dur00000002" "b" "d" 700 1 in
  let c3 := candidate "dur00000003" "c" "d" 1800 1 in
  let c4 := candidate "dur00000004" "d" "d" 5000 1 in
  let v1 := videoResult "dur00000005" "e" 30 in
  let v2 := videoResult "dur00000006" "f" 50 in
  durationWindow [c1; c2; c3; c4] fromScratchModifiers = [c2; c3]
  /\ durationPool [c1; c2; c3; c4] fromScratchModifiers = [c2; c3]
  /\ durationWindow [toCandidate v1; toCandidate v2] fromScratchModifiers = []
  /\ filterByDuration [toCandidate v1; toCandidate v2] 60 = []
  /\ (forall topic position log,
        pickBestVideo sparseCatalog [v1; v2] topic fromScratchModifiers
          position log = (Returns None, log))
  /\ (forall topic subject position log result,
        yt_search sparseCatalog (length log)
          (firstQuery sparseCatalog topic subject fromScratchModifiers)
        = Returns result ->
        sr_videos result = Some [v1; v2] ->
        fst (searchForTopic sparseCatalog topic subject fromScratchModifiers
               position log) = Returns None).
Proof.
  intros c1 c2 c3 c4 v1 v2.
  apply (duration_window_scenario sparseCatalog fromScratchModifiers
           c1 c2 c3 c4 v1 v2); reflexivity.
Defined.

Lemma rerank_fallback_keeps_top_witness :
  let world := rerankCatalog "not-a-video" in
  let input := rerankerInput (sixTop :: sixRest) (js "Arrays")
                 fromScratchModifiers in
  exists rr log1 winner,
    vibeCheckRerank world input [] = (Returns rr, log1)
    /\ pickBestVideo world sixVideos (js "Arrays") fromScratchModifiers 0 []
       = (Returns (Some (entryOfWinner winner (js "Arrays") 0)), log1)
    /\ In winner (sixTop :: sixRest)
    /\ ((forall w, winnerId rr = Some w ->
         ~ In w (List.map vc_videoId (sixTop :: sixRest))) ->
        winner = sixTop)
    /\ (gemini_api_key world (length (@nil Call)) = false -> winnerId rr = None)
    /\ (gemini_generate world (length (@nil Call)) input = Throws ->
        winnerId rr = None)
    /\ (gemini_generate world (length (@nil Call)) input = Returns None ->
        winnerId rr = None).
Proof.
  intros world input.
  apply (rerank_fallback_keeps_top world sixVideos (js "Arrays")
           fromScratchModifiers 0%nat [] sixTop sixRest).
  - vm_compute. reflexivity.
  - simpl. lia.
Defined.

(** With the winner "not-a-video", an id of eleven units that no candidate
    has, the resolver returns the first of the six videos. *)
Example rerank_unknown_id_ignored :
  fst (pickBestVideo (rerankCatalog "not-a-video") sixVideos (js "Arrays")
         fromScratchModifiers 0 [])
  = Returns (Some (entryOfWinner sixTop (js "Arrays") 0)).
Proof. vm_compute. reflexivity. Qed.

(** C2 as stated fails: the six videos rank in their order, the first five
    are submitted, the reranker answers the id of the sixth, and the
    resolver returns the sixth, not the Scorer's top candidate. *)
Lemma rerank_winner_outside_top5_is_kept :
  ~ (forall (world : World) (rawVideos : list VideoResult) (topic : jsstring)
       (modifiers : SearchModifiers) (position : nat) (log : list Call)
       (top : VideoCandidate) (rest : list VideoCandidate)
       (rr : RerankerResult) (log1 : list Call) (w : jsstring),
       rankByDensity (js_toLowerCase world)
         (durationPool (List.map toCandidate (take 15 rawVideos)) modifiers)
       = top :: rest ->
       (3 <= length (top :: rest))%nat ->
       vibeCheckRerank world (rerankerInput (top :: rest) topic modifiers) log
       = (Returns rr, log1) ->
       winnerId rr = Some w ->
       ~ In w (List.map vc_videoId (take 5 (top :: rest))) ->
       fst (pickBestVideo world rawVideos topic modifiers position log)
       = Returns (Some (entryOfWinner top topic position))).
Proof.
  intros H.
  specialize (H (rerankCatalog "vid00000006") sixVideos (js "Arrays")
                fromScratchModifiers 0%nat [] sixTop sixRest
                {| winnerId := Some (js "vid00000006");
                   reasoning := Some (js "Selected by Gemini Reranker");
                   fallbackUsed := false |}
                [CGemini (rerankerInput (sixTop :: sixRest) (js "Arrays")
                            fromScratchModifiers)]
                (js "vid00000006")).
  assert (Hfalse :
            fst (pickBestVideo (rerankCatalog "vid00000006") sixVideos
                   (js "Arrays") fromScratchModifiers 0 [])
            <> Returns (Some (entryOfWinner sixTop (js "Arrays") 0))).
  { vm_compute. discriminate. }
  apply Hfalse, H.
  - vm_compute. reflexivity.
  - simpl. lia.
  - vm_compute. reflexivity.
  - reflexivity.
  - vm_compute. intuition discriminate.
Qed.

(** ** Properties of the Anchor Hunter *)

Lemma js_gt_irrefl a : js_gt a a = false.
Proof.
  destruct a as [| |x]; simpl; try reflexivity.
  apply negb_false_iff, Qle_bool_iff, Qle_refl.
Qed.

Lemma js_gt_not_nan a b : js_gt a b = true -> a <> JNaN.
Proof. destruct a; simpl; congruence. Qed.

Lemma js_gt_false_trans s best b :
  js_gt s best = true -> js_gt b best = false -> js_gt b s = false.
Proof.
  destruct s as [| |x], best as [| |y], b as [| |z]; simpl;
    try congruence; intros Hs Hb.
  apply negb_true_iff in Hs. apply negb_false_iff, Qle_bool_iff in Hb.
  apply negb_false_iff, Qle_bool_iff.
  destruct (Qlt_le_dec y x) as [Hlt|Hle].
  - apply Qlt_le_weak. eapply Qle_lt_trans; eassumption.
  - apply Qle_bool_iff in Hle. congruence.
Qed.

Lemma js_ge_below s best c :
  js_gt s best = false -> best <> JNaN -> js_ge best c = false ->
  js_ge s c = false.
Proof.
  destruct s as [| |x], best as [| |y], c as [| |z]; simpl;
    try congruence; intros Hs _ Hb.
  apply negb_false_iff, Qle_bool_iff in Hs.
  destruct (Qle_bool z x) eqn:Hzx; [|reflexivity].
  apply Qle_bool_iff in Hzx.
  assert (Hzy : (z <= y)%Q) by (eapply Qle_trans; eassumption).
  apply Qle_bool_iff in Hzy. congruence.
Qed.

Lemma js_ge_above a b c :
  js_gt a b = false -> b <> JNaN -> js_ge a c = true -> js_ge b c = true.
Proof.
  intros Hab Hb Hac. destruct (js_ge b c) eqn:Hbc; [reflexivity|].
  rewrite (js_ge_below a b c Hab Hb Hbc) in Hac. discriminate.
Qed.

Lemma minCoverage_50 : minCoverage = JFin 50.
Proof. vm_compute. reflexivity. Qed.

Lemma omap_length_le {A B} (f : A -> option B) l :
  (length (omap f l) <= length l)%nat.
Proof.
  induction l as [|x l IH]; [reflexivity|].
  rewrite omap_cons'. destruct (f x); simpl; lia.
Qed.

Lemma bind_returns {A B} (m : M A) (k : A -> M B) log a log' :
  m log = (Returns a, log') -> bind m k log = k a log'.
Proof. unfold bind. intros ->. reflexivity. Qed.

Section HunterFacts.
Variable world : World.

Lemma getPlaylistVideos_returns id log :
  exists vids calls,
    getPlaylistVideos world id log = (Returns vids, log ++ calls).
Proof.
  unfold getPlaylistVideos, tryCatch, bind, callPlaylist, ret.
  destruct (yt_playlist world (length log) id) as [|[vs|]]; eauto.
Qed.

Lemma huntInv_seen h seen a :
  huntInv h seen -> js_gt (coverageScore a) (bestScore h) = false ->
  huntInv h (seen ++ [a]).
Proof.
  intros (Hnan & Hmax & Hbest) Ha. split; [exact Hnan|]. split.
  - intros b Hb. apply in_app_or in Hb as [Hb|[<-|[]]]; auto.
  - destruct (bestAnchor h); [|exact Hbest].
    destruct Hbest. split; [apply in_or_app; left|]; assumption.
Qed.

Lemma huntInv_better h seen a n :
  huntInv h seen -> js_gt (coverageScore a) (bestScore h) = true ->
  huntInv {| bestAnchor := Some a; bestScore := coverageScore a;
             searches := n |} (seen ++ [a]).
Proof.
  intros (Hnan & Hmax & Hbest) Ha. split; [|split]; simpl.
  - eapply js_gt_not_nan, Ha.
  - intros b Hb. apply in_app_or in Hb as [Hb|[<-|[]]].
    + eapply js_gt_false_trans; [exact Ha|auto].
    + apply js_gt_irrefl.
  - split; [apply in_or_app; right; left|]; reflexivity.
Qed.

(** The scoring loop never throws, scores the playlists that [evaluated]
    lists, and keeps [huntInv]. *)
Lemma huntLoop_spec toc playlists :
  forall h seen log,
    huntInv h seen ->
    js_ge (bestScore h) (JFin 80) = false ->
    exists h' ev calls,
      huntLoop world playlists toc h log = (Returns h', log ++ calls)
      /\ evaluated world playlists toc log = (Returns ev, log ++ calls)
      /\ huntInv h' (seen ++ ev).
Proof.
  induction playlists as [|playlist rest IH]; intros h seen log Hinv H80.
  - exists h, [], []. rewrite !app_nil_r. auto.
  - cbn [huntLoop evaluated].
    destruct (getPlaylistVideos_returns (listId playlist) log)
      as (vids & calls & Hg).
    rewrite !(bind_returns _ _ _ _ _ Hg).
    set (h1 := {| bestAnchor := bestAnchor h; bestScore := bestScore h;
                  searches := S (searches h) |}).
    assert (Hinv1 : huntInv h1 seen) by exact Hinv.
    destruct (length vids <? 3)%nat.
    { destruct (IH h1 seen (log ++ calls) Hinv1 H80)
        as (h' & ev & calls' & Hl & He & Hi).
      exists h', ev, (calls ++ calls'). rewrite app_assoc. auto. }
    set (sc := scorePlaylistCoverage world vids toc).
    set (a := anchorOf playlist vids sc).
    change (cs_coverageScore sc) with (coverageScore a).
    destruct (js_gt (coverageScore a) (bestScore h1)) eqn:Hgt.
    + pose proof (huntInv_better h1 seen a (searches h1) Hinv1 Hgt) as Hinv2.
      cbn [bestScore].
      destruct (js_ge (coverageScore a) (JFin 80)) eqn:Ha80.
      * unfold ret. exists {| bestAnchor := Some a;
                              bestScore := coverageScore a;
                              searches := searches h1 |}, [a], calls. auto.
      * destruct (IH _ (seen ++ [a]) (log ++ calls) Hinv2 Ha80)
          as (h' & ev & calls' & Hl & He & Hi).
        rewrite (bind_returns _ _ _ _ _ He). unfold ret.
        exists h', (a :: ev), (calls ++ calls'). rewrite app_assoc.
        split; [exact Hl|]. split; [reflexivity|].
        rewrite <- app_assoc in Hi. exact Hi.
    + pose proof (huntInv_seen h1 seen a Hinv1 Hgt) as Hinv2.
      change (bestScore h1) with (bestScore h) in *. rewrite H80.
      rewrite (js_ge_below _ _ _ Hgt (proj1 Hinv) H80).
      destruct (IH h1 (seen ++ [a]) (log ++ calls) Hinv2 H80)
        as (h' & ev & calls' & Hl & He & Hi).
      rewrite (bind_returns _ _ _ _ _ He). unfold ret.
      exists h', (a :: ev), (calls ++ calls'). rewrite app_assoc.
      split; [exact Hl|]. split; [reflexivity|].
      rewrite <- app_assoc in Hi. exact Hi.
Qed.

(** C5. When the playlist search returns at least one playlist,
    [huntForAnchor] returns (it does not throw) and, with [ev] the anchors
    of the playlists that were scored:
    - found is true exactly when some playlist of [ev] has a coverage
      score of at least 50;
    - when found is true the anchor is a playlist of [ev] with a score of
      at least 50 that no playlist of [ev] exceeds;
    - when found is false there is no anchor and the fallback channels are
      the author names of the first three playlists, at most three. *)
Theorem huntForAnchor_threshold (subject : jsstring) (toc : list jsstring)
  (suffix : jsstring) (log : list Call) (searchResult : SearchResult)
  (playlist : PlaylistResult) (others : list PlaylistResult) :
  let query := js_trim world (subject ++ js " full course playlist " ++ suffix) in
  yt_search world (length log) query = Returns searchResult ->
  sr_playlists searchResult = Some (playlist :: others) ->
  exists res ev calls,
    huntForAnchor world subject toc suffix log = (Returns res, log ++ calls)
    /\ fst (evaluated world (take 5 (playlist :: others)) toc
              (log ++ [CSearch query])) = Returns ev
    /\ (found res = true <->
        exists a, In a ev /\ js_ge (coverageScore a) (JFin 50) = true)
    /\ (found res = true ->
        exists a, anchor res = Some a /\ In a ev
                  /\ js_ge (coverageScore a) (JFin 50) = true
                  /\ forall b, In b ev ->
                       js_gt (coverageScore b) (coverageScore a) = false)
    /\ (found res = false ->
        anchor res = None
        /\ exists names,
             fallbackChannels res = Some names
             /\ names = omap (fun p => authorName (pl_author p))
                          (take 3 (playlist :: others))
             /\ (length names <= 3)%nat).
Proof.
  intros query Hsearch Hpl.
  unfold huntForAnchor, tryCatch, bind at 1, callSearch.
  fold query. rewrite Hsearch, Hpl.
  cbn [default from_option id length Nat.eqb].
  set (h0 := {| bestAnchor := None; bestScore := JFin 0; searches := 1 |}).
  assert (Hinv0 : huntInv h0 []) by (repeat split; [discriminate|intros ? []]).
  destruct (huntLoop_spec toc (take 5 (playlist :: others)) h0 []
              (log ++ [CSearch query]) Hinv0 eq_refl)
    as (h & ev & calls & Hl & He & Hnan & Hmax & Hbest).
  unfold bind. rewrite Hl, He. cbn [app fst] in *.
  set (names := omap (fun p => authorName (pl_author p))
                  (take 3 (playlist :: others))).
  assert (Hnames : (length names <= 3)%nat).
  { subst names. etransitivity; [apply omap_length_le|].
    rewrite length_take. lia. }
  assert (Hnone : forall a, In a ev ->
            js_ge (coverageScore a) (JFin 50) = true ->
            js_ge (bestScore h) (JFin 50) = true).
  { intros a Ha H50. eapply js_ge_above; [apply Hmax, Ha|exact Hnan|exact H50]. }
  rewrite minCoverage_50.
  destruct (bestAnchor h) as [a|] eqn:Hba.
  - destruct Hbest as [Hin Hscore].
    destruct (js_ge (bestScore h) (JFin 50)) eqn:H50; unfold ret.
    + eexists _, ev, ([CSearch query] ++ calls).
      rewrite <- app_assoc. split; [reflexivity|]. split; [reflexivity|].
      cbn [found anchor fallbackChannels]. split; [|split].
      * split; [|reflexivity]. intros _. exists a. rewrite Hscore. auto.
      * intros _. exists a. rewrite Hscore. auto.
      * discriminate.
    + eexists _, ev, ([CSearch query] ++ calls).
      rewrite <- app_assoc. split; [reflexivity|]. split; [reflexivity|].
      cbn [found anchor fallbackChannels]. split; [|split].
      * split; [discriminate|]. intros (b & Hb & Hb50).
        discriminate (Hnone b Hb Hb50).
      * discriminate.
      * intros _. split; [reflexivity|]. exists names. auto.
  - unfold ret. eexists _, ev, ([CSearch query] ++ calls).
    rewrite <- app_assoc. split; [reflexivity|]. split; [reflexivity|].
    cbn [found anchor fallbackChannels]. split; [|split].
    + split; [discriminate|]. intros (b & Hb & Hb50).
      pose proof (Hnone b Hb Hb50) as H. rewrite Hbest in H.
      vm_compute in H. discriminate.
    + discriminate.
    + intros _. split; [reflexivity|]. exists names. auto.
Qed.
End HunterFacts.

(** ** Properties of the numbers *)

Lemma pow2_pos z : (0 < 2 ^ z)%Q.
Proof. apply Qpower_0_lt. reflexivity. Qed.

Lemma pow2_le a b : a <= b -> (2 ^ a <= 2 ^ b)%Q.
Proof. intros H. apply Qpower_le_compat_l; [exact H|discriminate]. Qed.

Lemma pow2_lt_inv a b : (2 ^ a < 2 ^ b)%Q -> a < b.
Proof. intros H. eapply Qpower_lt_compat_l_inv; [exact H|reflexivity]. Qed.

Lemma pow2_plus a b : (2 ^ (a + b) == 2 ^ a * 2 ^ b)%Q.
Proof. apply Qpower_plus. discriminate. Qed.

Lemma pow2_inject n : 0 <= n -> (inject_Z (2 ^ n) == 2 ^ n)%Q.
Proof. intros H. rewrite Zpower_Qpower by exact H. reflexivity. Qed.

(** [ilog2] is the floor of the binary logarithm. *)
Lemma ilog2_spec q :
  (0 < q)%Q -> (2 ^ ilog2 q <= q)%Q /\ (q < 2 ^ (ilog2 q + 1))%Q.
Proof.
  intros Hq. destruct q as [n d]. unfold ilog2. cbn [Qnum Qden].
  assert (Hn : 0 < n).
  { unfold Qlt in Hq. simpl in Hq. lia. }
  set (a := Z.log2 n). set (b := Z.log2 (Zpos d)).
  destruct (Z.log2_spec n Hn) as [Ha1 Ha2]. fold a in Ha1, Ha2.
  destruct (Z.log2_spec (Zpos d) eq_refl) as [Hb1 Hb2]. fold b in Hb1, Hb2.
  assert (Ha0 : 0 <= a) by apply Z.log2_nonneg.
  assert (Hb0 : 0 <= b) by apply Z.log2_nonneg.
  assert (Hd : (0 < inject_Z (Zpos d))%Q) by reflexivity.
  assert (Hnd : (n # d == inject_Z n / inject_Z (Zpos d))%Q)
    by apply Qmake_Qdiv.
  (* the bounds of the numerator and of the denominator, in Q *)
  assert (Qa1 : (2 ^ a <= inject_Z n)%Q).
  { rewrite <- pow2_inject by exact Ha0. rewrite <- Zle_Qle. exact Ha1. }
  assert (Qa2 : (inject_Z n < 2 ^ (a + 1))%Q).
  { rewrite <- pow2_inject by lia. rewrite <- Zlt_Qlt. exact Ha2. }
  assert (Qb1 : (2 ^ b <= inject_Z (Zpos d))%Q).
  { rewrite <- pow2_inject by exact Hb0. rewrite <- Zle_Qle. exact Hb1. }
  assert (Qb2 : (inject_Z (Zpos d) < 2 ^ (b + 1))%Q).
  { rewrite <- pow2_inject by lia. rewrite <- Zlt_Qlt. exact Hb2. }
  assert (Hup : (n # d < 2 ^ (a - b + 1))%Q).
  { rewrite Hnd. apply Qlt_shift_div_r; [exact Hd|].
    eapply Qlt_le_trans; [exact Qa2|].
    replace (a + 1) with ((a - b + 1) + b) by lia. rewrite pow2_plus.
    apply Qmult_le_l; [apply pow2_pos|exact Qb1]. }
  assert (Hlo : (2 ^ (a - b - 1) < n # d)%Q).
  { rewrite Hnd. apply Qlt_shift_div_l; [exact Hd|].
    eapply Qlt_le_trans; [|exact Qa1].
    replace a with ((a - b - 1) + (b + 1)) at 2 by lia. rewrite pow2_plus.
    apply Qmult_lt_l; [apply pow2_pos|exact Qb2]. }
  destruct (Qle_bool (2 ^ (a - b)) (n # d)) eqn:Hk.
  - apply Qle_bool_iff in Hk. split; assumption.
  - split; [apply Qlt_le_weak; exact Hlo|].
    replace (a - b - 1 + 1) with (a - b) by lia.
    apply Qnot_le_lt. intros Hle. apply Qle_bool_iff in Hle. congruence.
Qed.

Lemma ilog2_mono x y : (0 < x)%Q -> (x <= y)%Q -> ilog2 x <= ilog2 y.
Proof.
  intros Hx Hxy.
  assert (Hy : (0 < y)%Q) by (eapply Qlt_le_trans; eassumption).
  destruct (ilog2_spec x Hx) as [Hx1 _].
  destruct (ilog2_spec y Hy) as [_ Hy2].
  assert (H : (2 ^ ilog2 x < 2 ^ (ilog2 y + 1))%Q).
  { eapply Qle_lt_trans; [exact Hx1|].
    eapply Qle_lt_trans; [exact Hxy|exact Hy2]. }
  apply pow2_lt_inv in H. lia.
Qed.

Lemma cexp_mono x y : (0 < x)%Q -> (x <= y)%Q -> cexp x <= cexp y.
Proof. intros Hx Hxy. pose proof (ilog2_mono x y Hx Hxy). unfold cexp. lia. Qed.

(** Rounding to the nearest integer is exact on integers and monotone. *)
Lemma roundHalfEven_Z z : roundHalfEven (inject_Z z) = z.
Proof.
  unfold roundHalfEven. rewrite Qfloor_Z.
  destruct (Qcompare_spec (inject_Z z - inject_Z z) (1 # 2)) as [E|L|G];
    [exfalso; lra|reflexivity|exfalso; lra].
Qed.

Lemma roundHalfEven_bounds q :
  Qfloor q <= roundHalfEven q <= Qfloor q + 1.
Proof.
  unfold roundHalfEven.
  destruct (q - inject_Z (Qfloor q) ?= 1 # 2)%Q; [destruct (Z.even _)| |]; lia.
Qed.

Lemma roundHalfEven_mono a b : (a <= b)%Q -> roundHalfEven a <= roundHalfEven b.
Proof.
  intros Hab. pose proof (Qfloor_resp_le a b Hab) as Hf.
  pose proof (roundHalfEven_bounds a) as Ha.
  pose proof (roundHalfEven_bounds b) as Hb.
  destruct (Z.eq_dec (Qfloor a) (Qfloor b)) as [Heq|Hne]; [|lia].
  unfold roundHalfEven in *. rewrite <- Heq in *.
  set (f := Qfloor a) in *.
  destruct (Qcompare_spec (a - inject_Z f) (1 # 2)) as [Ea|La|Ga];
    destruct (Qcompare_spec (b - inject_Z f) (1 # 2)) as [Eb|Lb|Gb];
    try destruct (Z.even f); try lia; exfalso; lra.
Qed.

Lemma roundHalfEven_le a z : (a <= inject_Z z)%Q -> roundHalfEven a <= z.
Proof.
  intros H. rewrite <- (roundHalfEven_Z z). apply roundHalfEven_mono, H.
Qed.

Lemma roundHalfEven_ge a z : (inject_Z z <= a)%Q -> z <= roundHalfEven a.
Proof.
  intros H. rewrite <- (roundHalfEven_Z z). apply roundHalfEven_mono, H.
Qed.

Lemma div_pow2_le x y c : (x <= y)%Q -> (x / 2 ^ c <= y / 2 ^ c)%Q.
Proof.
  intros H. apply Qle_shift_div_l; [apply pow2_pos|].
  unfold Qdiv. rewrite <- Qmult_assoc, (Qmult_comm (/ _)), Qmult_inv_r, Qmult_1_r.
  - exact H.
  - intros H0. pose proof (pow2_pos c) as Hp. rewrite H0 in Hp. discriminate.
Qed.

Lemma round53_nonneg x : (0 <= x)%Q -> (0 <= round53 x)%Q.
Proof.
  intros Hx. unfold round53.
  apply Qmult_le_0_compat; [|apply Qlt_le_weak, pow2_pos].
  change 0%Q with (inject_Z 0). rewrite <- Zle_Qle.
  apply roundHalfEven_ge.
  apply Qle_shift_div_l; [apply pow2_pos|].
  change (inject_Z 0) with 0%Q. rewrite Qmult_0_l. exact Hx.
Qed.

(** The rounding to 53 bits is monotone. *)
Lemma round53_mono x y : (0 < x)%Q -> (x <= y)%Q -> (round53 x <= round53 y)%Q.
Proof.
  intros Hx Hxy.
  assert (Hy : (0 < y)%Q) by (eapply Qlt_le_trans; eassumption).
  pose proof (cexp_mono x y Hx Hxy) as Hc.
  destruct (Z.eq_dec (cexp x) (cexp y)) as [Heq|Hne].
  - unfold round53. rewrite Heq.
    apply Qmult_le_compat_r; [|apply Qlt_le_weak, pow2_pos].
    rewrite <- Zle_Qle. apply roundHalfEven_mono, div_pow2_le, Hxy.
  - assert (Hlt : cexp x < cexp y) by lia.
    assert (Hcy : cexp y = ilog2 y - 52) by (unfold cexp in *; lia).
    assert (Hcx : ilog2 x - 52 <= cexp x) by (unfold cexp; lia).
    destruct (ilog2_spec x Hx) as [_ Hx2].
    destruct (ilog2_spec y Hy) as [Hy1 _].
    apply Qle_trans with (2 ^ (cexp y + 52))%Q.
    + (* round53 x <= 2^53 * 2^cexp x *)
      apply Qle_trans with (inject_Z (2 ^ 53) * 2 ^ cexp x)%Q.
      * unfold round53.
        apply Qmult_le_compat_r; [|apply Qlt_le_weak, pow2_pos].
        rewrite <- Zle_Qle. apply roundHalfEven_le.
        apply Qle_shift_div_r; [apply pow2_pos|].
        rewrite pow2_inject by lia. rewrite <- pow2_plus.
        apply Qlt_le_weak. eapply Qlt_le_trans; [exact Hx2|].
        apply pow2_le. lia.
      * rewrite pow2_inject by lia. rewrite <- pow2_plus. apply pow2_le. lia.
    + apply Qle_trans with (inject_Z (2 ^ 52) * 2 ^ cexp y)%Q.
      * rewrite pow2_inject by lia. rewrite <- pow2_plus.
        apply pow2_le. lia.
      * unfold round53.
        apply Qmult_le_compat_r; [|apply Qlt_le_weak, pow2_pos].
        rewrite <- Zle_Qle. apply roundHalfEven_ge.
        apply Qle_shift_div_l; [apply pow2_pos|].
        rewrite pow2_inject by lia. rewrite <- pow2_plus.
        eapply Qle_trans; [|exact Hy1]. apply pow2_le. lia.
Qed.

(** A finite result of [fl] is not negative and is in lowest terms. *)
Lemma fl_finite x v : fl x = JFin v -> (0 <= v)%Q /\ Qred v = v.
Proof.
  unfold fl. cbv zeta. destruct (Qle_bool x 0) eqn:H0.
  - intros H. assert (v = 0%Q) as -> by congruence.
    split; [apply Qle_refl|reflexivity].
  - destruct (Qle_bool (2 ^ 1024) (round53 x)); [discriminate|]. intros H.
    assert (v = Qred (round53 x)) as -> by congruence.
    split.
    + rewrite Qred_correct. apply round53_nonneg.
      apply Qlt_le_weak, Qnot_le_lt. intros Hle.
      apply Qle_bool_iff in Hle. congruence.
    + apply Qred_complete, Qred_correct.
Qed.

(** [fl] is monotone: below a number whose double is finite, the double is
    finite and not larger. *)
Lemma fl_mono x b vb :
  (x <= b)%Q -> fl b = JFin vb ->
  exists v, fl x = JFin v /\ (0 <= v)%Q /\ (v <= vb)%Q.
Proof.
  intros Hxb Hb. destruct (fl_finite b vb Hb) as [Hvb _].
  unfold fl in *. cbv zeta in *. destruct (Qle_bool x 0) eqn:Hx0.
  { exists 0%Q. split; [reflexivity|]. split; [apply Qle_refl|exact Hvb]. }
  assert (Hx : (0 < x)%Q).
  { apply Qnot_le_lt. intros H. apply Qle_bool_iff in H. congruence. }
  destruct (Qle_bool b 0) eqn:Hb0.
  { apply Qle_bool_iff in Hb0. exfalso. lra. }
  destruct (Qle_bool (2 ^ 1024) (round53 b)) eqn:Hob; [discriminate|].
  assert (vb = Qred (round53 b)) as -> by congruence.
  pose proof (round53_mono x b Hx Hxb) as Hm.
  destruct (Qle_bool (2 ^ 1024) (round53 x)) eqn:Hox.
  { apply Qle_bool_iff in Hox.
    assert (H : (2 ^ 1024 <= round53 b)%Q) by (eapply Qle_trans; eassumption).
    apply Qle_bool_iff in H. congruence. }
  exists (Qred (round53 x)). split; [reflexivity|].
  rewrite !Qred_correct. split; [|exact Hm].
  apply round53_nonneg, Qlt_le_weak, Hx.
Qed.

Lemma fl_1 : fl 1 = JFin 1.
Proof. vm_compute. reflexivity. Qed.

Lemma fl_100 : fl (1 * 100) = JFin 100.
Proof. vm_compute. reflexivity. Qed.

Lemma of_nat_pos n : (0 < n)%nat -> (0 < inject_Z (Z.of_nat n))%Q.
Proof. intros H. change 0%Q with (inject_Z 0). rewrite <- Zlt_Qlt. lia. Qed.

Lemma isZero_of_nat n : (0 < n)%nat -> isZero (inject_Z (Z.of_nat n)) = false.
Proof.
  intros H. unfold isZero. apply not_true_is_false. intros Heq.
  apply Qeq_bool_iff in Heq. pose proof (of_nat_pos n H) as Hp.
  rewrite Heq in Hp. discriminate.
Qed.

Lemma ratio_le (m m' n : nat) :
  (0 < n)%nat -> (m <= m')%nat ->
  (inject_Z (Z.of_nat m) / inject_Z (Z.of_nat n)
   <= inject_Z (Z.of_nat m') / inject_Z (Z.of_nat n))%Q.
Proof.
  intros Hn Hm. apply Qle_shift_div_l; [apply of_nat_pos, Hn|].
  unfold Qdiv. rewrite <- Qmult_assoc, (Qmult_comm (/ _)), Qmult_inv_r, Qmult_1_r.
  - rewrite <- Zle_Qle. lia.
  - intros H0. pose proof (of_nat_pos n Hn) as Hp. rewrite H0 in Hp.
    discriminate.
Qed.

Lemma ratio_all (n : nat) :
  (0 < n)%nat ->
  (inject_Z (Z.of_nat n) / inject_Z (Z.of_nat n) == 1)%Q.
Proof.
  intros Hn. apply Qmult_inv_r. intros H0.
  pose proof (of_nat_pos n Hn) as Hp. rewrite H0 in Hp. discriminate.
Qed.

(** The quotient of two lengths [m <= n] is a double between 0 and 1. *)
Lemma js_div_ratio (m n : nat) :
  (0 < n)%nat -> (m <= n)%nat ->
  exists t, js_div (js_of_nat m) (js_of_nat n) = JFin t
            /\ (0 <= t)%Q /\ (t <= 1)%Q.
Proof.
  intros Hn Hm. unfold js_div, js_of_nat. rewrite (isZero_of_nat n Hn).
  apply (fl_mono _ 1 1); [|exact fl_1].
  rewrite <- (ratio_all n Hn). apply ratio_le; assumption.
Qed.

Lemma js_div_ratio_mono (m m' n : nat) t' :
  (0 < n)%nat -> (m <= m')%nat ->
  js_div (js_of_nat m') (js_of_nat n) = JFin t' ->
  exists t, js_div (js_of_nat m) (js_of_nat n) = JFin t
            /\ (0 <= t)%Q /\ (t <= t')%Q.
Proof.
  intros Hn Hm. unfold js_div, js_of_nat. rewrite (isZero_of_nat n Hn).
  apply fl_mono, ratio_le; assumption.
Qed.

Lemma js_div_all (n : nat) :
  (0 < n)%nat -> js_div (js_of_nat n) (js_of_nat n) = JFin 1.
Proof.
  intros Hn. unfold js_div, js_of_nat. rewrite (isZero_of_nat n Hn).
  set (x := (inject_Z (Z.of_nat n) / inject_Z (Z.of_nat n))%Q).
  assert (Hx : (x == 1)%Q) by apply ratio_all, Hn.
  destruct (fl_mono x 1 1) as (t & Ht & _ & Hle);
    [rewrite Hx; apply Qle_refl|exact fl_1|].
  destruct (fl_mono 1 x t) as (v & Hv & _ & Hge);
    [rewrite Hx; apply Qle_refl|exact Ht|].
  rewrite fl_1 in Hv. assert (v = 1%Q) as -> by congruence.
  destruct (fl_finite x t Ht) as [_ Hred].
  rewrite Ht. f_equal. rewrite <- Hred.
  change 1%Q with (Qred 1). apply Qred_complete. apply Qle_antisym; assumption.
Qed.

Lemma js_div_none (n : nat) :
  (0 < n)%nat -> js_div (js_of_nat 0) (js_of_nat n) = JFin 0.
Proof.
  intros Hn. unfold js_div, js_of_nat. rewrite (isZero_of_nat n Hn).
  destruct n as [|k]; [lia|]. reflexivity.
Qed.

(** The percentage of a double between 0 and 1, rounded. *)
Lemma percent_bounds t :
  (0 <= t)%Q -> (t <= 1)%Q ->
  exists z, Math_round (js_mul (JFin t) (JFin 100)) = JFin (inject_Z z)
            /\ 0 <= z <= 100.
Proof.
  intros H0 H1. unfold js_mul.
  destruct (fl_mono (t * 100) (1 * 100) 100) as (u & Hu & Hu0 & Hu1);
    [lra|exact fl_100|].
  rewrite Hu. unfold Math_round. eexists. split; [reflexivity|]. split.
  - change 0 with (Qfloor 0). apply Qfloor_resp_le. lra.
  - change 100 with (Qfloor (100 + (1 # 2))). apply Qfloor_resp_le. lra.
Qed.

Lemma percent_mono t t' :
  (0 <= t)%Q -> (t <= t')%Q -> (t' <= 1)%Q ->
  exists z z',
    Math_round (js_mul (JFin t) (JFin 100)) = JFin (inject_Z z)
    /\ Math_round (js_mul (JFin t') (JFin 100)) = JFin (inject_Z z')
    /\ z <= z'.
Proof.
  intros H0 Hle H1. unfold js_mul.
  destruct (fl_mono (t' * 100) (1 * 100) 100) as (u' & Hu' & _ & _);
    [lra|exact fl_100|].
  destruct (fl_mono (t * 100) (t' * 100) u') as (u & Hu & _ & Huu);
    [lra|exact Hu'|].
  rewrite Hu, Hu'. unfold Math_round. eexists _, _.
  split; [reflexivity|]. split; [reflexivity|]. apply Qfloor_resp_le. lra.
Qed.

(** The coverage of [m] matched topics among [n]: an integer between 0 and
    100, monotone in [m], 0 when none matches and 100 when all do. *)
Lemma coveragePercent_bounds (m n : nat) :
  (0 < n)%nat -> (m <= n)%nat ->
  exists z, coveragePercent m n = JFin (inject_Z z) /\ 0 <= z <= 100.
Proof.
  intros Hn Hm. unfold coveragePercent.
  destruct (js_div_ratio m n Hn Hm) as (t & -> & H0 & H1).
  apply percent_bounds; assumption.
Qed.

Lemma coveragePercent_mono (m m' n : nat) :
  (0 < n)%nat -> (m <= m')%nat -> (m' <= n)%nat ->
  exists z z',
    coveragePercent m n = JFin (inject_Z z)
    /\ coveragePercent m' n = JFin (inject_Z z')
    /\ z <= z'.
Proof.
  intros Hn Hm Hm'. unfold coveragePercent.
  destruct (js_div_ratio m' n Hn Hm') as (t' & Ht' & _ & H1).
  destruct (js_div_ratio_mono m m' n t' Hn Hm Ht') as (t & Ht & H0 & Hle).
  rewrite Ht, Ht'. apply percent_mono; assumption.
Qed.

Lemma coveragePercent_none (n : nat) :
  (0 < n)%nat -> coveragePercent 0 n = JFin 0.
Proof.
  intros Hn. unfold coveragePercent. rewrite (js_div_none n Hn).
  vm_compute. reflexivity.
Qed.

Lemma coveragePercent_all (n : nat) :
  (0 < n)%nat -> coveragePercent n n = JFin 100.
Proof.
  intros Hn. unfold coveragePercent. rewrite (js_div_all n Hn).
  vm_compute. reflexivity.
Qed.

(** On every table of at most 64 topics the numbers of [coveragePercent]
    are those of IEEE-754 binary64 division and multiplication. *)
Lemma coveragePercent_binary64 : agreesWithBinary64 64 = true.
Proof. vm_compute. reflexivity. Qed.

(** *** The distance to the exact percentage

    A rounding to the nearest double moves a number by at most the
    fraction 2^-53 of it.  The quotient and the product of
    [coveragePercent] are each rounded once, so the product is within
    3 * 2^-51 of the exact percentage, while the exact percentage plus one
    half, a fraction over [2 * total], is an integer or at least
    [1 / (2 * total)] away from the integers around it. *)

Lemma roundHalfEven_near t :
  (inject_Z (roundHalfEven t) - t <= 1 # 2)%Q
  /\ (t - inject_Z (roundHalfEven t) <= 1 # 2)%Q.
Proof.
  unfold roundHalfEven.
  pose proof (Qfloor_le t) as Hlo. pose proof (Qlt_floor t) as Hhi.
  rewrite inject_Z_plus in Hhi. change (inject_Z 1) with 1%Q in Hhi.
  destruct (Qcompare_spec (t - inject_Z (Qfloor t)) (1 # 2)) as [He|Hl|Hg].
  - destruct (Z.even (Qfloor t));
      [|rewrite inject_Z_plus; change (inject_Z 1) with 1%Q]; split; lra.
  - split; lra.
  - rewrite inject_Z_plus. change (inject_Z 1) with 1%Q. split; lra.
Qed.

Lemma round53_near q :
  (2 ^ (-1022) <= q)%Q ->
  (round53 q - q <= q * 2 ^ (-53))%Q /\ (q - round53 q <= q * 2 ^ (-53))%Q.
Proof.
  intros Hq.
  assert (Hpos : (0 < q)%Q).
  { eapply Qlt_le_trans; [apply (pow2_pos (-1022))|exact Hq]. }
  destruct (ilog2_spec q Hpos) as (Hlo & Hhi).
  assert (Hk : -1022 <= ilog2 q).
  { assert (H : -1022 < ilog2 q + 1); [|lia].
    apply pow2_lt_inv. eapply Qle_lt_trans; [exact Hq|exact Hhi]. }
  unfold round53, cexp. rewrite Z.max_l by lia.
  set (e := ilog2 q - 52).
  pose proof (pow2_pos e) as He.
  destruct (roundHalfEven_near (q / 2 ^ e)) as (H1 & H2).
  set (r := inject_Z (roundHalfEven (q / 2 ^ e))) in *.
  assert (Hq' : (q == q / 2 ^ e * 2 ^ e)%Q).
  { field. intros H0. rewrite H0 in He. apply (Qlt_irrefl 0). exact He. }
  assert (Hb : (2 ^ e * (1 # 2) <= q * 2 ^ (-53))%Q).
  { assert (H53 : (2 ^ e * (1 # 2) == 2 ^ ilog2 q * 2 ^ (-53))%Q).
    { unfold e. replace (ilog2 q - 52) with (ilog2 q + (-52)) by lia.
      rewrite pow2_plus.
      assert (Hc : ((2 ^ (-52)) * (1 # 2) == 2 ^ (-53))%Q) by reflexivity.
      rewrite <- Hc. ring. }
    rewrite H53. apply Qmult_le_compat_r; [exact Hlo|].
    apply Qlt_le_weak, pow2_pos. }
  set (t := (q / 2 ^ e)%Q) in *.
  assert (Hm1 : ((r - t) * 2 ^ e <= (1 # 2) * 2 ^ e)%Q)
    by (apply Qmult_le_compat_r; [exact H1|apply Qlt_le_weak, He]).
  assert (Hm2 : ((t - r) * 2 ^ e <= (1 # 2) * 2 ^ e)%Q)
    by (apply Qmult_le_compat_r; [exact H2|apply Qlt_le_weak, He]).
  set (pe := (2 ^ e)%Q) in *. set (b := (q * 2 ^ (-53))%Q) in *.
  split; nra.
Qed.

Lemma fl_near q v :
  (2 ^ (-1022) <= q)%Q -> fl q = JFin v ->
  (v - q <= q * 2 ^ (-53))%Q /\ (q - v <= q * 2 ^ (-53))%Q.
Proof.
  intros Hq Hfl.
  assert (Hpos : (0 < q)%Q).
  { eapply Qlt_le_trans; [apply (pow2_pos (-1022))|exact Hq]. }
  unfold fl in Hfl.
  destruct (Qle_bool q 0) eqn:H0.
  { apply Qle_bool_iff in H0. exfalso. apply (Qlt_not_le _ _ Hpos H0). }
  destruct (Qle_bool (2 ^ 1024) (round53 q)); [discriminate|].
  assert (Hv : (v == round53 q)%Q).
  { assert (v = Qred (round53 q)) as -> by congruence. apply Qred_correct. }
  destruct (round53_near q Hq) as (H1 & H2).
  rewrite Hv. split; assumption.
Qed.

Lemma frac_gap_up (N D K : Z) :
  0 < D ->
  (inject_Z N / inject_Z D < inject_Z K)%Q ->
  (inject_Z N / inject_Z D + 1 / inject_Z D <= inject_Z K)%Q.
Proof.
  intros HD Hlt.
  assert (HDq : (0 < inject_Z D)%Q) by (rewrite <- (Zlt_Qlt 0); exact HD).
  assert (HNK : N < K * D).
  { rewrite Zlt_Qlt, inject_Z_mult.
    apply (Qmult_lt_compat_r _ _ (inject_Z D)) in Hlt; [|exact HDq].
    setoid_replace (inject_Z N) with (inject_Z N / inject_Z D * inject_Z D)%Q using relation Qeq
      by (field; intros H; rewrite H in HDq; apply (Qlt_irrefl 0 HDq)).
    exact Hlt. }
  setoid_replace (inject_Z N / inject_Z D + 1 / inject_Z D)%Q
    with (inject_Z (N + 1) / inject_Z D)%Q using relation Qeq
    by (rewrite inject_Z_plus; field; intros H; rewrite H in HDq;
        apply (Qlt_irrefl 0 HDq)).
  apply Qle_shift_div_r; [exact HDq|].
  rewrite <- inject_Z_mult. rewrite <- Zle_Qle. lia.
Qed.

Lemma frac_gap_down (N D K : Z) :
  0 < D -> N mod D <> 0 ->
  (inject_Z K <= inject_Z N / inject_Z D)%Q ->
  (inject_Z K + 1 / inject_Z D <= inject_Z N / inject_Z D)%Q.
Proof.
  intros HD Hmod Hle.
  assert (HDq : (0 < inject_Z D)%Q) by (rewrite <- (Zlt_Qlt 0); exact HD).
  assert (HKN : K * D <= N).
  { rewrite Zle_Qle, inject_Z_mult.
    apply (Qmult_le_compat_r _ _ (inject_Z D)) in Hle;
      [|apply Qlt_le_weak, HDq].
    setoid_replace (inject_Z N) with (inject_Z N / inject_Z D * inject_Z D)%Q using relation Qeq
      by (field; intros H; rewrite H in HDq; apply (Qlt_irrefl 0 HDq)).
    exact Hle. }
  assert (Hne : K * D <> N).
  { intros <-. apply Hmod. apply Z.mod_mul. lia. }
  setoid_replace (inject_Z K + 1 / inject_Z D)%Q
    with (inject_Z (K * D + 1) / inject_Z D)%Q using relation Qeq
    by (rewrite inject_Z_plus, inject_Z_mult; field; intros H;
        rewrite H in HDq; apply (Qlt_irrefl 0 HDq)).
  apply Qle_shift_div_r; [exact HDq|].
  setoid_replace (inject_Z N / inject_Z D * inject_Z D)%Q with (inject_Z N) using relation Qeq
    by (field; intros H; rewrite H in HDq; apply (Qlt_irrefl 0 HDq)).
  rewrite <- Zle_Qle. lia.
Qed.

Lemma exactPercent_none n : (0 < n)%nat -> exactPercent 0 n = 0.
Proof.
  intros Hn. unfold exactPercent.
  assert (H : (inject_Z (Z.of_nat 0) / inject_Z (Z.of_nat n) * 100 + (1 # 2)
               == 1 # 2)%Q).
  { change (inject_Z (Z.of_nat 0)) with 0%Q. field.
    pose proof (of_nat_pos n Hn) as Hp. intros H0. rewrite H0 in Hp.
    apply (Qlt_irrefl 0 Hp). }
  rewrite H. reflexivity.
Qed.

Lemma coveragePercent_near (m n : nat) :
  (0 < n)%nat -> (m <= n)%nat -> Z.of_nat n < 2 ^ 32 ->
  exists z,
    coveragePercent m n = JFin (inject_Z z)
    /\ exactPercent m n - 1 <= z <= exactPercent m n
    /\ ((200 * Z.of_nat m + Z.of_nat n) mod (2 * Z.of_nat n) <> 0 ->
        z = exactPercent m n).
Proof.
  intros Hn Hm H32.
  destruct m as [|m'].
  { exists 0. rewrite coveragePercent_none, exactPercent_none by exact Hn.
    split; [reflexivity|]. split; [lia|reflexivity]. }
  set (m := S m') in *.
  pose proof (of_nat_pos n Hn) as Hnq.
  assert (Hmq : (0 < inject_Z (Z.of_nat m))%Q) by (apply of_nat_pos; lia).
  assert (Hn0 : ~ (inject_Z (Z.of_nat n) == 0)%Q).
  { intros H0. rewrite H0 in Hnq. apply (Qlt_irrefl 0 Hnq). }
  set (x := (inject_Z (Z.of_nat m) / inject_Z (Z.of_nat n))%Q).
  (* the quotient *)
  destruct (js_div_ratio m n Hn Hm) as (t & Ht & Ht0 & Ht1).
  assert (Hflx : fl x = JFin t).
  { unfold js_div, js_of_nat in Ht. rewrite (isZero_of_nat n Hn) in Ht.
    exact Ht. }
  assert (Hx1 : (x <= 1)%Q).
  { unfold x. apply Qle_shift_div_r; [exact Hnq|].
    rewrite Qmult_1_l, <- Zle_Qle. lia. }
  assert (Hxlow : (1 # 4294967296 <= x)%Q).
  { unfold x. apply Qle_shift_div_l; [exact Hnq|].
    assert (H1 : (1 <= inject_Z (Z.of_nat m))%Q)
      by (change 1%Q with (inject_Z 1); rewrite <- Zle_Qle; lia).
    assert (H2 : (inject_Z (Z.of_nat n) <= 4294967296)%Q)
      by (change 4294967296%Q with (inject_Z 4294967296);
          rewrite <- Zle_Qle; change (2 ^ 32) with 4294967296 in H32; lia).
    lra. }
  assert (Hmin : (2 ^ (-1022) <= 1 # 8589934592)%Q).
  { change (1 # 8589934592)%Q with (2 ^ (-33))%Q. apply pow2_le. lia. }
  assert (HE : (2 ^ (-53) == 1 # 9007199254740992)%Q) by reflexivity.
  destruct (fl_near x t) as (Hxa & Hxb); [lra|exact Hflx|].
  rewrite HE in Hxa, Hxb.
  (* the product *)
  destruct (fl_mono (t * 100) (1 * 100) 100) as (v & Hflv & Hv0 & Hv100);
    [lra|exact fl_100|].
  destruct (fl_near (t * 100) v) as (Hva & Hvb); [lra|exact Hflv|].
  rewrite HE in Hva, Hvb.
  exists (Qfloor (v + (1 # 2))).
  split.
  { unfold coveragePercent. rewrite Ht. unfold js_mul.
    rewrite Hflv. reflexivity. }
  (* the exact percentage *)
  set (R := exactPercent m n).
  set (N := 200 * Z.of_nat m + Z.of_nat n).
  set (D := 2 * Z.of_nat n).
  assert (HD : 0 < D) by (unfold D; lia).
  assert (HDq : (0 < inject_Z D)%Q) by (rewrite <- (Zlt_Qlt 0); exact HD).
  assert (Hq0 : (x * 100 + (1 # 2) == inject_Z N / inject_Z D)%Q).
  { unfold x, N, D. rewrite inject_Z_plus, !inject_Z_mult.
    change (inject_Z 200) with 200%Q. change (inject_Z 2) with 2%Q.
    field. exact Hn0. }
  assert (HR : R = Qfloor (inject_Z N / inject_Z D)).
  { unfold R, exactPercent. fold x. rewrite Hq0. reflexivity. }
  pose proof (Qfloor_le (inject_Z N / inject_Z D)) as HRlo.
  pose proof (Qlt_floor (inject_Z N / inject_Z D)) as HRhi.
  rewrite <- HR in HRlo, HRhi.
  pose proof (frac_gap_up N D (R + 1) HD HRhi) as Hup.
  rewrite inject_Z_plus in Hup, HRhi. change (inject_Z 1) with 1%Q in Hup, HRhi.
  assert (Hc : (1 # 8589934592 <= 1 / inject_Z D)%Q).
  { apply Qle_shift_div_l; [exact HDq|].
    assert (H2 : (inject_Z D <= 8589934592)%Q)
      by (change 8589934592%Q with (inject_Z 8589934592);
          rewrite <- Zle_Qle; unfold D;
          change (2 ^ 32) with 4294967296 in H32; lia).
    lra. }
  set (c := (1 / inject_Z D)%Q) in *.
  set (q0 := (inject_Z N / inject_Z D)%Q) in *.
  set (rq := inject_Z R) in *.
  pose proof (Qfloor_le (v + (1 # 2))) as Hzlo.
  pose proof (Qlt_floor (v + (1 # 2))) as Hzhi.
  rewrite inject_Z_plus in Hzhi. change (inject_Z 1) with 1%Q in Hzhi.
  set (z := Qfloor (v + (1 # 2))) in *.
  assert (Hzu : z <= R).
  { assert (H : z < R + 1); [|lia].
    rewrite Zlt_Qlt, inject_Z_plus. change (inject_Z 1) with 1%Q.
    fold rq. lra. }
  assert (Hzl : R - 1 <= z).
  { assert (H : R < z + 2); [|lia].
    rewrite Zlt_Qlt, inject_Z_plus. change (inject_Z 2) with 2%Q.
    fold rq. lra. }
  split; [lia|].
  intros Hmod.
  pose proof (frac_gap_down N D R HD Hmod HRlo) as Hdown.
  fold c q0 rq in Hdown.
  assert (H : R < z + 1); [|lia].
  rewrite Zlt_Qlt, inject_Z_plus. change (inject_Z 1) with 1%Q.
  fold rq. lra.
Qed.

(** ** Properties of the coverage score *)

Section CoverageClaims.
Variable world : World.

(** C4. For a table of contents that is not empty (an array: fewer than
    2^32 topics), the matched topics are those whose best result of the
    Matcher against the titles has a score below 0.4, and the coverage
    score is [Math.round((matched / total) * 100)] in double arithmetic.
    It is an integer between 0 and 100: the exact percentage rounded half
    up, or one less, and one less only when the exact percentage is half
    way between two integers.  It is 0 when no topic matches and 100 when
    all match; and when every topic matched by one list of videos is
    matched by another, the score of the other is not smaller. *)
Theorem coverage_score (playlistVideos : list PlaylistVideoItem)
  (tableOfContents : list jsstring) :
  tableOfContents <> [] ->
  Z.of_nat (length tableOfContents) < 2 ^ 32 ->
  let below := fun (titles : list jsstring) (topic : jsstring) =>
    match fuse_search world jsstring id titles topic with
    | r :: _ =>
      match fuseScore r with
      | Some s => Qltb s (4 # 10)
      | None => false
      end
    | [] => false
    end in
  let titles := List.map pv_title playlistVideos in
  let matched := List.filter (below titles) tableOfContents in
  let total := length tableOfContents in
  let scored := scorePlaylistCoverage world playlistVideos tableOfContents in
  cs_matchedTopics scored = matched
  /\ cs_unmatchedTopics scored
     = List.filter (fun t => negb (below titles t)) tableOfContents
  /\ cs_coverageScore scored
     = Math_round
         (js_mul (js_div (js_of_nat (length matched)) (js_of_nat total))
            (JFin 100))
  /\ (exists z,
        cs_coverageScore scored = JFin (inject_Z z)
        /\ 0 <= z <= 100
        /\ exactPercent (length matched) total - 1 <= z
           <= exactPercent (length matched) total
        /\ ((200 * Z.of_nat (length matched) + Z.of_nat total)
              mod (2 * Z.of_nat total) <> 0 ->
            z = exactPercent (length matched) total))
  /\ ((forall t, In t tableOfContents -> below titles t = false)
      -> cs_coverageScore scored = JFin 0)
  /\ ((forall t, In t tableOfContents -> below titles t = true)
      -> cs_coverageScore scored = JFin 100)
  /\ (forall playlistVideos' : list PlaylistVideoItem,
        (forall t, In t tableOfContents ->
           below titles t = true ->
           below (List.map pv_title playlistVideos') t = true)
        -> exists z z',
             cs_coverageScore scored = JFin (inject_Z z)
             /\ cs_coverageScore
                  (scorePlaylistCoverage world playlistVideos' tableOfContents)
                = JFin (inject_Z z')
             /\ z <= z').
Proof.
  intros Hne H32 below titles matched total scored.
  assert (Hn : (0 < length tableOfContents)%nat).
  { destruct tableOfContents; [congruence|simpl; lia]. }
  assert (Hbelow : forall items t, topicMatched_by world items t = below items t)
    by reflexivity.
  assert (Hmatched : cs_matchedTopics scored = matched) by reflexivity.
  assert (Hscore : cs_coverageScore scored
                   = coveragePercent (length matched) total)
    by reflexivity.
  split; [exact Hmatched|]. split; [reflexivity|]. split; [reflexivity|].
  rewrite Hscore.
  split; [|split; [|split]].
  - destruct (coveragePercent_near (length matched) total Hn
                (filter_length_le _ _) H32) as (z & Hz & Hnear & Hexact).
    destruct (coveragePercent_bounds (length matched) total Hn
                (filter_length_le _ _)) as (z' & Hz' & Hb).
    assert (z' = z).
    { rewrite Hz in Hz'. injection Hz' as Hq.
      rewrite <- (Qfloor_Z z), <- (Qfloor_Z z'). unfold inject_Z.
      congruence. }
    subst z'. exists z. auto.
  - intros Hnone. subst matched. rewrite filter_none by exact Hnone.
    apply coveragePercent_none, Hn.
  - intros Hall. subst matched. rewrite filter_all by exact Hall.
    apply coveragePercent_all, Hn.
  - intros playlistVideos' Hsub.
    change (cs_coverageScore
              (scorePlaylistCoverage world playlistVideos' tableOfContents))
      with (coveragePercent
              (length (List.filter
                         (below (List.map pv_title playlistVideos'))
                         tableOfContents))
              total).
    apply coveragePercent_mono; [exact Hn| |apply filter_length_le].
    apply filter_length_mono, Hsub.
Qed.
End CoverageClaims.

Lemma coverage_score_witness :
  halfCovered <> []
  /\ Z.of_nat (length halfCovered) < 2 ^ 32
  /\ cs_matchedTopics (scorePlaylistCoverage playlistCatalog courseItems
                         halfCovered)
     = [js "Arrays"; js "Linked Lists"]
  /\ exists z,
       cs_coverageScore (scorePlaylistCoverage playlistCatalog courseItems
                           halfCovered) = JFin (inject_Z z)
       /\ z = 50
       /\ z = exactPercent 2 4.
Proof.
  split; [discriminate|]. split; [reflexivity|].
  split; [vm_compute; reflexivity|].
  destruct (coverage_score playlistCatalog courseItems halfCovered)
    as (_ & _ & _ & (z & Hz & _ & _ & Hexact) & _);
    [discriminate|reflexivity|].
  exists z. split; [exact Hz|].
  assert (Hz50 : z = exactPercent 2 4).
  { apply Hexact. vm_compute. discriminate. }
  split; [rewrite Hz50; vm_compute; reflexivity|exact Hz50].
Defined.

(** The score is not the exact percentage rounded: with 23 topics of 40
    matched the exact percentage is 57.5, which rounds to 58, and the
    score is 57. *)
Lemma coverage_score_exact_rounding_fails :
  ~ (forall (world : World) (playlistVideos : list PlaylistVideoItem)
       (tableOfContents : list jsstring),
       tableOfContents <> [] ->
       let titles := List.map pv_title playlistVideos in
       let matched :=
         List.filter (topicMatched_by world titles) tableOfContents in
       cs_coverageScore
         (scorePlaylistCoverage world playlistVideos tableOfContents)
       = JFin (inject_Z (exactPercent (length matched)
                           (length tableOfContents)))).
Proof.
  intros H.
  specialize (H playlistCatalog (letterItems 23) (letterTopics 40)).
  assert (Hne : letterTopics 40 <> []) by (vm_compute; discriminate).
  specialize (H Hne). vm_compute in H. discriminate H.
Qed.

(** The numbers of that input. *)
Example coverage_23_of_40_topics :
  length (cs_matchedTopics
            (scorePlaylistCoverage playlistCatalog (letterItems 23)
               (letterTopics 40))) = 23%nat
  /\ length (letterTopics 40) = 40%nat
  /\ cs_coverageScore
       (scorePlaylistCoverage playlistCatalog (letterItems 23)
          (letterTopics 40)) = JFin 57
  /\ exactPercent 23 40 = 58.
Proof. vm_compute. auto. Qed.

(** The course covers two topics of four, 50, and two of five, 40; a ratio
    such as 23 of 40 rounds as binary64 does, to 57. *)
Example coverage_half :
  cs_coverageScore (scorePlaylistCoverage playlistCatalog courseItems halfCovered)
  = JFin 50.
Proof. vm_compute. reflexivity. Qed.

Example coverage_less :
  cs_coverageScore (scorePlaylistCoverage playlistCatalog courseItems lessCovered)
  = JFin 40.
Proof. vm_compute. reflexivity. Qed.

Example coverage_23_of_40 : coveragePercent 23 40 = JFin 57.
Proof. vm_compute. reflexivity. Qed.

Example coverage_29_of_200 :
  coveragePercent 29 200 = JFin 14 /\ exactPercent 29 200 = 15.
Proof. vm_compute. auto. Qed.

Lemma huntForAnchor_threshold_witness :
  let query :=
    js_trim playlistCatalog
      (js "Data Structures" ++ js " full course playlist " ++ []) in
  exists res ev calls,
    huntForAnchor playlistCatalog (js "Data Structures") halfCovered [] []
    = (Returns res, [] ++ calls)
    /\ fst (evaluated playlistCatalog (take 5 [coursePlaylist; shortPlaylist])
              halfCovered ([] ++ [CSearch query])) = Returns ev
    /\ (found res = true <->
        exists a, In a ev /\ js_ge (coverageScore a) (JFin 50) = true)
    /\ (found res = true ->
        exists a, anchor res = Some a /\ In a ev
                  /\ js_ge (coverageScore a) (JFin 50) = true
                  /\ forall b, In b ev ->
                       js_gt (coverageScore b) (coverageScore a) = false)
    /\ (found res = false ->
        anchor res = None
        /\ exists names,
             fallbackChannels res = Some names
             /\ names = omap (fun p => authorName (pl_author p))
                          (take 3 [coursePlaylist; shortPlaylist])
             /\ (length names <= 3)%nat).
Proof.
  intros query.
  apply (huntForAnchor_threshold playlistCatalog (js "Data Structures")
           halfCovered [] []
           {| sr_videos := Some [];
              sr_playlists := Some [coursePlaylist; shortPlaylist] |}
           coursePlaylist [shortPlaylist]); reflexivity.
Defined.

(** At coverage 50 the course is the anchor; at coverage 40 there is no
    anchor and the one author name is the hint. *)
Example hunt_accepts_50 :
  (fun r => match r with
            | Returns res => (found res, playlistId <$> anchor res)
            | Throws => (false, None)
            end)
    (fst (huntForAnchor playlistCatalog (js "Data Structures") halfCovered
            [] []))
  = (true, Some (js "PLcourse0001")).
Proof. vm_compute. reflexivity. Qed.

Example hunt_rejects_40 :
  (fun r => match r with
            | Returns res => (found res, anchor res, fallbackChannels res)
            | Throws => (true, None, None)
            end)
    (fst (huntForAnchor playlistCatalog (js "Data Structures") lessCovered
            [] []))
  = (false, None, Some [js "Prof. Ada"]).
Proof. vm_compute. reflexivity. Qed.

(** ** The two builders on an anchor that matches no topic *)

Section ScratchEquivalence.
Variable world : World.

Lemma imap_mapTopic_cons items k t toc :
  imap (fun i => mapTopic world items (k + i)) (t :: toc)
  = mapTopic world items k t
    :: imap (fun i => mapTopic world items (S k + i)) toc.
Proof.
  cbn [imap]. rewrite Nat.add_0_r. f_equal. apply imap_ext.
  intros i x _. simpl. f_equal. lia.
Qed.

(** The two loops make the same calls on the same topics; the entries that
    [fillLoop] maps from their positions are the entries that [scratchLoop]
    lists, in order. *)
Lemma loops_agree items subject modifiers toc :
  (forall i t, In t toc -> isGap (mapTopic world items i t) = true) ->
  forall k failed (ge : gmap nat PlaylistEntry) entries log,
    (forall p, (k <= p)%nat -> ge !! p = None) ->
    exists es fs (ge' : gmap nat PlaylistEntry) calls,
      fillLoop world (imap (fun i => mapTopic world items (k + i)) toc)
        subject modifiers failed ge log
      = (Returns (failed ++ fs, ge'), log ++ calls)
      /\ scratchLoop world toc k subject modifiers entries failed log
         = (Returns (entries ++ es, failed ++ fs), log ++ calls)
      /\ omap (fun m => ge' !! tm_position m)
           (imap (fun i => mapTopic world items (k + i)) toc) = es
      /\ (forall p, (p < k)%nat -> ge' !! p = ge !! p)
      /\ size ge' = (size ge + length es)%nat
      /\ Forall (fun e => (k <= position e)%nat) es
      /\ Sorted (precedes byPosition) es.
Proof.
  induction toc as [|t toc IH]; intros Hgaps k failed ge entries log Hfresh.
  - exists [], [], ge, []. rewrite !app_nil_r. simpl.
    repeat split; auto.
  - rewrite imap_mapTopic_cons. cbn [fillLoop scratchLoop].
    rewrite mapTopic_topic, mapTopic_position.
    destruct (searchForTopic_returns world t subject modifiers k log)
      as (r & calls & Hs & He).
    rewrite !(bind_returns _ _ _ _ _ Hs).
    assert (Hgaps' : forall i t', In t' toc ->
              isGap (mapTopic world items i t') = true)
      by (intros; apply Hgaps; right; assumption).
    destruct r as [e|].
    + destruct (He e eq_refl) as (Hpos & _).
      destruct (IH Hgaps' (S k) failed (<[k := e]> ge) (entries ++ [e])
                  (log ++ calls))
        as (es & fs & ge' & calls' & Hf & Hsc & Hom & Hkeep & Hsize & Hge & Hso).
      { intros p Hp. rewrite lookup_insert_ne by lia. apply Hfresh. lia. }
      rewrite <- (app_assoc log) in Hf, Hsc.
      rewrite <- (app_assoc entries) in Hsc. cbn [app] in Hsc.
      exists (e :: es), fs, ge', (calls ++ calls').
      rewrite Hf, Hsc.
      split; [reflexivity|]. split; [reflexivity|]. split; [|split; [|split]].
      * rewrite omap_cons', mapTopic_position, Hom.
        rewrite (Hkeep k) by lia. rewrite lookup_insert_eq. reflexivity.
      * intros p Hp. rewrite Hkeep by lia. apply lookup_insert_ne. lia.
      * rewrite Hsize, map_size_insert_None by (apply Hfresh; lia).
        simpl. lia.
      * split.
        -- constructor; [lia|]. eapply Forall_impl; [exact Hge|].
           simpl. intros; lia.
        -- constructor; [exact Hso|].
           destruct Hge as [|e' es' He' _]; constructor.
           unfold precedes, byPosition. lia.
    + destruct (IH Hgaps' (S k) (failed ++ [t]) ge entries (log ++ calls))
        as (es & fs & ge' & calls' & Hf & Hsc & Hom & Hkeep & Hsize & Hge & Hso).
      { intros p Hp. apply Hfresh. lia. }
      rewrite <- (app_assoc log) in Hf, Hsc.
      rewrite <- (app_assoc failed) in Hf, Hsc. cbn [app] in Hf, Hsc.
      exists es, (t :: fs), ge', (calls ++ calls').
      rewrite Hf, Hsc.
      split; [reflexivity|]. split; [reflexivity|]. split; [|split; [|split]].
      * rewrite omap_cons', mapTopic_position, Hom.
        rewrite (Hkeep k) by lia. rewrite Hfresh by lia. reflexivity.
      * intros p Hp. apply Hkeep. lia.
      * exact Hsize.
      * split; [|exact Hso]. eapply Forall_impl; [exact Hge|].
        simpl. intros; lia.
Qed.

Lemma mapTopic_isGap_index items i j t :
  isGap (mapTopic world items i t) = isGap (mapTopic world items j t).
Proof. unfold mapTopic. destruct (bestMatch _) as [[it s]|]; reflexivity. Qed.

Lemma omap_pushed_gaps anchor (ge : gmap nat PlaylistEntry) ms :
  Forall (fun m => isGap m = true) ms ->
  omap (pushed anchor ge) ms = omap (fun m => ge !! tm_position m) ms.
Proof.
  induction 1 as [|m ms Hm _ IH]; [reflexivity|].
  rewrite !omap_cons', IH. unfold pushed. rewrite Hm. reflexivity.
Qed.

(** With an anchor that matches none of the topics, [fillGaps] makes the
    calls of [buildFromScratch] and returns its result with the entries
    renumbered: the same entries in the same order and the same
    [gapsFailed], each entry equal to its counterpart except for
    [position]. *)
Lemma fillGaps_is_scratch_renumbered anchor toc subject modifiers log :
  Forall (fun m => isGap m = true)
    (mapTopicsToAnchor world toc (videos anchor)) ->
  exists filled scratch calls,
    fillGaps world anchor toc subject modifiers log
    = (Returns filled, log ++ calls)
    /\ buildFromScratch world toc subject modifiers log
       = (Returns scratch, log ++ calls)
    /\ entries filled = imap setPosition (entries scratch)
    /\ gapsFailed filled = gapsFailed scratch
    /\ gapsFound filled = gapsFound scratch
    /\ gapsFilled filled = gapsFilled scratch.
Proof.
  intros Hall. unfold fillGaps, buildFromScratch.
  set (ms := mapTopicsToAnchor world toc (videos anchor)) in *.
  set (items := List.map (fun v => (av_title v, v)) (videos anchor)).
  assert (Hms : ms = imap (fun i => mapTopic world items (0 + i)) toc)
    by reflexivity.
  assert (Hgaps : forall i t, In t toc ->
            isGap (mapTopic world items i t) = true).
  { intros i t Hin. apply list_elem_of_In, list_elem_of_lookup in Hin as [j Hj].
    rewrite (mapTopic_isGap_index items i j).
    rewrite Forall_forall in Hall. apply Hall.
    unfold ms, mapTopicsToAnchor. fold items.
    apply elem_of_lookup_imap. exists j, t. auto. }
  rewrite (filter_all isGap ms)
    by (intros m Hm; rewrite Forall_forall in Hall;
        apply Hall, list_elem_of_In, Hm).
  destruct (loops_agree items subject modifiers toc Hgaps 0 [] ∅ [] log)
    as (es & fs & ge' & calls & Hf & Hsc & Hom & _ & Hsize & _ & Hso).
  { intros. apply lookup_empty. }
  rewrite <- Hms in Hf, Hom.
  rewrite (bind_returns _ _ _ _ _ Hf), (bind_returns _ _ _ _ _ Hsc).
  unfold ret. cbn [fst snd app].
  eexists _, _, calls. split; [reflexivity|]. split; [reflexivity|].
  cbn [entries gapsFailed gapsFound gapsFilled].
  rewrite map_size_empty in Hsize.
  split; [|split; [reflexivity|split]].
  - unfold resequence. rewrite omap_pushed_gaps by exact Hall.
    rewrite Hom, sortBy_of_Sorted by exact Hso. reflexivity.
  - unfold ms. apply mapTopicsToAnchor_length.
  - exact Hsize.
Qed.
End ScratchEquivalence.

(** * Further properties of the engine *)

(** ** The reranker and the Candidate Resolver *)

Section ResolverExtras.
Variable world : World.

Lemma vibeCheckRerank_log input log :
  exists rr,
    vibeCheckRerank world input log
    = (Returns rr,
       log ++ (if gemini_api_key world (length log)
               then [CGemini input] else []))
    /\ match winnerId rr with
       | Some w =>
         length w = 11%nat /\ fallbackUsed rr = false
         /\ (exists r, reasoning rr = Some r /\ r <> [])
         /\ exists d,
              gemini_api_key world (length log) = true
              /\ gemini_generate world (length log) input = Returns (Some d)
              /\ wd_winnerId d = Some w
       | None => fallbackUsed rr = true /\ reasoning rr = None
       end.
Proof.
  unfold vibeCheckRerank, bind, readApiKey, tryCatch, callGemini, ret.
  destruct (gemini_api_key world (length log)) eqn:Hkey; simpl.
  - destruct (gemini_generate world (length log) input) as [|data] eqn:Hg.
    + exists heuristicFallback. split; [reflexivity|]. simpl. auto.
    + destruct data as [[[[|c s]|] r]|]; simpl;
        try (exists heuristicFallback; split; [reflexivity|]; simpl; auto).
      destruct (length s =? 10)%nat eqn:Hlen.
      * eexists. split; [reflexivity|]. simpl.
        apply Nat.eqb_eq in Hlen. split; [lia|]. split; [reflexivity|].
        split.
        -- eexists. split; [reflexivity|].
           destruct r as [[|c' s']|]; simpl; discriminate.
        -- eexists. split; [reflexivity|]. split; reflexivity.
      * exists heuristicFallback. split; [reflexivity|]. simpl. auto.
  - exists heuristicFallback. rewrite app_nil_r.
    split; [reflexivity|]. simpl. auto.
Qed.


Lemma entryOfWinner_scored tl v topic pos :
  entryOfWinner (scored tl v) topic pos = entryOfWinner v topic pos.
Proof. reflexivity. Qed.

Lemma rankByDensity_from tl pool x :
  In x (rankByDensity tl pool) -> exists v, In v pool /\ x = scored tl v.
Proof.
  unfold rankByDensity. intros Hx. apply sortBy_In in Hx.
  apply in_map_iff in Hx. destruct Hx as (v & <- & Hv). exists v. auto.
Qed.

Lemma pickBestVideo_full rawVideos topic modifiers pos log :
  let pool := durationPool (List.map toCandidate (take 15 rawVideos)) modifiers in
  exists r calls,
    pickBestVideo world rawVideos topic modifiers pos log
    = (Returns r, log ++ calls)
    /\ (calls = []
        \/ calls = [CGemini (rerankerInput
                               (rankByDensity (js_toLowerCase world) pool)
                               topic modifiers)])
    /\ ((length pool < 3)%nat -> calls = [])
    /\ (gemini_api_key world (length log) = false -> calls = [])
    /\ match r with
       | None => pool = []
       | Some e => exists v, In v pool /\ e = entryOfWinner v topic pos
       end.
Proof.
  intros pool.
  pose proof (rankByDensity_length (js_toLowerCase world) pool) as Hlen.
  pose proof (rankByDensity_from (js_toLowerCase world) pool) as Hfrom.
  unfold pickBestVideo. fold pool.
  destruct (rankByDensity (js_toLowerCase world) pool) as [|top rest] eqn:Hr.
  - destruct pool; [|discriminate]. exists None, []. rewrite app_nil_r.
    simpl. auto.
  - destruct pool as [|p pool']; [discriminate|].
    replace (length (p :: pool') =? 0)%nat with false by reflexivity.
    unfold bind, USE_RERANKER. cbn [andb].
    destruct (3 <=? length (top :: rest))%nat eqn:H3.
    + apply Nat.leb_le in H3.
      destruct (vibeCheckRerank_log
                  (rerankerInput (top :: rest) topic modifiers) log)
        as (rr & Hrr & _).
      rewrite Hrr. unfold ret.
      set (w := findWinner (top :: rest)
                  (strOr (winnerId rr) (vc_videoId top)) top).
      assert (Hw : In w (top :: rest))
        by (apply findWinner_In; left; reflexivity).
      destruct (Hfrom w Hw) as (v & Hv & Hwv).
      eexists _, _. split; [reflexivity|].
      split; [destruct (gemini_api_key world (length log)); auto|].
      split; [intros Hp; rewrite Hlen in H3; lia|].
      split; [intros ->; reflexivity|].
      exists v. split; [exact Hv|]. rewrite Hwv. reflexivity.
    + apply Nat.leb_gt in H3. unfold ret.
      destruct (Hfrom top (or_introl eq_refl)) as (v & Hv & Hwv).
      exists (Some (entryOfWinner
                      (findWinner (top :: rest) (vc_videoId top) top)
                      topic pos)), [].
      rewrite app_nil_r, findWinner_top.
      split; [reflexivity|]. split; [auto|]. split; [auto|]. split; [auto|].
      exists v. split; [exact Hv|]. rewrite Hwv. reflexivity.
Qed.

Lemma durationPool_In candidates modifiers v :
  In v (durationPool candidates modifiers) ->
  In v candidates
  /\ (minSeconds (duration modifiers) <= seconds (vc_duration v)
        <= maxSeconds (duration modifiers)
      \/ (durationWindow candidates modifiers = []
          /\ 60 <= seconds (vc_duration v))).
Proof.
  unfold durationPool.
  destruct (durationWindow candidates modifiers) as [|w ws] eqn:Hw.
  - cbn [length Nat.ltb Nat.leb]. unfold filterByDuration.
    intros Hv. apply filter_In in Hv. destruct Hv as (Hin & Hge).
    split; [exact Hin|]. right. split; [reflexivity|]. lia.
  - replace (0 <? length (w :: ws))%nat with true by reflexivity.
    rewrite <- Hw. unfold durationWindow, filterByDuration.
    intros Hv. apply filter_In in Hv. destruct Hv as (Hv & Hmax).
    apply filter_In in Hv. destruct Hv as (Hin & Hmin).
    split; [exact Hin|]. left. lia.
Qed.

Lemma durationPool_nil candidates modifiers v :
  durationPool candidates modifiers = [] -> In v candidates ->
  seconds (vc_duration v) < 60.
Proof.
  unfold durationPool.
  destruct (durationWindow candidates modifiers) as [|w ws].
  - cbn [length Nat.ltb Nat.leb]. unfold filterByDuration. intros Hnil Hin.
    destruct (seconds (vc_duration v) >=? 60) eqn:Hge; [|lia].
    assert (Hv : In v (List.filter
                         (fun v => seconds (vc_duration v) >=? 60) candidates))
      by (apply filter_In; auto).
    rewrite Hnil in Hv. destruct Hv.
  - replace (0 <? length (w :: ws))%nat with true by reflexivity.
    discriminate.
Qed.

(** X5 -- what [pickBestVideo] returns.  It never throws.  An entry it
    returns copies the id, the title and the duration of one of the first 15
    raw results, carries the caller's position and topic, and lasts within
    the caller's duration window, or at least 60 seconds when no candidate is
    in the window.  It returns null only when each of the first 15 results
    is shorter than 60 seconds. *)
Theorem pickBestVideo_choice rawVideos topic modifiers pos log :
  exists r calls,
    pickBestVideo world rawVideos topic modifiers pos log
    = (Returns r, log ++ calls)
    /\ match r with
       | Some e =>
         exists raw,
           In raw (take 15 rawVideos)
           /\ videoId e = vr_videoId raw
           /\ title e = vr_title raw
           /\ durationSeconds e = seconds (vc_duration (toCandidate raw))
           /\ position e = pos /\ topicMatched e = topic
           /\ source e = gap_fill
           /\ (minSeconds (duration modifiers) <= durationSeconds e
                 <= maxSeconds (duration modifiers)
               \/ (durationWindow (List.map toCandidate (take 15 rawVideos))
                     modifiers = []
                   /\ 60 <= durationSeconds e))
       | None =>
         forall raw, In raw (take 15 rawVideos) ->
           seconds (vc_duration (toCandidate raw)) < 60
       end.
Proof.
  destruct (pickBestVideo_full rawVideos topic modifiers pos log)
    as (r & calls & Hp & _ & _ & _ & Hr).
  exists r, calls. split; [exact Hp|].
  destruct r as [e|].
  - destruct Hr as (v & Hv & ->).
    apply durationPool_In in Hv. destruct Hv as (Hin & Hdur).
    apply in_map_iff in Hin. destruct Hin as (raw & <- & Hraw).
    exists raw. cbn [entryOfWinner videoId title durationSeconds position
                       topicMatched source].
    repeat split; auto.
  - intros raw Hraw. eapply durationPool_nil; [exact Hr|].
    apply in_map. exact Hraw.
Qed.

Lemma geminiCalls_app l1 l2 :
  geminiCalls (l1 ++ l2) = geminiCalls l1 ++ geminiCalls l2.
Proof. unfold geminiCalls. apply omap_app. Qed.

Lemma playlistFetches_app l1 l2 :
  playlistFetches (l1 ++ l2) = playlistFetches l1 ++ playlistFetches l2.
Proof. unfold playlistFetches. apply omap_app. Qed.

Lemma searchForTopic_full topic subject modifiers pos log :
  exists r calls,
    searchForTopic world topic subject modifiers pos log
    = (Returns r, log ++ calls)
    /\ topicRun world topic modifiers pos r calls.
Proof.
  unfold searchForTopic, bind, tryCatch, callSearch, ret.
  set (q1 := firstQuery world topic subject modifiers).
  set (q2 := fallbackQuery world topic modifiers).
  assert (Hpick : forall vs calls0,
            calls0 = [CSearch q1] \/ calls0 = [CSearch q1; CSearch q2] ->
            exists r calls,
              pickBestVideo world vs topic modifiers pos (log ++ calls0)
              = (Returns r, log ++ calls)
              /\ topicRun world topic modifiers pos r calls).
  { intros vs calls0 Hc0.
    destruct (pickBestVideo_full vs topic modifiers pos (log ++ calls0))
      as (r & calls & Hp & Hc & _ & Hkey & Hr).
    exists r, (calls0 ++ calls). rewrite app_assoc.
    split; [exact Hp|]. unfold topicRun.
    rewrite searchQueries_app, geminiCalls_app, playlistFetches_app.
    rewrite !length_app.
    assert (He : forall e, r = Some e ->
              position e = pos /\ topicMatched e = topic
              /\ source e = gap_fill
              /\ (minSeconds (duration modifiers) <= durationSeconds e
                    <= maxSeconds (duration modifiers)
                  \/ 60 <= durationSeconds e)).
    { intros e ->. destruct Hr as (v & Hv & ->).
      apply durationPool_In in Hv. destruct Hv as (_ & Hdur).
      cbn [entryOfWinner position topicMatched source durationSeconds].
      repeat split; auto. destruct Hdur as [H|[_ H]]; auto. }
    assert (Hk : (forall n, gemini_api_key world n = false) ->
                 geminiCalls calls0 ++ geminiCalls calls = []).
    { intros Hno. rewrite (Hkey (Hno _)).
      destruct Hc0 as [-> | ->]; reflexivity. }
    destruct Hc0 as [-> | ->]; destruct Hc as [-> | ->]; simpl in *;
      (split; [lia|]); (split; [lia|]); (split; [reflexivity|]);
      (split; [exact Hk|exact He]). }
  assert (Hnull : forall calls0,
            calls0 = [CSearch q1] \/ calls0 = [CSearch q1; CSearch q2] ->
            exists (r : option PlaylistEntry) calls,
              (Returns (@None PlaylistEntry), log ++ calls0)
              = (Returns r, log ++ calls)
              /\ topicRun world topic modifiers pos r calls).
  { intros calls0 Hc0. exists None, calls0. split; [reflexivity|].
    unfold topicRun.
    destruct Hc0 as [-> | ->]; simpl;
      (split; [lia|]); (split; [lia|]); (split; [reflexivity|]);
      (split; [reflexivity|discriminate]). }
  destruct (yt_search world (length log) q1) as [|result];
    [apply Hnull; auto|].
  destruct (default [] (sr_videos result)) as [|v vs].
  - cbn [length Nat.eqb].
    destruct (yt_search world _ q2) as [|fb].
    { rewrite <- app_assoc. apply Hnull. auto. }
    destruct (sr_videos fb) as [[|w ws]|].
    + rewrite <- app_assoc. apply Hnull. auto.
    + rewrite <- app_assoc. apply Hpick. auto.
    + rewrite <- app_assoc. apply Hnull. auto.
  - cbn [length Nat.eqb]. apply Hpick. auto.
Qed.


End ResolverExtras.

(** ** The Gap Filler and the Scratch Builder: order, origin and cost *)

Section BuilderExtras.
Variable world : World.

Lemma loopCost_nil : loopCost world 0 [].
Proof. unfold loopCost. simpl. auto with lia. Qed.

Lemma loopCost_step topic modifiers pos r calls n calls' :
  topicRun world topic modifiers pos r calls ->
  loopCost world n calls' ->
  loopCost world (S n) (calls ++ calls').
Proof.
  unfold topicRun, loopCost.
  intros (Hs & Hg & Hp & Hk & _) (Hs' & Hg' & Hp' & Hk').
  rewrite searchQueries_app, geminiCalls_app, playlistFetches_app.
  rewrite !length_app, Hp, Hp'.
  split; [lia|]. split; [lia|]. split; [reflexivity|].
  intros Hno. rewrite (Hk Hno), (Hk' Hno). reflexivity.
Qed.

Lemma loopCost_calls n calls :
  loopCost world n calls -> (length calls <= 3 * n)%nat.
Proof.
  unfold loopCost. intros (Hs & Hg & Hp & _).
  assert (H : (length calls
               = length (searchQueries calls) + length (geminiCalls calls)
                 + length (playlistFetches calls))%nat).
  { clear. induction calls as [|c calls IH]; [reflexivity|].
    destruct c; simpl; rewrite IH; unfold searchQueries, geminiCalls,
      playlistFetches; lia. }
  rewrite H, Hp. simpl. lia.
Qed.

Lemma select_positions_sorted (ok : list bool) :
  forall k n es,
    List.map position es = select ok (seq k n) ->
    Forall (fun e => (k <= position e)%nat) es
    /\ Sorted (precedes byPosition) es.
Proof.
  induction ok as [|b ok IH]; intros k n es Hes.
  - destruct es; [|discriminate]. split; constructor.
  - destruct n as [|n]; [destruct es; [|discriminate]; split; constructor|].
    cbn [seq select] in Hes. destruct b.
    + destruct es as [|e es]; [discriminate|]. injection Hes as He Hes.
      destruct (IH (S k) n es Hes) as (Hge & Hso).
      split.
      * constructor; [lia|]. eapply Forall_impl; [exact Hge|]. simpl.
        intros; lia.
      * constructor; [exact Hso|].
        destruct Hge as [|e' es' He' _]; constructor.
        unfold precedes, byPosition. lia.
    + destruct (IH (S k) n es Hes) as (Hge & Hso).
      split; [|exact Hso]. eapply Forall_impl; [exact Hge|]. simpl.
      intros; lia.
Qed.

Lemma scratch_trace subject modifiers topics :
  forall i entries failed log,
    exists es fs calls ok,
      scratchLoop world topics i subject modifiers entries failed log
      = (Returns (entries ++ es, failed ++ fs), log ++ calls)
      /\ length ok = length topics
      /\ List.map topicMatched es = select ok topics
      /\ List.map position es = select ok (seq i (length topics))
      /\ fs = select (List.map negb ok) topics
      /\ Forall (searched modifiers) es
      /\ loopCost world (length topics) calls.
Proof.
  induction topics as [|t topics IH]; intros i entries failed log.
  - exists [], [], [], []. rewrite !app_nil_r. simpl.
    do 5 (split; [reflexivity|]).
    split; [constructor|apply loopCost_nil].
  - cbn [scratchLoop].
    destruct (searchForTopic_full world t subject modifiers i log)
      as (r & calls & Hs & Hrun).
    rewrite (bind_returns _ _ _ _ _ Hs).
    pose proof Hrun as (_ & _ & _ & _ & He).
    destruct r as [e|].
    + destruct (He e eq_refl) as (Hpos & Htop & Hsrc & Hdur).
      destruct (IH (S i) (entries ++ [e]) failed (log ++ calls))
        as (es & fs & calls' & ok & Hsc & Hlen & Htops & Hposs & Hfs & Hall
            & Hcost).
      rewrite <- (app_assoc log) in Hsc.
      rewrite <- (app_assoc entries) in Hsc. cbn [app] in Hsc.
      exists (e :: es), fs, (calls ++ calls'), (true :: ok).
      rewrite Hsc. cbn [length List.map select seq negb].
      rewrite Hlen, Htops, Hposs, Hpos, Htop, <- Hfs.
      do 5 (split; [reflexivity|]).
      split; [constructor; [split; assumption|exact Hall]|].
      eapply loopCost_step; eassumption.
    + destruct (IH (S i) entries (failed ++ [t]) (log ++ calls))
        as (es & fs & calls' & ok & Hsc & Hlen & Htops & Hposs & Hfs & Hall
            & Hcost).
      rewrite <- (app_assoc log) in Hsc.
      rewrite <- (app_assoc failed) in Hsc. cbn [app] in Hsc.
      exists es, (t :: fs), (calls ++ calls'), (false :: ok).
      rewrite Hsc. cbn [length List.map select seq negb].
      rewrite Hlen, Htops, Hposs, <- Hfs.
      do 5 (split; [reflexivity|]).
      split; [exact Hall|].
      eapply loopCost_step; eassumption.
Qed.

(** X3 -- the Scratch Builder keeps the order of the syllabus.  There is a
    mask over the table of contents such that the topics of the entries are
    the topics selected by the mask, in order, the failed topics are the
    others, in order, and the position of each entry is the index of its
    topic in the table of contents.  Every entry was found by search and
    lasts within the duration window or at least 60 seconds. *)
Theorem buildFromScratch_selection toc subject modifiers log :
  exists r calls ok,
    buildFromScratch world toc subject modifiers log
    = (Returns r, log ++ calls)
    /\ length ok = length toc
    /\ List.map topicMatched (entries r) = select ok toc
    /\ gapsFailed r = select (List.map negb ok) toc
    /\ List.map position (entries r) = select ok (seq 0 (length toc))
    /\ Forall (searched modifiers) (entries r).
Proof.
  unfold buildFromScratch.
  destruct (scratch_trace subject modifiers toc 0%nat [] [] log)
    as (es & fs & calls & ok & Hsc & Hlen & Htops & Hposs & Hfs & Hall & _).
  rewrite (bind_returns _ _ _ _ _ Hsc). unfold ret.
  eexists _, calls, ok. split; [reflexivity|].
  cbn [entries gapsFailed fst snd app]. auto.
Qed.

Lemma mapTopic_cases items k t :
  match bestMatch (fuse_search world _ fst items t) with
  | Some (it, s) =>
    mapTopic world items k t
    = {| tm_topic := t; tm_position := k; anchorVideo := Some (snd it);
         isGap := false; matchScore := Some s |}
  | None =>
    mapTopic world items k t
    = {| tm_topic := t; tm_position := k; anchorVideo := None;
         isGap := true; matchScore := None |}
  end.
Proof. unfold mapTopic. destruct (bestMatch _) as [[it s]|]; reflexivity. Qed.

Lemma fill_trace anchor subject modifiers toc :
  let items := List.map (fun v => (av_title v, v)) (videos anchor) in
  forall k failed (ge : gmap nat PlaylistEntry) log,
    (forall p, (k <= p)%nat -> ge !! p = None) ->
    exists fs (ge' : gmap nat PlaylistEntry) calls es ok,
      fillLoop world
        (List.filter isGap (imap (fun i => mapTopic world items (k + i)) toc))
        subject modifiers failed ge log
      = (Returns (failed ++ fs, ge'), log ++ calls)
      /\ (forall p, (p < k)%nat -> ge' !! p = ge !! p)
      /\ omap (pushed anchor ge')
           (imap (fun i => mapTopic world items (k + i)) toc) = es
      /\ length ok = length toc
      /\ List.map topicMatched es = select ok toc
      /\ List.map position es = select ok (seq k (length toc))
      /\ fs = select (List.map negb ok) toc
      /\ Forall (fun e => fromAnchor world anchor e
                          \/ fromSearch world anchor modifiers e) es
      /\ loopCost world
           (length (List.filter isGap
                      (imap (fun i => mapTopic world items (k + i)) toc)))
           calls.
Proof.
  intros items.
  induction toc as [|t toc IH]; intros k failed ge log Hfresh.
  - exists [], ge, [], [], []. rewrite !app_nil_r. simpl.
    split; [reflexivity|]. split; [auto|].
    do 4 (split; [reflexivity|]). split; [reflexivity|].
    split; [constructor|apply loopCost_nil].
  - rewrite imap_mapTopic_cons.
    pose proof (mapTopic_cases items k t) as Hm.
    destruct (bestMatch (fuse_search world _ fst items t)) as [[it s]|] eqn:Hb;
      rewrite Hm; cbn [List.filter isGap].
    + destruct (IH (S k) failed ge log)
        as (fs & ge' & calls & es & ok & Hf & Hkeep & Hom & Hlen & Htops
            & Hposs & Hfs & Hall & Hcost).
      { intros p Hp. apply Hfresh. lia. }
      eexists fs, ge', calls, (_ :: es), (true :: ok).
      split; [exact Hf|]. split; [intros p Hp; apply Hkeep; lia|].
      split; [rewrite omap_cons'; cbn [pushed isGap anchorVideo];
              rewrite Hom; reflexivity|].
      cbn [length List.map select seq negb anchorEntry topicMatched position
             tm_topic tm_position].
      rewrite Hlen, Htops, Hposs, <- Hfs.
      do 4 (split; [reflexivity|]).
      split; [|exact Hcost].
      constructor; [|exact Hall]. left. unfold fromAnchor.
      cbn [anchorEntry source channelName topicMatched videoId title
             durationSeconds durationDisplay tm_topic].
      split; [reflexivity|]. split; [reflexivity|].
      exists it, s. fold items. rewrite Hb. auto.
    + cbn [fillLoop tm_topic tm_position length].
      destruct (searchForTopic_full world t subject modifiers k log)
        as (r & calls & Hs & Hrun).
      rewrite (bind_returns _ _ _ _ _ Hs).
      pose proof Hrun as (_ & _ & _ & _ & He).
      destruct r as [e|].
      * destruct (He e eq_refl) as (Hpos & Htop & Hsrc & Hdur).
        destruct (IH (S k) failed (<[k := e]> ge) (log ++ calls))
          as (fs & ge' & calls' & es & ok & Hf & Hkeep & Hom & Hlen & Htops
              & Hposs & Hfs & Hall & Hcost).
        { intros p Hp. rewrite lookup_insert_ne by lia. apply Hfresh. lia. }
        rewrite <- (app_assoc log) in Hf.
        exists fs, ge', (calls ++ calls'), (e :: es), (true :: ok).
        split; [exact Hf|].
        split; [intros p Hp; rewrite Hkeep by lia;
                apply lookup_insert_ne; lia|].
        split; [rewrite omap_cons'; cbn [pushed isGap anchorVideo tm_position];
                rewrite (Hkeep k) by lia; rewrite lookup_insert_eq, Hom;
                reflexivity|].
        cbn [length List.map select seq negb].
        rewrite Hlen, Htops, Hposs, Hpos, Htop, <- Hfs.
        do 4 (split; [reflexivity|]).
        split; [|eapply loopCost_step; eassumption].
        constructor; [|exact Hall]. right. unfold fromSearch, searched.
        rewrite Htop. fold items. auto.
      * destruct (IH (S k) (failed ++ [t]) ge (log ++ calls))
          as (fs & ge' & calls' & es & ok & Hf & Hkeep & Hom & Hlen & Htops
              & Hposs & Hfs & Hall & Hcost).
        { intros p Hp. apply Hfresh. lia. }
        rewrite <- (app_assoc log) in Hf.
        rewrite <- (app_assoc failed) in Hf. cbn [app] in Hf.
        exists (t :: fs), ge', (calls ++ calls'), es, (false :: ok).
        split; [exact Hf|]. split; [intros p Hp; apply Hkeep; lia|].
        split; [rewrite omap_cons'; cbn [pushed isGap anchorVideo tm_position];
                rewrite (Hkeep k) by lia; rewrite Hfresh by lia; exact Hom|].
        cbn [length List.map select seq negb].
        rewrite Hlen, Htops, Hposs, <- Hfs.
        do 4 (split; [reflexivity|]).
        split; [exact Hall|eapply loopCost_step; eassumption].
Qed.

Lemma Forall_imap {A B} (P : A -> Prop) (Q : B -> Prop) (l : list A) :
  forall g : nat -> A -> B,
    (forall i x, P x -> Q (g i x)) -> Forall P l -> Forall Q (imap g l).
Proof.
  induction l as [|x l IH]; intros g Hg Hl; [constructor|].
  inversion Hl; subst. cbn [imap]. constructor; [auto|].
  apply IH; [intros; apply Hg; assumption|assumption].
Qed.

Lemma map_imap_setPosition {B} (f : PlaylistEntry -> B) l :
  (forall i e, f (setPosition i e) = f e) ->
  List.map f (imap setPosition l) = List.map f l.
Proof.
  intros Hf. generalize setPosition Hf. clear Hf.
  induction l as [|x l IH]; intros g Hg; [reflexivity|].
  cbn [imap List.map]. rewrite Hg. f_equal. apply IH.
  intros; apply Hg.
Qed.

(** The result of [fillGaps], as the trace of its loop shows it. *)
Lemma fillGaps_trace anchor toc subject modifiers log :
  exists r calls es ok,
    fillGaps world anchor toc subject modifiers log
    = (Returns r, log ++ calls)
    /\ entries r = imap setPosition es
    /\ length ok = length toc
    /\ List.map topicMatched es = select ok toc
    /\ List.map position es = select ok (seq 0 (length toc))
    /\ gapsFailed r = select (List.map negb ok) toc
    /\ Forall (fun e => fromAnchor world anchor e
                        \/ fromSearch world anchor modifiers e) es
    /\ loopCost world (gapsFound r) calls.
Proof.
  unfold fillGaps.
  set (ms := mapTopicsToAnchor world toc (videos anchor)).
  set (items := List.map (fun v => (av_title v, v)) (videos anchor)).
  assert (Hms : ms = imap (fun i => mapTopic world items (0 + i)) toc)
    by reflexivity.
  destruct (fill_trace anchor subject modifiers toc 0%nat [] ∅ log)
    as (fs & ge' & calls & es & ok & Hf & _ & Hom & Hlen & Htops & Hposs
        & Hfs & Hall & Hcost).
  { intros. apply lookup_empty. }
  fold items in Hf, Hom, Hcost. rewrite <- Hms in Hf, Hom, Hcost.
  rewrite (bind_returns _ _ _ _ _ Hf). unfold ret. cbn [fst snd app].
  eexists _, calls, es, ok. split; [reflexivity|].
  cbn [entries gapsFailed gapsFound].
  destruct (select_positions_sorted ok 0 (length toc) es Hposs) as (_ & Hso).
  split; [unfold resequence; rewrite Hom, sortBy_of_Sorted by exact Hso;
          reflexivity|].
  auto 10.
Qed.



(** X1 -- an anchor that matches every topic needs no search.  When no
    mapping is a gap, [fillGaps] makes no external call at all and returns
    one anchor entry for each topic, in the order of the syllabus, at the
    positions 0, 1, 2, ...; no gap is found, filled or failed. *)
Theorem fillGaps_full_cover anchor toc subject modifiers log :
  Forall (fun m => isGap m = false)
    (mapTopicsToAnchor world toc (videos anchor)) ->
  exists r,
    fillGaps world anchor toc subject modifiers log = (Returns r, log)
    /\ List.map topicMatched (entries r) = toc
    /\ List.map position (entries r) = seq 0 (length toc)
    /\ Forall (fromAnchor world anchor) (entries r)
    /\ gapsFound r = 0%nat /\ gapsFilled r = 0%nat /\ gapsFailed r = [].
Proof.
  intros Hall.
  assert (Hnone : List.filter isGap
                    (mapTopicsToAnchor world toc (videos anchor)) = []).
  { apply filter_none. intros m Hm. rewrite Forall_forall in Hall.
    apply Hall, list_elem_of_In, Hm. }
  unfold fillGaps. rewrite Hnone. cbn [fillLoop]. unfold bind, ret.
  cbn [fst snd length]. eexists. split; [reflexivity|].
  cbn [entries gapsFound gapsFilled gapsFailed].
  rewrite map_size_empty.
  destruct (fillGaps_trace anchor toc subject modifiers log)
    as (r & calls & es & ok & Hf & He & Hlen & Htops & Hposs & Hfs & Hfrom
        & _).
  unfold fillGaps in Hf. rewrite Hnone in Hf. cbn [fillLoop] in Hf.
  unfold bind, ret in Hf. cbn [fst snd length] in Hf.
  injection Hf as <- Hlog. cbn [entries gapsFailed] in He, Hfs.
  rewrite He.
  assert (Hok : ok = List.map (fun _ => true) toc).
  { clear - Hlen Hfs. revert toc Hlen Hfs.
    induction ok as [|b ok IH]; intros [|t toc] Hlen Hfs; try discriminate;
      [reflexivity|].
    destruct b; cbn [List.map negb select] in Hfs; [|discriminate].
    cbn [List.map]. f_equal. apply IH; [simpl in Hlen; lia|exact Hfs]. }
  assert (Hsel : forall (A : Type) (l : list A),
            length l = length toc ->
            select (List.map (fun _ => true) toc) l = l).
  { clear. induction toc as [|t toc IH]; intros A [|x l] Hl;
      try discriminate; [reflexivity|].
    cbn [List.map select]. f_equal. apply IH. simpl in Hl. lia. }
  rewrite Hok in Htops, Hposs.
  rewrite (Hsel _ _ eq_refl) in Htops.
  rewrite Hsel in Hposs by apply length_seq.
  split; [rewrite map_imap_setPosition by reflexivity; exact Htops|].
  split.
  - assert (Hn : length es = length toc)
      by (rewrite <- (length_map position), Hposs; apply length_seq).
    rewrite <- Hn.
    change (imap setPosition es)
      with (imap (fun i => setPosition (0 + i)) es).
    apply imap_setPosition_positions.
  - split; [|auto].
    assert (Hes : Forall (fromAnchor world anchor) es).
    { apply List.Forall_forall. intros e Hin.
      rewrite List.Forall_forall in Hfrom.
      destruct (Hfrom e Hin) as [H|(_ & Hb)]; [exact H|]. exfalso.
      assert (Ht : In (topicMatched e) toc)
        by (rewrite <- Htops; apply in_map; exact Hin).
      apply list_elem_of_In, list_elem_of_lookup in Ht as [j Hj].
      rewrite Forall_forall in Hall.
      assert (Hm : isGap (mapTopic world
                            (List.map (fun v => (av_title v, v))
                               (videos anchor)) j (topicMatched e)) = false).
      { apply Hall. unfold mapTopicsToAnchor.
        apply elem_of_lookup_imap. exists j, (topicMatched e). auto. }
      unfold mapTopic in Hm. rewrite Hb in Hm. discriminate. }
    eapply Forall_imap; [|exact Hes]. intros i e H. exact H.
Qed.

End BuilderExtras.

Lemma fillGaps_full_cover_witness :
  Forall (fun m => isGap m = false)
    (mapTopicsToAnchor sparseCatalog sparseTopics (videos coveringAnchor))
  /\ exists r,
       fillGaps sparseCatalog coveringAnchor sparseTopics
         (js "Data Structures") fromScratchModifiers []
       = (Returns r, [])
       /\ List.map topicMatched (entries r) = sparseTopics
       /\ gapsFound r = 0%nat.
Proof.
  assert (H : Forall (fun m => isGap m = false)
                (mapTopicsToAnchor sparseCatalog sparseTopics
                   (videos coveringAnchor)))
    by (vm_compute; repeat constructor).
  split; [exact H|].
  destruct (fillGaps_full_cover sparseCatalog coveringAnchor sparseTopics
              (js "Data Structures") fromScratchModifiers [] H)
    as (r & Hr & Ht & _ & _ & Hg & _).
  exists r. auto.
Defined.

(** X13 -- with an anchor that matches no topic the Gap Filler is the
    Scratch Builder followed by a renumbering: both make the same external
    calls, report the same failed topics and counts, and the entries of
    [fillGaps] are those of [buildFromScratch] with the positions replaced
    by 0, 1, 2, ... *)
Theorem fillGaps_without_match (world : World) anchor toc subject modifiers
  log :
  Forall (fun m => isGap m = true)
    (mapTopicsToAnchor world toc (videos anchor)) ->
  exists filled scratch calls,
    fillGaps world anchor toc subject modifiers log
    = (Returns filled, log ++ calls)
    /\ buildFromScratch world toc subject modifiers log
       = (Returns scratch, log ++ calls)
    /\ entries filled = imap setPosition (entries scratch)
    /\ gapsFailed filled = gapsFailed scratch
    /\ gapsFound filled = gapsFound scratch
    /\ gapsFilled filled = gapsFilled scratch.
Proof. apply fillGaps_is_scratch_renumbered. Qed.

Lemma fillGaps_without_match_witness :
  Forall (fun m => isGap m = true)
    (mapTopicsToAnchor sparseCatalog sparseTopics (videos unrelatedAnchor))
  /\ exists filled scratch calls,
       fillGaps sparseCatalog unrelatedAnchor sparseTopics
         (js "Data Structures") fromScratchModifiers []
       = (Returns filled, [] ++ calls)
       /\ buildFromScratch sparseCatalog sparseTopics (js "Data Structures")
            fromScratchModifiers []
          = (Returns scratch, [] ++ calls)
       /\ entries filled = imap setPosition (entries scratch).
Proof.
  assert (H : Forall (fun m => isGap m = true)
                (mapTopicsToAnchor sparseCatalog sparseTopics
                   (videos unrelatedAnchor)))
    by (vm_compute; repeat constructor).
  split; [exact H|].
  destruct (fillGaps_without_match sparseCatalog unrelatedAnchor sparseTopics
              (js "Data Structures") fromScratchModifiers [] H)
    as (f & s & calls & Hf & Hs & He & _).
  exists f, s, calls. auto.
Defined.

(** ** The density score and the ranking *)

Section ScorerExtras.
Variable toLowerCase : jsstring -> jsstring.

Lemma bump_densityInv lo hi n b w f d :
  densityInv lo hi n d ->
  densityInv (Z.min lo (lo + w)) (Z.max hi (hi + w)) (S n) (bump b w f d).
Proof.
  unfold densityInv, bump. intros (Hs & Hl & Hz).
  destruct b; cbn [score flags].
  - split; [lia|]. split; [rewrite length_app; simpl; lia|].
    intros H. apply app_eq_nil in H. destruct H as (_ & H). discriminate.
  - split; [lia|]. split; [lia|exact Hz].
Qed.

(** X8 -- the range of the density score.  Whatever the video, the score
    lies between -160 and 190, at most nine flags are raised, and a video
    that raises no flag scores 0. *)
Theorem calculateDensityScore_range video :
  let d := calculateDensityScore toLowerCase video in
  -160 <= score d <= 190
  /\ (length (flags d) <= 9)%nat
  /\ (flags d = [] -> score d = 0).
Proof.
  unfold calculateDensityScore, negativeSignals, positiveSignals.
  cbv zeta.
  pose proof (conj (conj (Z.le_refl 0) (Z.le_refl 0))
                (conj (Nat.le_refl 0) (fun _ => eq_refl))
              : densityInv 0 0 0 {| score := 0; flags := [] |}) as H.
  destruct (seconds (vc_duration video) >? 900);
    [|destruct (seconds (vc_duration video) >? 600)];
    repeat match goal with
           | H : densityInv ?lo ?hi ?n ?d |- context [bump ?b ?w ?f ?d] =>
             pose proof (bump_densityInv lo hi n b w f d H); clear H
           end;
    match goal with
    | H : densityInv _ _ _ _ |- _ => destruct H as (Hs & Hl & Hz)
    end;
    unfold WEIGHTS.GITHUB_BOOST, WEIGHTS.DOCUMENTATION_BOOST,
      WEIGHTS.ACADEMIC_BOOST, WEIGHTS.LONG_VIDEO_BOOST,
      WEIGHTS.MEDIUM_VIDEO_BOOST, WEIGHTS.CLICKBAIT_PENALTY,
      WEIGHTS.EMPTY_DESC_PENALTY in *;
    (split; [lia|]); (split; [lia|exact Hz]).
Qed.

Lemma insertBy_Permutation {A} (cmp : A -> A -> Z) x l :
  insertBy cmp x l ≡ₚ x :: l.
Proof.
  induction l as [|y l IH]; cbn [insertBy]; [reflexivity|].
  destruct (cmp x y <=? 0); [reflexivity|].
  rewrite IH. apply Permutation_swap.
Qed.

Lemma sortBy_Permutation {A} (cmp : A -> A -> Z) l : sortBy cmp l ≡ₚ l.
Proof.
  induction l as [|x l IH]; [reflexivity|].
  unfold sortBy. cbn [foldr]. fold (sortBy cmp l).
  rewrite insertBy_Permutation, IH. reflexivity.
Qed.

(** X9 -- [rankByDensity] is a stable descending sort of the scored videos:
    its output is a permutation of the input videos, each with its density
    score and flags written, in non-increasing order of score, and videos
    with equal scores stay in the order of the input. *)
Theorem rankByDensity_stable_sort videos :
  rankByDensity toLowerCase videos ≡ₚ List.map (scored toLowerCase) videos
  /\ Sorted (fun a b => numOr0 (densityScore b) <= numOr0 (densityScore a))
       (rankByDensity toLowerCase videos)
  /\ (forall s,
        List.filter (fun v => numOr0 (densityScore v) =? s)
          (rankByDensity toLowerCase videos)
        = List.filter (fun v => numOr0 (densityScore v) =? s)
            (List.map (scored toLowerCase) videos))
  /\ Forall (fun v => densityScore v
                      = Some (score (calculateDensityScore toLowerCase v)))
       (rankByDensity toLowerCase videos).
Proof.
  split; [apply sortBy_Permutation|].
  split; [apply rankByDensity_sorted|].
  split; [intros s; apply rankByDensity_stable|].
  apply List.Forall_forall. intros x Hx.
  apply rankByDensity_scored in Hx. destruct Hx as [v ->]. reflexivity.
Qed.

End ScorerExtras.

(** ** The Anchor Hunter: totality, cost and the anchors it builds *)

Section HunterExtras.
Variable world : World.

Lemma getPlaylistVideos_log id log :
  exists vids,
    getPlaylistVideos world id log = (Returns vids, log ++ [CPlaylist id]).
Proof.
  unfold getPlaylistVideos, tryCatch, bind, callPlaylist, ret.
  destruct (yt_playlist world (length log) id) as [|[vs|]]; eauto.
Qed.

Lemma anchorOf_anchorFor toc playlist vids :
  (3 <= length vids)%nat ->
  anchorFor world toc
    (anchorOf playlist vids (scorePlaylistCoverage world vids toc)).
Proof.
  intros H3. unfold anchorFor, anchorOf, scorePlaylistCoverage.
  cbn [videoCount videos matchedTopics unmatchedTopics coverageScore
         cs_coverageScore cs_matchedTopics cs_unmatchedTopics].
  set (mk := fun (i : nat) (v : PlaylistVideoItem) => _).
  assert (Htitles : List.map av_title (imap mk vids) = List.map pv_title vids).
  { change (List.map av_title (imap mk vids)) with (av_title <$> imap mk vids).
    rewrite fmap_imap. apply imap_const. }
  assert (Hpos : forall g : nat -> nat,
            List.map av_position (imap (fun i => mk (g i)) vids)
            = List.map g (seq 0 (length vids))).
  { clear. induction vids as [|v vs IH]; intros g; [reflexivity|].
    cbn [imap List.map length seq]. f_equal.
    rewrite <- seq_shift, List.map_map. apply (IH (fun i => g (S i))). }
  rewrite Htitles, length_imap.
  split; [reflexivity|]. split; [exact H3|].
  split; [|auto].
  rewrite <- (List.map_id (seq 0 (length vids))).
  apply (Hpos (fun i => i)).
Qed.

Lemma huntLoop_trace toc playlists :
  forall h log,
    exists h' ids,
      huntLoop world playlists toc h log
      = (Returns h', log ++ List.map CPlaylist ids)
      /\ searches h' = (searches h + length ids)%nat
      /\ ids = take (length ids) (List.map listId playlists)
      /\ (forall a, bestAnchor h' = Some a ->
          bestAnchor h = Some a
          \/ (anchorFor world toc a /\ In (playlistId a) ids)).
Proof.
  induction playlists as [|playlist rest IH]; intros h log.
  - exists h, []. rewrite app_nil_r. cbn [huntLoop]. unfold ret.
    split; [reflexivity|]. split; [simpl; lia|]. split; [reflexivity|].
    auto.
  - cbn [huntLoop].
    destruct (getPlaylistVideos_log (listId playlist) log) as (vids & Hg).
    rewrite (bind_returns _ _ _ _ _ Hg).
    set (h1 := {| bestAnchor := bestAnchor h; bestScore := bestScore h;
                  searches := S (searches h) |}).
    assert (Hstep : forall h2,
              searches h2 = S (searches h) ->
              (forall a, bestAnchor h2 = Some a ->
                 bestAnchor h = Some a
                 \/ (anchorFor world toc a /\ playlistId a = listId playlist)) ->
              exists h' ids,
                huntLoop world rest toc h2 (log ++ [CPlaylist (listId playlist)])
                = (Returns h', log ++ List.map CPlaylist ids)
                /\ searches h' = (searches h + length ids)%nat
                /\ ids = take (length ids)
                           (List.map listId (playlist :: rest))
                /\ (forall a, bestAnchor h' = Some a ->
                    bestAnchor h = Some a
                    \/ (anchorFor world toc a /\ In (playlistId a) ids))).
    { intros h2 Hs2 Hb2.
      destruct (IH h2 (log ++ [CPlaylist (listId playlist)]))
        as (h' & ids & Hl & Hs & Hids & Hb).
      exists h', (listId playlist :: ids).
      rewrite <- (app_assoc log) in Hl. cbn [app] in Hl.
      split; [exact Hl|]. split; [rewrite Hs, Hs2; simpl; lia|].
      split; [cbn [length List.map take]; f_equal; exact Hids|].
      intros a Ha. destruct (Hb a Ha) as [H|(Hf & Hin)].
      - destruct (Hb2 a H) as [H'|(Hf & Hid)]; [left; exact H'|].
        right. split; [exact Hf|]. left. symmetry. exact Hid.
      - right. split; [exact Hf|]. right. exact Hin. }
    assert (Hstop : forall h2,
              searches h2 = S (searches h) ->
              (forall a, bestAnchor h2 = Some a ->
                 bestAnchor h = Some a
                 \/ (anchorFor world toc a /\ playlistId a = listId playlist)) ->
              exists h' ids,
                (Returns h2, log ++ [CPlaylist (listId playlist)])
                = (Returns h', log ++ List.map CPlaylist ids)
                /\ searches h' = (searches h + length ids)%nat
                /\ ids = take (length ids)
                           (List.map listId (playlist :: rest))
                /\ (forall a, bestAnchor h' = Some a ->
                    bestAnchor h = Some a
                    \/ (anchorFor world toc a /\ In (playlistId a) ids))).
    { intros h2 Hs2 Hb2. exists h2, [listId playlist].
      split; [reflexivity|]. split; [rewrite Hs2; simpl; lia|].
      split; [reflexivity|].
      intros a Ha. destruct (Hb2 a Ha) as [H'|(Hf & Hid)]; [left; exact H'|].
      right. split; [exact Hf|]. left. symmetry. exact Hid. }
    destruct (length vids <? 3)%nat eqn:H3.
    { apply Hstep; [reflexivity|]. intros a Ha. left. exact Ha. }
    apply Nat.ltb_ge in H3.
    pose proof (anchorOf_anchorFor toc playlist vids H3) as Hfor.
    destruct (js_gt (cs_coverageScore (scorePlaylistCoverage world vids toc))
                (bestScore h1)).
    + cbn [bestScore].
      destruct (js_ge _ (JFin 80)); unfold ret;
        [apply Hstop|apply Hstep]; try reflexivity;
        cbn [bestAnchor]; intros a [= <-]; right; split;
        [exact Hfor|reflexivity|exact Hfor|reflexivity].
    + destruct (js_ge (bestScore h1) (JFin 80)); unfold ret;
        [apply Hstop|apply Hstep]; try reflexivity;
        intros a Ha; left; exact Ha.
Qed.

Lemma foldl_channels (vs : list VideoResult) :
  forall acc,
    List.NoDup acc ->
    let step := fun channels video =>
                  match authorName (vr_author video) with
                  | Some n => setAdd channels n
                  | None => channels
                  end in
    List.NoDup (foldl step acc vs)
    /\ (forall n, In n (foldl step acc vs) ->
        In n acc
        \/ exists v, In v vs /\ authorName (vr_author v) = Some n).
Proof.
  induction vs as [|v vs IH]; intros acc Hacc step; cbn [foldl].
  - split; [exact Hacc|]. auto.
  - assert (Hnd : List.NoDup (step acc v)
                  /\ forall n, In n (step acc v) ->
                       In n acc \/ authorName (vr_author v) = Some n).
    { unfold step. destruct (authorName (vr_author v)) as [n|]; [|auto].
      unfold setAdd. destruct (bool_decide (n ∈ acc)) eqn:Hd; [auto|].
      apply bool_decide_eq_false in Hd. split.
      - apply NoDup_ListNoDup, NoDup_app.
        split; [apply NoDup_ListNoDup; exact Hacc|]. split.
        + intros x Hx Hx1.
          apply list_elem_of_singleton in Hx1. subst. contradiction.
        + apply NoDup_singleton.
      - intros m Hm. apply in_app_or in Hm. destruct Hm as [H|[<-|[]]]; auto. }
    destruct Hnd as (Hnd & Hfrom).
    destruct (IH (step acc v) Hnd) as (Hnd' & Hfrom').
    split; [exact Hnd'|]. intros n Hn.
    destruct (Hfrom' n Hn) as [H|(w & Hw & Hwn)].
    + destruct (Hfrom n H) as [H'|H']; [left; exact H'|].
      right. exists v. split; [left; reflexivity|exact H'].
    + right. exists w. split; [right; exact Hw|exact Hwn].
Qed.

Lemma authorName_nonempty a n : authorName a = Some n -> n <> [].
Proof.
  unfold authorName. destruct (a ≫= ra_name) as [[|c s]|]; intros [= <-].
  discriminate.
Qed.

(** The channel search of the fallback path: one search, never a throw, at
    most five distinct non-empty author names. *)
Lemma findPromisingChannels_spec subject suffix log :
  let query := js_trim world (subject ++ js " tutorial " ++ suffix) in
  exists names,
    findPromisingChannels world subject suffix log
    = (Returns names, log ++ [CSearch query])
    /\ List.NoDup names /\ (length names <= 5)%nat
    /\ match yt_search world (length log) query with
       | Throws => names = []
       | Returns result =>
         forall n, In n names ->
           n <> []
           /\ exists v, In v (take 10 (default [] (sr_videos result)))
                        /\ (vr_author v ≫= ra_name) = Some n
       end.
Proof.
  intros query. unfold findPromisingChannels, tryCatch, bind, callSearch, ret.
  fold query.
  destruct (yt_search world (length log) query) as [|result].
  - exists []. split; [reflexivity|]. split; [constructor|].
    split; [simpl; lia|reflexivity].
  - destruct (foldl_channels (take 10 (default [] (sr_videos result))) []
                (List.NoDup_nil _)) as (Hnd & Hfrom).
    cbv zeta in Hnd, Hfrom.
    eexists. split; [reflexivity|].
    split; [apply NoDup_ListNoDup; eapply sublist_NoDup;
            [apply NoDup_ListNoDup; exact Hnd|apply sublist_take]|].
    split; [rewrite length_take; lia|].
    intros n Hn.
    assert (Hin : In n (foldl
                          (fun channels video =>
                             match authorName (vr_author video) with
                             | Some n => setAdd channels n
                             | None => channels
                             end) []
                          (take 10 (default [] (sr_videos result))))).
    { apply list_elem_of_In.
      eapply elem_of_sublist; [apply list_elem_of_In; exact Hn|].
      apply sublist_take. }
    destruct (Hfrom n Hin) as [[]|(v & Hv & Hvn)].
    split; [eapply authorName_nonempty; exact Hvn|].
    exists v. split; [exact Hv|].
    unfold authorName in Hvn.
    destruct (vr_author v ≫= ra_name) as [[|c s]|]; congruence.
Qed.

Lemma calls_of_fetches ids :
  searchQueries (List.map CPlaylist ids) = []
  /\ geminiCalls (List.map CPlaylist ids) = []
  /\ playlistFetches (List.map CPlaylist ids) = ids.
Proof.
  unfold searchQueries, geminiCalls, playlistFetches.
  induction ids as [|i ids (Hs & Hg & Hp)]; [auto|].
  simpl. split; [exact Hs|]. split; [exact Hg|]. f_equal. exact Hp.
Qed.

Lemma hunt_trace subject toc suffix log :
  let query := js_trim world (subject ++ js " full course playlist " ++ suffix) in
  let query2 := js_trim world (subject ++ js " tutorial " ++ suffix) in
  exists res calls,
    huntForAnchor world subject toc suffix log = (Returns res, log ++ calls)
    /\ match yt_search world (length log) query with
       | Throws =>
         calls = [CSearch query]
         /\ res = {| found := false; anchor := None; fallbackChannels := None;
                     searchesPerformed := 0 |}
       | Returns sr =>
         match default [] (sr_playlists sr) with
         | [] =>
           exists names,
             findPromisingChannels world subject suffix
               (log ++ [CSearch query])
             = (Returns names, (log ++ [CSearch query]) ++ [CSearch query2])
             /\ calls = [CSearch query; CSearch query2]
             /\ res = {| found := false; anchor := None;
                         fallbackChannels := Some names;
                         searchesPerformed := 2 |}
         | playlists =>
           exists ids,
             calls = CSearch query :: List.map CPlaylist ids
             /\ ids = take (length ids) (List.map listId (take 5 playlists))
             /\ searchesPerformed res = S (length ids)
             /\ (forall a, anchor res = Some a ->
                 found res = true /\ fallbackChannels res = None
                 /\ anchorFor world toc a /\ In (playlistId a) ids)
             /\ (anchor res = None ->
                 found res = false
                 /\ fallbackChannels res
                    = Some (omap (fun p => authorName (pl_author p))
                              (take 3 playlists)))
         end
       end.
Proof.
  intros query query2.
  unfold huntForAnchor, tryCatch, bind, callSearch. fold query.
  destruct (yt_search world (length log) query) as [|sr].
  - unfold ret. eexists _, _. split; [reflexivity|]. auto.
  - destruct (default [] (sr_playlists sr)) as [|p ps] eqn:Hps.
    + cbn [length Nat.eqb].
      destruct (findPromisingChannels_spec subject suffix
                  (log ++ [CSearch query])) as (names & Hf & _).
      fold query2 in Hf. rewrite Hf. unfold ret. cbv beta iota.
      exists {| found := false; anchor := None;
                fallbackChannels := Some names; searchesPerformed := 2 |},
        [CSearch query; CSearch query2].
      split; [rewrite <- (app_assoc log); reflexivity|].
      exists names. auto.
    + replace (length (p :: ps) =? 0)%nat with false by reflexivity.
      destruct (huntLoop_trace toc (take 5 (p :: ps))
                  {| bestAnchor := None; bestScore := JFin 0; searches := 1 |}
                  (log ++ [CSearch query]))
        as (h' & ids & Hl & Hs & Hids & Hb).
      rewrite Hl. rewrite <- (app_assoc log). cbn [app searches] in *.
      destruct (bestAnchor h') as [a|] eqn:Ha.
      * destruct (Hb a eq_refl) as [H|(Hfor & Hin)]; [discriminate|].
        destruct (js_ge (bestScore h') minCoverage); unfold ret;
          eexists _, _; (split; [reflexivity|]); exists ids;
          (split; [reflexivity|]); (split; [exact Hids|]);
          cbn [searchesPerformed anchor found fallbackChannels];
          (split; [exact Hs|]).
        -- split; [|discriminate]. intros a' [= <-]. auto.
        -- split; [discriminate|]. auto.
      * unfold ret. eexists _, _. split; [reflexivity|]. exists ids.
        split; [reflexivity|]. split; [exact Hids|].
        cbn [searchesPerformed anchor found fallbackChannels].
        split; [exact Hs|]. split; [discriminate|]. auto.
Qed.

(** X10 -- [huntForAnchor] never throws and never asks the reranker; it
    makes at most six calls: one or two text searches and at most five
    playlist fetches.  When the first search throws, the result is
    [found = false] without fallback channels and [searchesPerformed] is 0
    although one search was made; in every other case [searchesPerformed]
    is the number of calls made.  An anchor is reported exactly when
    [found] is true. *)
Theorem huntForAnchor_total subject toc suffix log :
  let query := js_trim world (subject ++ js " full course playlist " ++ suffix) in
  exists res calls,
    huntForAnchor world subject toc suffix log = (Returns res, log ++ calls)
    /\ geminiCalls calls = []
    /\ (1 <= length (searchQueries calls) <= 2)%nat
    /\ (length (playlistFetches calls) <= 5)%nat
    /\ (length calls <= 6)%nat
    /\ match yt_search world (length log) query with
       | Throws =>
         calls = [CSearch query]
         /\ res = {| found := false; anchor := None; fallbackChannels := None;
                     searchesPerformed := 0 |}
       | Returns _ => searchesPerformed res = length calls
       end
    /\ (found res = true <-> anchor res <> None).
Proof.
  intros query.
  destruct (hunt_trace subject toc suffix log) as (res & calls & Hh & Hm).
  fold query in Hm. exists res, calls. split; [exact Hh|].
  destruct (yt_search world (length log) query) as [|sr].
  - destruct Hm as (-> & ->). simpl.
    repeat split; try lia; try discriminate.
    intros H; contradiction.
  - destruct (default [] (sr_playlists sr)) as [|p ps].
    + destruct Hm as (names & _ & -> & ->). simpl.
      repeat split; try lia; try discriminate.
      intros H; contradiction.
    + destruct Hm as (ids & -> & Hids & Hs & Hsome & Hnone).
      destruct (calls_of_fetches ids) as (Hq & Hg & Hp).
      assert (Hlen : (length ids <= 5)%nat).
      { assert (H : (length (List.map listId (take 5 (p :: ps))) <= 5)%nat)
          by (rewrite length_map, length_take; lia).
        rewrite Hids, length_take. lia. }
      change (CSearch query :: List.map CPlaylist ids)
        with ([CSearch query] ++ List.map CPlaylist ids).
      rewrite searchQueries_app, geminiCalls_app,
        playlistFetches_app, Hq, Hg, Hp.
      simpl. rewrite ?length_map.
      split; [reflexivity|]. split; [lia|]. split; [exact Hlen|].
      split; [lia|]. split; [rewrite Hs; lia|].
      destruct (anchor res) as [a|].
      * destruct (Hsome a eq_refl) as (Hf & _). split; [discriminate|auto].
      * destruct (Hnone eq_refl) as (Hf & _). rewrite Hf.
        split; [discriminate|]. intros H; contradiction.
Qed.

(** X11 -- an anchor that [huntForAnchor] reports is well formed: it was
    built from one of the playlists that were fetched, has at least three
    videos, [videoCount] is their number and they are numbered 0, 1, 2, ...;
    its matched and unmatched topics are the topics that the Matcher does
    and does not match against its titles, in the order of the syllabus,
    and its coverage score is the percentage of the matched ones.  No
    fallback channels come with it. *)
Theorem huntForAnchor_anchor subject toc suffix log :
  exists res calls,
    huntForAnchor world subject toc suffix log = (Returns res, log ++ calls)
    /\ forall a, anchor res = Some a ->
         found res = true /\ fallbackChannels res = None
         /\ In (playlistId a) (playlistFetches calls)
         /\ videoCount a = length (videos a)
         /\ (3 <= videoCount a)%nat
         /\ List.map av_position (videos a) = seq 0 (videoCount a)
         /\ matchedTopics a
            = List.filter
                (topicMatched_by world (List.map av_title (videos a))) toc
         /\ unmatchedTopics a
            = List.filter
                (fun t => negb (topicMatched_by world
                                  (List.map av_title (videos a)) t)) toc
         /\ coverageScore a
            = coveragePercent (length (matchedTopics a)) (length toc).
Proof.
  destruct (hunt_trace subject toc suffix log) as (res & calls & Hh & Hm).
  exists res, calls. split; [exact Hh|]. intros a Ha.
  cbv zeta in Hm.
  destruct (yt_search world (length log) _) as [|sr].
  - destruct Hm as (_ & ->). discriminate.
  - destruct (default [] (sr_playlists sr)) as [|p ps].
    + destruct Hm as (names & _ & _ & ->). discriminate.
    + destruct Hm as (ids & -> & _ & _ & Hsome & _).
      destruct (Hsome a Ha) as (Hf & Hfb & Hfor & Hin).
      destruct (calls_of_fetches ids) as (_ & _ & Hp).
      change (CSearch ?q :: List.map CPlaylist ids)
        with ([CSearch q] ++ List.map CPlaylist ids).
      rewrite playlistFetches_app, Hp. cbn [playlistFetches omap app].
      split; [exact Hf|]. split; [exact Hfb|]. split; [exact Hin|].
      exact Hfor.
Qed.

(** X12 -- the fallback of the Anchor Hunter when the playlist search finds
    no playlist.  It makes a second search, for tutorials, and returns
    [found = false] with [searchesPerformed = 2] and as fallback channels at
    most five distinct non-empty author names, each the author of one of the
    first ten videos of that search; when that search throws, the list of
    channels is empty. *)
Theorem huntForAnchor_no_playlist subject toc suffix log sr :
  let query := js_trim world (subject ++ js " full course playlist " ++ suffix) in
  let query2 := js_trim world (subject ++ js " tutorial " ++ suffix) in
  yt_search world (length log) query = Returns sr ->
  default [] (sr_playlists sr) = [] ->
  exists names,
    huntForAnchor world subject toc suffix log
    = (Returns {| found := false; anchor := None;
                  fallbackChannels := Some names; searchesPerformed := 2 |},
       log ++ [CSearch query; CSearch query2])
    /\ List.NoDup names /\ (length names <= 5)%nat
    /\ match yt_search world (length (log ++ [CSearch query])) query2 with
       | Throws => names = []
       | Returns result =>
         forall n, In n names ->
           n <> []
           /\ exists v, In v (take 10 (default [] (sr_videos result)))
                        /\ (vr_author v ≫= ra_name) = Some n
       end.
Proof.
  intros query query2 Hsr Hps.
  destruct (hunt_trace subject toc suffix log) as (res & calls & Hh & Hm).
  fold query query2 in Hm. rewrite Hsr, Hps in Hm.
  destruct Hm as (names & Hf & -> & ->).
  destruct (findPromisingChannels_spec subject suffix (log ++ [CSearch query]))
    as (names' & Hf' & Hnd & Hlen & Hfrom).
  fold query2 in Hf', Hfrom. rewrite Hf in Hf'. injection Hf' as <-.
  exists names. auto.
Qed.

End HunterExtras.

Lemma huntForAnchor_no_playlist_witness :
  exists names,
    huntForAnchor sparseCatalog (js "Data Structures") sparseTopics [] []
    = (Returns {| found := false; anchor := None;
                  fallbackChannels := Some names; searchesPerformed := 2 |},
       [CSearch (js "Data Structures full course playlist");
        CSearch (js "Data Structures tutorial")])
    /\ List.NoDup names /\ (length names <= 5)%nat.
Proof.
  destruct (huntForAnchor_no_playlist sparseCatalog (js "Data Structures")
              sparseTopics [] []
              {| sr_videos := Some []; sr_playlists := None |}
              eq_refl eq_refl)
    as (names & Hh & Hnd & Hlen & _).
  exists names. split; [exact Hh|]. split; [exact Hnd|exact Hlen].
Defined.

(** ** Preferences *)

Lemma oneOf_name {A} (name : A -> jsstring) (valid : list A) (d x : A) :
  (forall a b, name a = name b -> a = b) ->
  In x valid -> oneOf name valid (Some (name x)) d = x.
Proof.
  intros Hinj Hin. unfold oneOf.
  destruct (List.find (fun v => str_eqb (name v) (name x)) valid) as [y|] eqn:Hf.
  - apply List.find_some in Hf. destruct Hf as (_ & Hy).
    unfold str_eqb in Hy. apply bool_decide_eq_true in Hy.
    simpl. apply Hinj. exact Hy.
  - exfalso. pose proof (List.find_none _ _ Hf x Hin) as H. simpl in H.
    unfold str_eqb in H. apply bool_decide_eq_false in H. apply H. reflexivity.
Qed.

Lemma oneOf_unknown {A} (name : A -> jsstring) (valid : list A) (d : A) x :
  (forall a, x <> Some (name a)) -> oneOf name valid x d = d.
Proof.
  intros Hno. unfold oneOf. destruct x as [s|]; [|reflexivity].
  destruct (List.find (fun v => str_eqb (name v) s) valid) as [y|] eqn:Hf;
    [|reflexivity].
  apply List.find_some in Hf. destruct Hf as (_ & Hy).
  unfold str_eqb in Hy. apply bool_decide_eq_true in Hy.
  exfalso. apply (Hno y). rewrite Hy. reflexivity.
Qed.

(** X14 -- [validatePreferences] keeps valid preferences and repairs the
    others field by field.  Valid preferences come back unchanged, so
    validating twice, as [buildPlaylistFromSyllabus] does with preferences
    that a caller has validated, is validating once; a field that is
    missing or is none of the valid names gets its default ("undergrad",
    "english", "from_scratch"), whatever the other fields are. *)
Theorem validatePreferences_repairs :
  (forall prefs, validatePreferences (asPartial prefs) = prefs)
  /\ (forall raw,
        validatePreferences (asPartial (validatePreferences raw))
        = validatePreferences raw)
  /\ (forall raw,
        ((forall t, pp_studentType raw <> Some (studentTypeName t)) ->
         studentType (validatePreferences raw) = undergrad)
        /\ ((forall l, pp_language raw <> Some (languageName l)) ->
            language (validatePreferences raw) = english)
        /\ ((forall m, pp_learningMode raw <> Some (learningModeName m)) ->
            learningMode (validatePreferences raw) = Mode.from_scratch))
  /\ (forall raw t l m,
        pp_studentType raw = Some (studentTypeName t) ->
        pp_language raw = Some (languageName l) ->
        pp_learningMode raw = Some (learningModeName m) ->
        validatePreferences raw
        = {| studentType := t; language := l; learningMode := m |}).
Proof.
  assert (Hvalid : forall prefs, validatePreferences (asPartial prefs) = prefs).
  { intros [[] [] []]; vm_compute; reflexivity. }
  split; [exact Hvalid|]. split; [intros raw; apply Hvalid|].
  split.
  - intros raw. unfold validatePreferences.
    cbn [studentType language learningMode].
    split; [|split]; intros Hno; apply oneOf_unknown; exact Hno.
  - intros [rs rl rm] t l m Hs Hl Hm.
    cbn [pp_studentType pp_language pp_learningMode] in Hs, Hl, Hm. subst.
    apply (Hvalid {| studentType := t; language := l; learningMode := m |}).
Qed.

(** X15 -- every duration window that [resolvePreferences] yields is a real
    window above the resolver's floor: at least 60 seconds at the lower
    end and a larger upper end, so the relaxed pool of [pickBestVideo] (at
    least 60 seconds) contains the window.  The language suffix is empty
    exactly for English, and the mode keywords and the experience level are
    never empty.  The modifiers of the default preferences are the
    from-scratch modifiers. *)
Theorem resolvePreferences_window (prefs : UserPreferences) :
  let m := resolvePreferences prefs in
  60 <= minSeconds (duration m) < maxSeconds (duration m)
  /\ (languageSuffix m = [] <-> language prefs = english)
  /\ modeKeywords m <> [] /\ experienceLevel m <> []
  /\ (learningMode prefs = Mode.one_shot ->
      minSeconds (duration m) = ONE_SHOT_MIN_DURATION)
  /\ resolvePreferences getDefaultPreferences = fromScratchModifiers.
Proof.
  destruct prefs as [[] [] []];
    cbn [resolvePreferences duration minSeconds maxSeconds DURATION_CONFIGS
           languageSuffix LANGUAGE_SUFFIXES language learningMode studentType
           modeKeywords experienceLevel STUDENT_EXPERIENCE_MAP];
    unfold ONE_SHOT_MIN_DURATION;
    (split; [lia|]);
    (split; [split; [try reflexivity; vm_compute; discriminate
                    |try reflexivity; discriminate]|]);
    (split; [vm_compute; discriminate|]);
    (split; [vm_compute; discriminate|]);
    (split; [try reflexivity; discriminate|vm_compute; reflexivity]).
Qed.

Lemma resolvePreferences_floor (prefs : UserPreferences) :
  60 <= minSeconds (duration (resolvePreferences prefs)).
Proof.
  destruct prefs as [s l []];
    cbn [resolvePreferences duration minSeconds DURATION_CONFIGS learningMode];
    lia.
Qed.

(** X16 -- under any preferences, valid or not, no searched entry of a
    build is shorter than a minute: every entry of the Scratch Builder, and
    every entry of the Gap Filler that is not an anchor video, lasts at
    least 60 seconds. *)
Theorem build_minimum_duration (world : World) (raw : PartialPreferences)
  anchor toc subject log :
  let modifiers := resolvePreferences (validatePreferences raw) in
  (exists r calls,
     buildFromScratch world toc subject modifiers log
     = (Returns r, log ++ calls)
     /\ Forall (fun e => 60 <= durationSeconds e) (entries r))
  /\ (exists r calls,
        fillGaps world anchor toc subject modifiers log
        = (Returns r, log ++ calls)
        /\ Forall (fun e => source e = gap_fill -> 60 <= durationSeconds e)
             (entries r)).
Proof.
  intros modifiers.
  pose proof (resolvePreferences_floor (validatePreferences raw)) as Hmin.
  fold modifiers in Hmin.
  split.
  - unfold buildFromScratch.
    destruct (scratch_trace world subject modifiers toc 0%nat [] [] log)
      as (es & fs & calls & ok & Hsc & _ & _ & _ & _ & Hall & _).
    rewrite (bind_returns _ _ _ _ _ Hsc). unfold ret.
    eexists _, calls. split; [reflexivity|]. cbn [entries fst app].
    eapply Forall_impl; [exact Hall|]. cbv beta.
    intros e (_ & [H|H]); lia.
  - destruct (fillGaps_trace world anchor toc subject modifiers log)
      as (r & calls & es & ok & Hf & He & _ & _ & _ & _ & Hall & _).
    exists r, calls. split; [exact Hf|]. rewrite He.
    eapply Forall_imap; [|exact Hall]. cbv beta.
    intros i e [(Hsrc & _)|((_ & [H|H]) & _)] Hg;
      cbn [setPosition source durationSeconds] in *; try lia.
    rewrite Hsrc in Hg. discriminate.
Qed.

(** ** Chunking and the watch URLs *)

Lemma slice_from {A} i size (l : list A) :
  slice i (i + size) l = take size (drop i l).
Proof. unfold slice. replace (i + size - i)%nat with size by lia. reflexivity. Qed.

Lemma chunkLoop_spec {A} (array : list A) size :
  (0 < size)%nat ->
  forall fuel i chunked,
    (length array - i < fuel)%nat ->
    exists cs,
      chunkLoop fuel array size i chunked = Some (chunked ++ cs)
      /\ concat cs = drop i array
      /\ Forall (fun c => (0 < length c <= size)%nat) cs.
Proof.
  intros Hsize. induction fuel as [|fuel IH]; intros i chunked Hfuel; [lia|].
  cbn [chunkLoop]. destruct (i <? length array)%nat eqn:Hi.
  - apply Nat.ltb_lt in Hi.
    destruct (IH (i + size)%nat (chunked ++ [slice i (i + size) array]))
      as (cs & Hl & Hc & Hall); [lia|].
    exists (slice i (i + size) array :: cs).
    rewrite Hl, <- app_assoc. split; [reflexivity|].
    rewrite slice_from. split.
    + cbn [concat]. rewrite Hc, <- drop_drop. apply take_drop.
    + constructor; [|exact Hall].
      rewrite length_take, length_drop. lia.
  - apply Nat.ltb_ge in Hi. exists []. rewrite app_nil_r.
    split; [reflexivity|]. split; [|constructor].
    rewrite drop_ge by exact Hi. reflexivity.
Qed.

Lemma chunkLoop_zero {A} (array : list A) :
  forall fuel i chunked,
    (i < length array)%nat -> chunkLoop fuel array 0 i chunked = None.
Proof.
  induction fuel as [|fuel IH]; intros i chunked Hi; [reflexivity|].
  cbn [chunkLoop]. apply Nat.ltb_lt in Hi. rewrite Hi.
  rewrite Nat.add_0_r. apply IH. apply Nat.ltb_lt. exact Hi.
Qed.

Lemma watchLoop_chunkLoop ids size :
  forall fuel i chunked,
    watchLoop fuel ids size i (List.map toWatchURL chunked)
    = List.map toWatchURL <$> chunkLoop fuel ids size i chunked.
Proof.
  induction fuel as [|fuel IH]; intros i chunked; [reflexivity|].
  cbn [watchLoop chunkLoop].
  destruct (i <? length ids)%nat; [|reflexivity].
  rewrite <- IH, List.map_app. reflexivity.
Qed.

(** X17 -- [chunkArray] with a positive size cuts the array into
    consecutive pieces: the loop ends, the chunks put together again are
    the array, and every chunk is non-empty and no longer than the size. *)
Theorem chunkArray_partition {A} (fuel : nat) (array : list A) (size : nat) :
  (0 < size)%nat ->
  (length array < fuel)%nat ->
  exists chunks,
    chunkArray fuel array size = Some chunks
    /\ concat chunks = array
    /\ Forall (fun c => (0 < length c <= size)%nat) chunks.
Proof.
  intros Hsize Hfuel. unfold chunkArray.
  destruct (chunkLoop_spec array size Hsize fuel 0%nat []) as (cs & Hl & Hc & Hall);
    [lia|].
  exists cs. auto.
Qed.

Lemma chunkArray_partition_witness :
  chunkArray 6 [1; 2; 3; 4; 5] 2 = Some [[1; 2]; [3; 4]; [5]]
  /\ exists chunks,
       chunkArray 6 [1; 2; 3; 4; 5] 2 = Some chunks
       /\ concat chunks = [1; 2; 3; 4; 5].
Proof.
  split; [reflexivity|].
  destruct (chunkArray_partition 6 [1; 2; 3; 4; 5] 2) as (chunks & H & Hc & _);
    [lia|simpl; lia|].
  exists chunks. auto.
Defined.

(** X18 -- [toWatchURLs] is [chunkArray] followed by [toWatchURL] on each
    chunk; with a chunk size between 1 and 50 (50 is the default) the loop
    ends and no video is lost: the chunks are consecutive pieces of the
    list, and the URL of each chunk lists all its ids. *)
Theorem toWatchURLs_complete (fuel : nat) (videoIds : list jsstring)
  (chunkSize : nat) :
  (0 < chunkSize <= 50)%nat ->
  (length videoIds < fuel)%nat ->
  toWatchURLs fuel videoIds chunkSize
  = List.map toWatchURL <$> chunkArray fuel videoIds chunkSize
  /\ exists chunks,
       toWatchURLs fuel videoIds chunkSize
       = Some (List.map
                 (fun c => js "https://www.youtube.com/watch_videos?video_ids="
                           ++ join (js ",") c) chunks)
       /\ concat chunks = videoIds
       /\ Forall (fun c => (0 < length c <= chunkSize)%nat) chunks.
Proof.
  intros Hsize Hfuel.
  assert (Hrel : toWatchURLs fuel videoIds chunkSize
                 = List.map toWatchURL <$> chunkArray fuel videoIds chunkSize)
    by apply (watchLoop_chunkLoop videoIds chunkSize fuel 0%nat []).
  split; [exact Hrel|].
  destruct (chunkArray_partition fuel videoIds chunkSize)
    as (chunks & Hc & Hcat & Hall); [lia|exact Hfuel|].
  exists chunks. rewrite Hrel, Hc. cbn [fmap option_fmap option_map].
  split; [|auto]. f_equal. apply List.map_ext_in. intros c Hin.
  rewrite List.Forall_forall in Hall. specialize (Hall c Hin).
  unfold toWatchURL, slice.
  destruct c as [|x c]; [simpl in Hall; lia|].
  replace (length (x :: c) =? 0)%nat with false by reflexivity.
  rewrite drop_0, take_ge by (simpl in *; lia). reflexivity.
Qed.

Lemma toWatchURLs_complete_witness :
  exists chunks,
    toWatchURLs 4 [js "aaaaaaaaaaa"; js "bbbbbbbbbbb"; js "ccccccccccc"] 2
    = Some (List.map
              (fun c => js "https://www.youtube.com/watch_videos?video_ids="
                        ++ join (js ",") c) chunks)
    /\ concat chunks = [js "aaaaaaaaaaa"; js "bbbbbbbbbbb"; js "ccccccccccc"].
Proof.
  destruct (toWatchURLs_complete 4
              [js "aaaaaaaaaaa"; js "bbbbbbbbbbb"; js "ccccccccccc"] 2)
    as (_ & chunks & H & Hc & _); [lia|simpl; lia|].
  exists chunks. auto.
Defined.

(** X19 -- the chunk sizes that go wrong.  With a chunk size of 0 and a
    non-empty list neither [toWatchURLs] nor [chunkArray] ever returns:
    whatever the fuel, the loop is still running.  With a chunk size above
    50, ids are lost: a list of more than 50 ids taken as one chunk gives a
    single URL that lists the first 50 ids only. *)
Theorem toWatchURLs_bad_sizes (videoIds : list jsstring) :
  (videoIds <> [] ->
   forall fuel,
     toWatchURLs fuel videoIds 0 = None
     /\ chunkArray fuel videoIds 0 = None)
  /\ ((50 < length videoIds)%nat ->
      toWatchURLs 2 videoIds (length videoIds)
      = Some [js "https://www.youtube.com/watch_videos?video_ids="
              ++ join (js ",") (take 50 videoIds)]).
Proof.
  split.
  - intros Hne fuel.
    assert (Hlen : (0 < length videoIds)%nat)
      by (destruct videoIds; [contradiction|simpl; lia]).
    assert (Hc : chunkArray fuel videoIds 0 = None)
      by (apply chunkLoop_zero; exact Hlen).
    split; [|exact Hc].
    unfold toWatchURLs.
    pose proof (watchLoop_chunkLoop videoIds 0 fuel 0%nat []) as H.
    cbn [List.map] in H. rewrite H.
    unfold chunkArray in Hc. rewrite Hc. reflexivity.
  - intros Hlen. unfold toWatchURLs. cbn [watchLoop].
    assert (H0 : (0 <? length videoIds)%nat = true)
      by (apply Nat.ltb_lt; lia).
    rewrite H0. cbn [Nat.add app].
    rewrite Nat.ltb_irrefl. unfold slice at 1.
    rewrite Nat.sub_0_r, drop_0, firstn_all.
    unfold toWatchURL, slice.
    destruct videoIds as [|x ids]; [simpl in Hlen; lia|].
    replace (length (x :: ids) =? 0)%nat with false by reflexivity.
    rewrite drop_0. reflexivity.
Qed.

(** ** The one-shot search *)

Section OneShotFacts.
Variable world : World.

Lemma collect_collected st v : collected st -> collected (collect st v).
Proof.
  unfold collected, collect. intros (Hnd & Hseen).
  destruct (bool_decide (vr_videoId v ∈ st.2)) eqn:Hd; [auto|].
  apply bool_decide_eq_false in Hd. cbn [fst snd].
  rewrite List.map_app. cbn [List.map toCandidate vc_videoId].
  split.
  - apply NoDup_ListNoDup, NoDup_app.
    split; [apply NoDup_ListNoDup; exact Hnd|]. split.
    + intros x Hx Hx1. apply list_elem_of_singleton in Hx1. subst.
      apply Hd, Hseen, list_elem_of_In, Hx.
    + apply NoDup_singleton.
  - intros id. rewrite elem_of_union, elem_of_singleton, Hseen, in_app_iff.
    simpl. intuition.
Qed.

Lemma foldl_collect vs :
  forall st,
    collected st ->
    collected (foldl collect st vs)
    /\ (forall c, In c (foldl collect st vs).1 ->
        In c st.1 \/ exists v, In v vs /\ c = toCandidate v).
Proof.
  induction vs as [|v vs IH]; intros st Hst; cbn [foldl]; [auto|].
  destruct (IH (collect st v) (collect_collected st v Hst)) as (Hc & Hfrom).
  split; [exact Hc|]. intros c Hin.
  destruct (Hfrom c Hin) as [H|(w & Hw & ->)].
  - unfold collect in H.
    destruct (bool_decide (vr_videoId v ∈ st.2)); [left; exact H|].
    cbn [fst] in H. apply in_app_or in H. destruct H as [H|[<-|[]]];
      [left; exact H|].
    right. exists v. split; [left; reflexivity|reflexivity].
  - right. exists w. split; [right; exact Hw|reflexivity].
Qed.

Lemma collectLoop_spec queries :
  forall st log,
    collected st ->
    exists st',
      collectLoop world queries st log
      = (Returns st', log ++ List.map CSearch queries)
      /\ collected st'
      /\ (forall c, In c st'.1 -> In c st.1 \/ exists v, c = toCandidate v).
Proof.
  induction queries as [|q queries IH]; intros st log Hst.
  - exists st. rewrite app_nil_r. cbn [collectLoop]. unfold ret. auto.
  - cbn [collectLoop]. unfold bind at 1. unfold tryCatch, bind, callSearch, ret.
    destruct (yt_search world (length log) q) as [|result].
    + destruct (IH st (log ++ [CSearch q]) Hst) as (st' & Hl & Hc & Hfrom).
      exists st'. rewrite Hl, <- app_assoc. auto.
    + destruct (foldl_collect (slice 0 10 (default [] (sr_videos result)))
                  st Hst) as (Hc1 & Hfrom1).
      destruct (IH _ (log ++ [CSearch q]) Hc1) as (st' & Hl & Hc & Hfrom).
      exists st'. rewrite Hl, <- app_assoc. split; [reflexivity|].
      split; [exact Hc|]. intros c Hin.
      destruct (Hfrom c Hin) as [H|H]; [|right; exact H].
      destruct (Hfrom1 c H) as [H'|(v & _ & ->)]; [left; exact H'|].
      right. exists v. reflexivity.
Qed.

Lemma slice_0 {A} n (l : list A) : slice 0 n l = take n l.
Proof. unfold slice. rewrite Nat.sub_0_r, drop_0. reflexivity. Qed.

Lemma formatResults_spec ranked subject maxResults :
  let es := formatResults ranked subject maxResults in
  length es = Nat.min maxResults (length ranked)
  /\ List.map position es = seq 0 (length es)
  /\ List.map videoId es = List.map vc_videoId (take maxResults ranked)
  /\ List.map durationSeconds es
     = List.map (fun v => seconds (vc_duration v)) (take maxResults ranked)
  /\ Forall (fun e => source e = one_shot /\ topicMatched e = subject) es.
Proof.
  unfold formatResults. rewrite slice_0.
  set (mk := fun (i : nat) (v : VideoCandidate) => _).
  assert (Hlen : length (take maxResults ranked)
                 = Nat.min maxResults (length ranked)) by apply length_take.
  revert Hlen. generalize (take maxResults ranked) as l. intros l Hlen.
  cbv zeta. rewrite length_imap. split; [exact Hlen|].
  assert (Hpos : forall g : nat -> nat,
            List.map position (imap (fun i => mk (g i)) l)
            = List.map g (seq 0 (length l))).
  { clear. induction l as [|v l IH]; intros g; [reflexivity|].
    cbn [imap List.map length seq]. f_equal.
    rewrite <- seq_shift, List.map_map. apply (IH (fun i => g (S i))). }
  split; [rewrite <- (List.map_id (seq 0 (length l)));
          apply (Hpos (fun i => i))|].
  split; [change (List.map videoId (imap mk l)) with (videoId <$> imap mk l);
          rewrite fmap_imap; apply imap_const|].
  split; [change (List.map durationSeconds (imap mk l))
            with (durationSeconds <$> imap mk l);
          rewrite fmap_imap; apply imap_const|].
  apply (Forall_imap (fun _ => True)); [|apply List.Forall_forall; auto].
  intros i v _. split; reflexivity.
Qed.

Lemma rankByDensity_map {B} (f : VideoCandidate -> B) tl l :
  (forall v, f (scored tl v) = f v) ->
  List.map f (rankByDensity tl l) ≡ₚ List.map f l.
Proof.
  intros Hf. unfold rankByDensity. fold (scored tl).
  rewrite (sortBy_Permutation byDensityDesc (List.map (scored tl) l)).
  rewrite List.map_map. erewrite List.map_ext; [reflexivity|].
  intros v. apply Hf.
Qed.

Lemma rankByDensity_Forall (P : VideoCandidate -> Prop) tl l :
  (forall v, P v -> P (scored tl v)) ->
  Forall P l -> Forall P (rankByDensity tl l).
Proof.
  intros HP Hl. apply List.Forall_forall. intros x Hx.
  apply rankByDensity_from in Hx. destruct Hx as (v & Hv & ->).
  apply HP. rewrite List.Forall_forall in Hl. apply Hl, Hv.
Qed.

Lemma searchOneShot_trace syllabus modifiers log :
  let queries := buildOneShotQueries world (sd_title syllabus) modifiers in
  exists es st,
    searchOneShot world syllabus modifiers log
    = (Returns es, log ++ List.map CSearch queries)
    /\ collectLoop world queries ([], ∅) log
       = (Returns st, log ++ List.map CSearch queries)
    /\ length queries = 3%nat
    /\ (length es <= 5)%nat
    /\ List.map position es = seq 0 (length es)
    /\ Forall (fun e => source e = one_shot
                        /\ topicMatched e = sd_title syllabus) es
    /\ List.NoDup (List.map videoId es)
    /\ (Forall (fun e => 2700 <= durationSeconds e) es
        \/ Forall (fun e => 1200 <= durationSeconds e < 2700) es)
    /\ (es = [] <-> forall c, In c st.1 -> seconds (vc_duration c) < 1200).
Proof.
  intros queries. unfold searchOneShot. fold queries.
  destruct (collectLoop_spec queries ([], ∅) log) as (st & Hl & (Hnd & _) & _).
  { split; [constructor|]. intros id. cbn [fst snd List.map].
    rewrite elem_of_empty. simpl. tauto. }
  rewrite (bind_returns _ _ _ _ _ Hl). unfold ret.
  set (tl := js_toLowerCase world).
  set (all := fst st) in *.
  assert (Hids : forall (P : VideoCandidate -> bool),
            List.NoDup
              (List.map videoId
                 (formatResults (rankByDensity tl (List.filter P all))
                    (sd_title syllabus) MAX_ONE_SHOT_RESULTS))).
  { intros P.
    destruct (formatResults_spec (rankByDensity tl (List.filter P all))
                (sd_title syllabus) MAX_ONE_SHOT_RESULTS)
      as (_ & _ & -> & _).
    apply NoDup_ListNoDup.
    eapply sublist_NoDup;
      [|apply (fmap_sublist vc_videoId), sublist_take].
    apply NoDup_ListNoDup.
    eapply Permutation_NoDup;
      [symmetry; apply rankByDensity_map; reflexivity|].
    apply NoDup_map_filter. exact Hnd. }
  assert (Hdur : forall (P : VideoCandidate -> bool) (Q : Z -> Prop),
            (forall v, In v all -> P v = true ->
               Q (seconds (vc_duration v))) ->
            Forall (fun e => Q (durationSeconds e))
              (formatResults (rankByDensity tl (List.filter P all))
                 (sd_title syllabus) MAX_ONE_SHOT_RESULTS)).
  { intros P Q HPQ.
    destruct (formatResults_spec (rankByDensity tl (List.filter P all))
                (sd_title syllabus) MAX_ONE_SHOT_RESULTS)
      as (_ & _ & _ & Hd & _).
    apply List.Forall_forall. intros e He.
    apply (in_map durationSeconds) in He. rewrite Hd in He.
    apply in_map_iff in He. destruct He as (v & <- & Hv).
    apply list_elem_of_In in Hv.
    pose proof (elem_of_sublist _ _ _ Hv (sublist_take _ _)) as Hv'.
    apply list_elem_of_In, rankByDensity_from in Hv'.
    destruct Hv' as (v0 & Hv0 & ->). apply filter_In in Hv0.
    apply (HPQ v0); apply Hv0. }
  assert (Hshape : forall ranked,
            let es := formatResults ranked (sd_title syllabus)
                        MAX_ONE_SHOT_RESULTS in
            (length es <= 5)%nat
            /\ List.map position es = seq 0 (length es)
            /\ Forall (fun e => source e = one_shot
                                /\ topicMatched e = sd_title syllabus) es).
  { intros ranked es.
    destruct (formatResults_spec ranked (sd_title syllabus)
                MAX_ONE_SHOT_RESULTS) as (Hlen & Hpos & _ & _ & Hsrc).
    fold es in Hlen, Hpos, Hsrc. unfold MAX_ONE_SHOT_RESULTS in Hlen.
    split; [lia|]. auto. }
  assert (Hne : forall (P : VideoCandidate -> bool),
            List.filter P all <> [] ->
            formatResults (rankByDensity tl (List.filter P all))
              (sd_title syllabus) MAX_ONE_SHOT_RESULTS <> []).
  { intros P HP Hnil.
    destruct (formatResults_spec (rankByDensity tl (List.filter P all))
                (sd_title syllabus) MAX_ONE_SHOT_RESULTS) as (Hlen & _).
    rewrite Hnil, rankByDensity_length in Hlen.
    unfold MAX_ONE_SHOT_RESULTS in Hlen.
    destruct (List.filter P all); [contradiction|]. simpl in Hlen. lia. }
  unfold filterByDuration, ONE_SHOT_MIN_DURATION.
  destruct (List.filter (fun v => seconds (vc_duration v) >=? 2700) all)
    as [|l ls] eqn:Hlong.
  - cbn [length Nat.eqb].
    destruct (List.filter (fun v => seconds (vc_duration v) >=? 1200) all)
      as [|r rs] eqn:Hrel.
    + cbn [length Nat.eqb]. exists [], st.
      split; [reflexivity|]. split; [exact Hl|]. split; [reflexivity|].
      split; [simpl; lia|]. split; [reflexivity|]. split; [constructor|].
      split; [constructor|]. split; [left; constructor|].
      split; [|reflexivity]. intros _ c Hc.
      destruct (seconds (vc_duration c) >=? 1200) eqn:Hge; [|lia].
      assert (Hin : In c (List.filter
                            (fun v => seconds (vc_duration v) >=? 1200) all))
        by (apply filter_In; auto).
      rewrite Hrel in Hin. destruct Hin.
    + replace (length (r :: rs) =? 0)%nat with false by reflexivity.
      rewrite <- Hrel.
      eexists _, st. split; [reflexivity|]. split; [exact Hl|].
      split; [reflexivity|].
      destruct (Hshape (rankByDensity tl
                          (List.filter
                             (fun v => seconds (vc_duration v) >=? 1200) all)))
        as (H5 & Hpos & Hsrc).
      split; [exact H5|]. split; [exact Hpos|]. split; [exact Hsrc|].
      split; [apply Hids|].
      split.
      * right. apply (Hdur _ (fun d => 1200 <= d < 2700)).
        intros v Hin Hv. split; [lia|].
        destruct (seconds (vc_duration v) >=? 2700) eqn:Hge; [|lia].
        assert (Hin' : In v (List.filter
                               (fun v => seconds (vc_duration v) >=? 2700)
                               all)) by (apply filter_In; auto).
        rewrite Hlong in Hin'. destruct Hin'.
      * split.
        -- intros Hnil. exfalso. revert Hnil. apply Hne.
           rewrite Hrel. discriminate.
        -- intros Hall. exfalso.
           assert (Hin : In r (List.filter
                                 (fun v => seconds (vc_duration v) >=? 1200)
                                 all)) by (rewrite Hrel; left; reflexivity).
           apply filter_In in Hin. destruct Hin as (Hin & Hge).
           specialize (Hall r Hin). lia.
  - replace (length (l :: ls) =? 0)%nat with false by reflexivity.
    rewrite <- Hlong.
    eexists _, st. split; [reflexivity|]. split; [exact Hl|].
    split; [reflexivity|].
    destruct (Hshape (rankByDensity tl
                        (List.filter
                           (fun v => seconds (vc_duration v) >=? 2700) all)))
      as (H5 & Hpos & Hsrc).
    split; [exact H5|]. split; [exact Hpos|]. split; [exact Hsrc|].
    split; [apply Hids|].
    split; [left; apply (Hdur _ (fun d => 2700 <= d)); intros v _ Hv; lia|].
    split.
    + intros Hnil. exfalso. revert Hnil. apply Hne.
      rewrite Hlong. discriminate.
    + intros Hall. exfalso.
      assert (Hin : In l (List.filter
                            (fun v => seconds (vc_duration v) >=? 2700) all))
        by (rewrite Hlong; left; reflexivity).
      apply filter_In in Hin. destruct Hin as (Hin & Hge).
      specialize (Hall l Hin). lia.
Qed.


End OneShotFacts.

(** ** The orchestrator *)

Section OrchestratorFacts.
Variable world : World.
Variable now : nat -> jsstring.

Lemma hunt_calls subject toc suffix log :
  exists res calls,
    huntForAnchor world subject toc suffix log = (Returns res, log ++ calls)
    /\ (length calls <= 6)%nat
    /\ (forall a, anchor res = Some a ->
        found res = true /\ anchorFor world toc a
        /\ In (playlistId a) (playlistFetches calls))
    /\ (anchor res = None -> found res = false).
Proof.
  destruct (hunt_trace world subject toc suffix log) as (res & calls & Hh & Hm).
  exists res, calls. split; [exact Hh|]. cbv zeta in Hm.
  destruct (yt_search world (length log) _) as [|sr].
  - destruct Hm as (-> & ->). simpl. split; [lia|].
    split; [discriminate|reflexivity].
  - destruct (default [] (sr_playlists sr)) as [|p ps].
    + destruct Hm as (names & _ & -> & ->). simpl. split; [lia|].
      split; [discriminate|reflexivity].
    + destruct Hm as (ids & -> & Hids & _ & Hsome & Hnone).
      destruct (calls_of_fetches ids) as (_ & _ & Hp).
      assert (Hlen : (length ids <= 5)%nat).
      { assert (H : (length (List.map listId (take 5 (p :: ps))) <= 5)%nat)
          by (rewrite length_map, length_take; lia).
        rewrite Hids, length_take. lia. }
      split; [simpl; rewrite length_map; lia|].
      split; [|intros H; apply Hnone, H].
      intros a Ha. destruct (Hsome a Ha) as (Hf & _ & Hfor & Hin).
      split; [exact Hf|]. split; [exact Hfor|].
      change (CSearch ?q :: List.map CPlaylist ids)
        with ([CSearch q] ++ List.map CPlaylist ids).
      rewrite playlistFetches_app, Hp. exact Hin.
Qed.

Lemma fillGaps_bounds a toc subject modifiers log :
  exists r calls,
    fillGaps world a toc subject modifiers log = (Returns r, log ++ calls)
    /\ (length calls <= 3 * length toc)%nat
    /\ (length (entries r) <= length toc)%nat
    /\ playlistFetches calls = []
    /\ List.map position (entries r) = seq 0 (length (entries r))
    /\ Forall (fun e => fromAnchor world a e
                        \/ fromSearch world a modifiers e) (entries r).
Proof.
  destruct (fillGaps_trace world a toc subject modifiers log)
    as (r & calls & es & ok & Hf & He & _ & _ & _ & _ & Hall & Hcost).
  exists r, calls. split; [exact Hf|].
  destruct (fillGaps_spec world a toc subject modifiers log)
    as (r' & calls' & Hf' & Hacc & Hlen & Hpos).
  rewrite Hf in Hf'. injection Hf' as <- _.
  pose proof (loopCost_calls _ _ _ Hcost) as Hc.
  assert (Hg : (gapsFound r <= length toc)%nat).
  { unfold fillGaps in Hf.
    destruct (fillLoop_spec world subject modifiers
                (List.filter isGap (mapTopicsToAnchor world toc (videos a)))
                [] ∅ log) as (f' & ge' & calls2 & Hl & _).
    { apply NoDup_map_filter. rewrite mapTopicsToAnchor_positions.
      apply seq_NoDup. }
    { intros. apply lookup_empty. }
    rewrite (bind_returns _ _ _ _ _ Hl) in Hf. unfold ret in Hf.
    injection Hf as <- _. cbn [gapsFound].
    rewrite <- (mapTopicsToAnchor_length world toc (videos a)).
    apply filter_length_le. }
  split; [lia|]. split; [lia|].
  split; [apply Hcost|]. split; [exact Hpos|].
  rewrite He. eapply Forall_imap; [|exact Hall]. intros i e H. exact H.
Qed.

Lemma buildFromScratch_bounds toc subject modifiers log :
  exists r calls,
    buildFromScratch world toc subject modifiers log
    = (Returns r, log ++ calls)
    /\ (length calls <= 3 * length toc)%nat
    /\ (length (entries r) <= length toc)%nat
    /\ playlistFetches calls = []
    /\ Forall (searched modifiers) (entries r).
Proof.
  unfold buildFromScratch.
  destruct (scratch_trace world subject modifiers toc 0%nat [] [] log)
    as (es & fs & calls & ok & Hsc & Hlen & Htops & _ & _ & Hall & Hcost).
  rewrite (bind_returns _ _ _ _ _ Hsc). unfold ret.
  eexists _, calls. split; [reflexivity|]. cbn [entries fst app].
  pose proof (loopCost_calls _ _ _ Hcost) as Hc.
  split; [exact Hc|]. split; [|split; [apply Hcost|exact Hall]].
  rewrite <- (length_map topicMatched), Htops.
  clear. revert toc. induction ok as [|b ok IH]; intros [|t toc]; simpl;
    try lia. destruct b; simpl; specialize (IH toc); lia.
Qed.

Lemma build_trace options log :
  let prefs :=
    validatePreferences
      (default (asPartial getDefaultPreferences) (bo_preferences options)) in
  let modifiers := resolvePreferences prefs in
  let syllabus := bo_syllabus options in
  let toc := tableOfContents syllabus in
  exists es info calls,
    buildPlaylistFromSyllabus world now options log
    = finalResult now syllabus prefs es info (log ++ calls)
    /\ match learningMode prefs with
       | Mode.one_shot =>
         searchOneShot world syllabus modifiers log
         = (Returns es, log ++ calls)
         /\ info = None
       | _ =>
         if skipAnchorSearch options then
           exists s,
             buildFromScratch world toc (sd_title syllabus) modifiers log
             = (Returns s, log ++ calls)
             /\ es = entries s /\ info = None
         else
           exists res hcalls bcalls,
             huntForAnchor world (sd_title syllabus) toc
               (languageSuffix modifiers) log
             = (Returns res, log ++ hcalls)
             /\ calls = hcalls ++ bcalls
             /\ match anchor res with
                | Some a =>
                  exists g,
                    fillGaps world a toc (sd_title syllabus) modifiers
                      (log ++ hcalls)
                    = (Returns g, (log ++ hcalls) ++ bcalls)
                    /\ es = entries g
                    /\ info = Some {| Forge.channelName := ap_channelName a;
                                      Forge.playlistTitle := playlistTitle a;
                                      Forge.coverageScore := coverageScore a |}
                | None =>
                  exists s,
                    buildFromScratch world toc (sd_title syllabus) modifiers
                      (log ++ hcalls)
                    = (Returns s, (log ++ hcalls) ++ bcalls)
                    /\ es = entries s /\ info = None
                end
       end.
Proof.
  intros prefs modifiers syllabus toc.
  unfold buildPlaylistFromSyllabus. fold prefs. fold modifiers. fold syllabus.
  fold toc.
  assert (Hnormal :
            exists es info calls,
              bind
                (if negb (skipAnchorSearch options) then
                   let* anchorResult :=
                     huntForAnchor world (sd_title syllabus) toc
                       (languageSuffix modifiers) in
                   match found anchorResult, anchor anchorResult with
                   | true, Some a =>
                     let* gapResult :=
                       fillGaps world a toc (sd_title syllabus) modifiers in
                     ret (entries gapResult,
                          Some {| Forge.channelName := ap_channelName a;
                                  Forge.playlistTitle := playlistTitle a;
                                  Forge.coverageScore := coverageScore a |})
                   | _, _ =>
                     let* scratchResult :=
                       buildFromScratch world toc (sd_title syllabus)
                         modifiers in
                     ret (entries scratchResult, None)
                   end
                 else
                   let* scratchResult :=
                     buildFromScratch world toc (sd_title syllabus)
                       modifiers in
                   ret (entries scratchResult, None))
                (fun built =>
                   finalResult now syllabus prefs (fst built) (snd built)) log
              = finalResult now syllabus prefs es info (log ++ calls)
              /\ if skipAnchorSearch options then
                   exists s,
                     buildFromScratch world toc (sd_title syllabus) modifiers
                       log = (Returns s, log ++ calls)
                     /\ es = entries s /\ info = None
                 else
                   exists res hcalls bcalls,
                     huntForAnchor world (sd_title syllabus) toc
                       (languageSuffix modifiers) log
                     = (Returns res, log ++ hcalls)
                     /\ calls = hcalls ++ bcalls
                     /\ match anchor res with
                        | Some a =>
                          exists g,
                            fillGaps world a toc (sd_title syllabus) modifiers
                              (log ++ hcalls)
                            = (Returns g, (log ++ hcalls) ++ bcalls)
                            /\ es = entries g
                            /\ info
                               = Some {| Forge.channelName := ap_channelName a;
                                         Forge.playlistTitle := playlistTitle a;
                                         Forge.coverageScore :=
                                           coverageScore a |}
                        | None =>
                          exists s,
                            buildFromScratch world toc (sd_title syllabus)
                              modifiers (log ++ hcalls)
                            = (Returns s, (log ++ hcalls) ++ bcalls)
                            /\ es = entries s /\ info = None
                        end).
  { destruct (skipAnchorSearch options); cbn [negb].
    - destruct (buildFromScratch_bounds toc (sd_title syllabus)
                  modifiers log) as (s & calls & Hs & _).
      exists (entries s), None, calls.
      unfold bind at 1. rewrite (bind_returns _ _ _ _ _ Hs). unfold ret.
      split; [reflexivity|]. exists s. auto.
    - destruct (hunt_calls (sd_title syllabus) toc (languageSuffix modifiers)
                  log) as (res & hcalls & Hh & _ & Hsome & Hnone).
      unfold bind at 1. rewrite (bind_returns _ _ _ _ _ Hh).
      destruct (anchor res) as [a|] eqn:Ha.
      + destruct (Hsome a eq_refl) as (Hf & _). rewrite Hf.
        destruct (fillGaps_bounds a toc (sd_title syllabus) modifiers
                    (log ++ hcalls)) as (g & bcalls & Hg & _).
        rewrite (bind_returns _ _ _ _ _ Hg). unfold ret.
        eexists (entries g), _, (hcalls ++ bcalls).
        rewrite (app_assoc log). split; [reflexivity|].
        exists res, hcalls, bcalls. rewrite Ha.
        split; [exact Hh|]. split; [reflexivity|]. exists g. auto.
      + rewrite (Hnone eq_refl).
        destruct (buildFromScratch_bounds toc (sd_title syllabus)
                    modifiers (log ++ hcalls)) as (s & bcalls & Hs & _).
        rewrite (bind_returns _ _ _ _ _ Hs). unfold ret.
        eexists (entries s), None, (hcalls ++ bcalls).
        rewrite (app_assoc log). split; [reflexivity|].
        exists res, hcalls, bcalls. rewrite Ha.
        split; [exact Hh|]. split; [reflexivity|]. exists s. auto. }
  destruct (learningMode prefs); [exact Hnormal|exact Hnormal|].
  unfold handleOneShotMode.
  destruct (searchOneShot_trace world syllabus modifiers log)
    as (es & st & Hs & _).
  rewrite (bind_returns _ _ _ _ _ Hs).
  exists es, None, (List.map CSearch
                      (buildOneShotQueries world (sd_title syllabus) modifiers)).
  auto.
Qed.

Lemma same_run {A} (m : M A) log a calls b calls' :
  m log = (Returns a, log ++ calls) -> m log = (Returns b, log ++ calls') ->
  a = b /\ calls = calls'.
Proof.
  intros H1 H2. rewrite H1 in H2. injection H2 as <- H.
  split; [reflexivity|]. apply app_inv_head in H. exact H.
Qed.


(** X22 -- the one-shot short-circuit.  When the validated learning mode is
    "one_shot", the build is the one-shot search and nothing else: its
    calls are the three one-shot searches, no anchor is hunted or reported,
    and the at most five entries all have the source [one_shot]. *)
Theorem buildPlaylistFromSyllabus_one_shot options log :
  let prefs :=
    validatePreferences
      (default (asPartial getDefaultPreferences) (bo_preferences options)) in
  let syllabus := bo_syllabus options in
  learningMode prefs = Mode.one_shot ->
  exists r,
    buildPlaylistFromSyllabus world now options log
    = (Returns r,
       log ++ List.map CSearch
                (buildOneShotQueries world (sd_title syllabus)
                   (resolvePreferences prefs)))
    /\ fst (searchOneShot world syllabus (resolvePreferences prefs) log)
       = Returns (Forge.entries r)
    /\ Forge.anchor r = None
    /\ (length (Forge.entries r) <= 5)%nat
    /\ Forall (fun e => source e = one_shot) (Forge.entries r).
Proof.
  intros prefs syllabus Hmode.
  destruct (build_trace options log) as (es & info & calls & Hb & Hm).
  fold prefs syllabus in Hb, Hm. cbv zeta in Hm. rewrite Hmode in Hm.
  destruct Hm as (Hs & ->).
  destruct (searchOneShot_trace world syllabus (resolvePreferences prefs) log)
    as (es' & st & Hs' & _ & _ & H5 & _ & Hsrc & _).
  destruct (same_run _ _ _ _ _ _ Hs Hs') as (-> & ->).
  eexists. split; [exact Hb|].
  cbn [Forge.entries Forge.anchor]. rewrite Hs.
  split; [reflexivity|]. split; [reflexivity|]. split; [exact H5|].
  eapply Forall_impl; [exact Hsrc|]. intros e (H & _). exact H.
Qed.

(** X23 -- with [skipAnchorSearch], outside one-shot mode, the build is the
    Scratch Builder: it makes the calls of [buildFromScratch] and no
    other, fetches no playlist, reports no anchor, and its entries are
    those of [buildFromScratch], with the positions that it gave them. *)
Theorem buildPlaylistFromSyllabus_skip_anchor options log :
  let prefs :=
    validatePreferences
      (default (asPartial getDefaultPreferences) (bo_preferences options)) in
  let syllabus := bo_syllabus options in
  skipAnchorSearch options = true ->
  learningMode prefs <> Mode.one_shot ->
  exists r s calls,
    buildPlaylistFromSyllabus world now options log
    = (Returns r, log ++ calls)
    /\ buildFromScratch world (tableOfContents syllabus) (sd_title syllabus)
         (resolvePreferences prefs) log
       = (Returns s, log ++ calls)
    /\ Forge.entries r = entries s
    /\ Forge.anchor r = None
    /\ playlistFetches calls = [].
Proof.
  intros prefs syllabus Hskip Hmode.
  destruct (build_trace options log) as (es & info & calls & Hb & Hm).
  fold prefs syllabus in Hb, Hm. cbv zeta in Hm. rewrite Hskip in Hm.
  assert (Hs : exists s,
             buildFromScratch world (tableOfContents syllabus)
               (sd_title syllabus) (resolvePreferences prefs) log
             = (Returns s, log ++ calls)
             /\ es = entries s /\ info = None)
    by (destruct (learningMode prefs); [exact Hm|exact Hm|contradiction]).
  destruct Hs as (s & Hs & -> & ->).
  destruct (buildFromScratch_bounds (tableOfContents syllabus)
              (sd_title syllabus) (resolvePreferences prefs) log)
    as (s' & calls' & Hs' & _ & _ & Hp & _).
  destruct (same_run _ _ _ _ _ _ Hs Hs') as (-> & ->).
  eexists _, s', calls'. split; [exact Hb|]. split; [exact Hs|].
  cbn [Forge.entries Forge.anchor]. auto.
Qed.

(** X24 -- a build that reports an anchor.  The anchor information in the
    result is that of a well-formed anchor built from a playlist that was
    fetched in this build; the anchor search was not skipped and the mode
    is not one-shot; the entries are at the positions 0, 1, 2, ...; and
    each entry is the anchor video that best matches its topic or a video
    found by search for a topic without a match. *)
Theorem buildPlaylistFromSyllabus_anchor options log :
  let prefs :=
    validatePreferences
      (default (asPartial getDefaultPreferences) (bo_preferences options)) in
  let syllabus := bo_syllabus options in
  exists r calls,
    buildPlaylistFromSyllabus world now options log
    = (Returns r, log ++ calls)
    /\ forall info, Forge.anchor r = Some info ->
         skipAnchorSearch options = false
         /\ learningMode prefs <> Mode.one_shot
         /\ List.map position (Forge.entries r)
            = seq 0 (length (Forge.entries r))
         /\ exists a,
              anchorFor world (tableOfContents syllabus) a
              /\ In (playlistId a) (playlistFetches calls)
              /\ info = {| Forge.channelName := ap_channelName a;
                           Forge.playlistTitle := playlistTitle a;
                           Forge.coverageScore := coverageScore a |}
              /\ Forall (fun e =>
                           fromAnchor world a e
                           \/ fromSearch world a (resolvePreferences prefs) e)
                   (Forge.entries r).
Proof.
  intros prefs syllabus.
  destruct (build_trace options log) as (es & info & calls & Hb & Hm).
  fold prefs syllabus in Hb, Hm. cbv zeta in Hm.
  set (modifiers := resolvePreferences prefs) in *.
  set (toc := tableOfContents syllabus) in *.
  eexists _, calls. split; [exact Hb|].
  cbn [Forge.anchor Forge.entries]. intros info' ->.
  assert (Hnormal :
            learningMode prefs <> Mode.one_shot ->
            (if skipAnchorSearch options then
               exists s,
                 buildFromScratch world toc (sd_title syllabus) modifiers log
                 = (Returns s, log ++ calls)
                 /\ es = entries s /\ Some info' = None
             else
               exists res hcalls bcalls,
                 huntForAnchor world (sd_title syllabus) toc
                   (languageSuffix modifiers) log
                 = (Returns res, log ++ hcalls)
                 /\ calls = hcalls ++ bcalls
                 /\ match anchor res with
                    | Some a =>
                      exists g,
                        fillGaps world a toc (sd_title syllabus) modifiers
                          (log ++ hcalls)
                        = (Returns g, (log ++ hcalls) ++ bcalls)
                        /\ es = entries g
                        /\ Some info'
                           = Some {| Forge.channelName := ap_channelName a;
                                     Forge.playlistTitle := playlistTitle a;
                                     Forge.coverageScore := coverageScore a |}
                    | None =>
                      exists s,
                        buildFromScratch world toc (sd_title syllabus)
                          modifiers (log ++ hcalls)
                        = (Returns s, (log ++ hcalls) ++ bcalls)
                        /\ es = entries s /\ Some info' = None
                    end) ->
            skipAnchorSearch options = false
            /\ learningMode prefs <> Mode.one_shot
            /\ List.map position es = seq 0 (length es)
            /\ exists a,
                 anchorFor world toc a
                 /\ In (playlistId a) (playlistFetches calls)
                 /\ info' = {| Forge.channelName := ap_channelName a;
                               Forge.playlistTitle := playlistTitle a;
                               Forge.coverageScore := coverageScore a |}
                 /\ Forall (fun e =>
                              fromAnchor world a e
                              \/ fromSearch world a modifiers e) es).
  { clear Hm. intros Hmode Hm. destruct (skipAnchorSearch options).
    - destruct Hm as (s & _ & _ & H). discriminate.
    - destruct Hm as (res & hcalls & bcalls & Hh & -> & Hm).
      destruct (hunt_calls (sd_title syllabus) toc (languageSuffix modifiers)
                  log) as (res' & hcalls' & Hh' & _ & Hsome & _).
      destruct (same_run _ _ _ _ _ _ Hh Hh') as (-> & ->).
      destruct (anchor res') as [a|] eqn:Ha.
      + destruct Hm as (g & Hg & -> & [= ->]).
        destruct (Hsome a eq_refl) as (_ & Hfor & Hin).
        destruct (fillGaps_bounds a toc (sd_title syllabus) modifiers
                    (log ++ hcalls'))
          as (g' & bcalls' & Hg' & _ & _ & _ & Hpos & Hall).
        destruct (same_run _ _ _ _ _ _ Hg Hg') as (-> & ->).
        split; [reflexivity|]. split; [exact Hmode|]. split; [exact Hpos|].
        exists a. split; [exact Hfor|].
        split; [rewrite playlistFetches_app; apply in_or_app; left; exact Hin|].
        split; [reflexivity|exact Hall].
      + destruct Hm as (s & _ & _ & H). discriminate. }
  destruct (learningMode prefs) eqn:Hmode;
    [apply Hnormal; [discriminate|exact Hm]
    |apply Hnormal; [discriminate|exact Hm]|].
  destruct Hm as (_ & H). discriminate.
Qed.

End OrchestratorFacts.

Lemma buildPlaylistFromSyllabus_one_shot_witness :
  exists r,
    buildPlaylistFromSyllabus sparseCatalog fixedClock examOptions []
    = (Returns r,
       [CSearch (js "Data Structures one shot full course");
        CSearch (js "Data Structures complete revision in one video");
        CSearch (js "Data Structures full course marathon")])
    /\ Forge.anchor r = None
    /\ Forge.entries r = [].
Proof.
  destruct (buildPlaylistFromSyllabus_one_shot sparseCatalog fixedClock
              examOptions [] eq_refl) as (r & Hr & He & Ha & _).
  exists r. split; [exact Hr|]. split; [exact Ha|].
  assert (H : Returns (@nil PlaylistEntry) = Returns (Forge.entries r))
    by exact He.
  congruence.
Defined.

Lemma buildPlaylistFromSyllabus_skip_anchor_witness :
  exists r s calls,
    buildPlaylistFromSyllabus sparseCatalog fixedClock scratchOptions []
    = (Returns r, [] ++ calls)
    /\ Forge.entries r = entries s
    /\ Forge.anchor r = None
    /\ playlistFetches calls = [].
Proof.
  destruct (buildPlaylistFromSyllabus_skip_anchor sparseCatalog fixedClock
              scratchOptions [] eq_refl)
    as (r & s & calls & Hr & _ & He & Ha & Hp); [discriminate|].
  exists r, s, calls. split; [exact Hr|]. split; [exact He|].
  split; [exact Ha|exact Hp].
Defined.
